(** * Peer message-processing core (services/chain/messages.cpp)

    A shallow embedding of the global tables of messages.cpp (peer registry,
    in-flight block index, orphan pool, recent-rejects bookkeeping) and of
    the functions that maintain them, together with the opaque blob type of
    uint256.h that keys those tables.

    Conventions.
    - A C++ [int] or [int64_t] is a [Z].  Signed overflow is undefined
      behaviour in C++, so every signed operation of the source is
      range-checked ([int_checked], [int64_checked]) and the modelled function
      yields [None] where the source has no defined result.  The same [None]
      stands for a failed [assert] and for the dereference of a null
      pointer or of a dangling list iterator.
    - An unsigned integer is an [N]/[Z] reduced modulo its width.
    - [std::map] is stdpp's [gmap]; iteration order is recovered by sorting
      the keys with the comparison of the key type.
    - Values the source obtains from collaborators that are not part of
      messages.cpp (clock, random numbers, mempool, coin view, chain tip)
      are arguments of the modelled functions. *)

From Stdlib Require Import ZArith NArith List Bool Lia.
From Stdlib Require Import Strings.Byte.
From stdpp Require Import base option list gmap fin_maps fin_sets sorting strings.

Local Open Scope Z_scope.

(** ** uint256.h: fixed-size opaque blobs *)

Module Blob.

Definition byte_val (b : byte) : Z := Z.of_N (Byte.to_N b).

(** [base_blob<BITS>] is [uint8_t data[WIDTH]] with [WIDTH = BITS / 8]. *)
Definition WIDTH (BITS : Z) : Z := BITS / 8.

(** [memcmp]: the sign of the first differing pair of bytes, compared as
    unsigned chars. *)
Fixpoint memcmp (a b : list byte) : comparison :=
  match a, b with
  | x :: a', y :: b' =>
      match Z.compare (byte_val x) (byte_val y) with
      | Eq => memcmp a' b'
      | c => c
      end
  | [], [] => Eq
  | [], _ :: _ => Lt
  | _ :: _, [] => Gt
  end.

(** The default constructor and [SetNull] zero the whole array. *)
Definition SetNull (BITS : Z) : list byte :=
  replicate (Z.to_nat (WIDTH BITS)) x00.

Definition IsNull (data : list byte) : bool :=
  forallb (fun b => byte_val b =? 0) data.

Definition operator_eq (a b : list byte) : bool :=
  match memcmp a b with Eq => true | _ => false end.

Definition operator_ne (a b : list byte) : bool :=
  match memcmp a b with Eq => false | _ => true end.

Definition operator_lt (a b : list byte) : bool :=
  match memcmp a b with Lt => true | _ => false end.

Definition size (data : list byte) : Z := Z.of_nat (length data).

(** [Get64(n)] is [data[2n] | (uint64_t)data[2n+1] << 32]. *)
Definition Get64 (data : list byte) (n : nat) : Z :=
  Z.lor (byte_val (nth (2 * n) data x00))
        (Z.shiftl (byte_val (nth (2 * n + 1) data x00)) 32).

End Blob.

(** A [uint256] is the 32-byte array of [base_blob<256>]. *)
Definition uint256 : Type := list byte.

Definition uint256_null : uint256 := Blob.SetNull 256.

#[global] Instance byte_eq_dec : EqDecision byte.
Proof.
  intros a b. destruct (N.eq_dec (Byte.to_N a) (Byte.to_N b)) as [E | E].
  - left. apply (f_equal Byte.of_N) in E. rewrite !Byte.of_to_N in E.
    congruence.
  - right. congruence.
Defined.

#[global] Instance byte_countable : Countable byte :=
  inj_countable Byte.to_N Byte.of_N Byte.of_to_N.

(** The strict order of [std::map<uint256, _>] is [operator<]. *)
Definition uint256_lt (a b : uint256) : Prop := Blob.operator_lt a b = true.

#[global] Instance uint256_lt_dec : RelDecision uint256_lt.
Proof. intros a b. unfold uint256_lt. apply _. Defined.

(** [a <= b] in the order of the map, that is [!(b < a)]. *)
Definition uint256_le (a b : uint256) : Prop := Blob.operator_lt b a = false.

#[global] Instance uint256_le_dec : RelDecision uint256_le.
Proof. intros a b. unfold uint256_le. apply _. Defined.

(** ** Machine integers *)

Definition INT_MIN : Z := -2147483648.
Definition INT_MAX : Z := 2147483647.
Definition INT64_MIN : Z := -9223372036854775808.
Definition INT64_MAX : Z := 9223372036854775807.
Definition UINT_MOD : Z := 4294967296.
Definition UINT64_MOD : Z := 18446744073709551616.

(** The result of a signed [int] operation, when it has one. *)
Definition int_checked (z : Z) : option Z :=
  if bool_decide (INT_MIN <= z <= INT_MAX) then Some z else None.

Definition int64_checked (z : Z) : option Z :=
  if bool_decide (INT64_MIN <= z <= INT64_MAX) then Some z else None.

(** Conversion of a [bool] to an integer. *)
Definition b2z (b : bool) : Z := if b then 1 else 0.

(** ** Peer state *)

Definition NodeId : Type := Z.

(** The address of a [std::list] node; a list iterator holds one. *)
Definition list_iter : Type := nat.

(** [const CBlockIndex*]: [None] is the null pointer. *)
Definition CBlockIndexPtr : Type := option nat.

Record QueuedBlock : Type := mkQueuedBlock {
  hash : uint256;
  pindex : CBlockIndexPtr;
  fValidatedHeaders : bool
}.

(** The fields of [CNodeState] that messages.cpp reads or writes in the
    functions modelled below. *)
Record CNodeState : Type := mkCNodeState {
  fCurrentlyConnected : bool;
  nMisbehavior : Z;
  fShouldBan : bool;
  fSyncStarted : bool;
  vBlocksInFlight : list (list_iter * QueuedBlock);
  nDownloadingSince : Z;
  nBlocksInFlight : Z;
  nBlocksInFlightValidHeaders : Z;
  nStallingSince : Z;
  fPreferredDownload : bool
}.

(** Modelled from the spec: the constructor of [CNodeState] is declared in
    messages.h, which is not among the sources.  A new record has nothing
    in flight, no score and no flag set, so that the counters derived from
    the registry (invariants 2 to 4 of the spec) start from zero. *)
Definition CNodeState_new : CNodeState :=
  {| fCurrentlyConnected := false; nMisbehavior := 0; fShouldBan := false;
     fSyncStarted := false; vBlocksInFlight := []; nDownloadingSince := 0;
     nBlocksInFlight := 0; nBlocksInFlightValidHeaders := 0;
     nStallingSince := 0; fPreferredDownload := false |}.

(** ** Transactions and the orphan pool *)

Record COutPoint : Type := mkCOutPoint {
  outpoint_hash : uint256;
  outpoint_n : Z
}.

Record CTxIn : Type := mkCTxIn {
  prevout : COutPoint
}.

(** A transaction is its list of inputs and the rest of its serialisation. *)
Record CTransaction : Type := mkCTransaction {
  vin : list CTxIn;
  tx_body : list byte
}.

(** [tx.GetHash()] and [GetSerializeSize(tx, SER_NETWORK, CURRENT_VERSION)]
    are defined outside messages.cpp; the pool takes them as an interface.
    [GetSerializeSize] yields an [unsigned int], as the member of the same
    name in uint256.h does. *)
Class TxSerializer : Type := {
  GetHash : CTransaction -> uint256;
  GetSerializeSize : CTransaction -> Z
}.

Record COrphanTx : Type := mkCOrphanTx {
  tx : CTransaction;
  fromPeer : NodeId
}.

(** ** Global tables of messages.cpp *)

Record Globals : Type := mkGlobals {
  mapNodeState : gmap NodeId CNodeState;
  mapBlocksInFlight : gmap uint256 (NodeId * list_iter);
  mapBlockSource : gmap uint256 (NodeId * bool);
  nSyncStarted : Z;
  nPreferredDownload : Z;
  nPeersWithValidatedDownloads : Z;
  mapOrphanTransactions : gmap uint256 COrphanTx;
  mapOrphanTransactionsByPrev : gmap uint256 (gset uint256);
  (** the next address the allocator hands out for a [std::list] node *)
  heap_next : list_iter
}.

(** Modelled from the spec: the three counters are defined outside
    messages.cpp.  At program start the tables are empty and the counters
    zero, as the consistency check of [FinalizeNode] expects of an empty
    registry. *)
Definition Globals_init : Globals :=
  {| mapNodeState := ∅; mapBlocksInFlight := ∅; mapBlockSource := ∅;
     nSyncStarted := 0; nPreferredDownload := 0;
     nPeersWithValidatedDownloads := 0;
     mapOrphanTransactions := ∅; mapOrphanTransactionsByPrev := ∅;
     heap_next := O |}.

Definition set_mapNodeState (m : gmap NodeId CNodeState) (g : Globals) : Globals :=
  {| mapNodeState := m; mapBlocksInFlight := mapBlocksInFlight g;
     mapBlockSource := mapBlockSource g; nSyncStarted := nSyncStarted g;
     nPreferredDownload := nPreferredDownload g;
     nPeersWithValidatedDownloads := nPeersWithValidatedDownloads g;
     mapOrphanTransactions := mapOrphanTransactions g;
     mapOrphanTransactionsByPrev := mapOrphanTransactionsByPrev g;
     heap_next := heap_next g |}.

Definition set_orphans (m : gmap uint256 COrphanTx)
    (mp : gmap uint256 (gset uint256)) (g : Globals) : Globals :=
  {| mapNodeState := mapNodeState g; mapBlocksInFlight := mapBlocksInFlight g;
     mapBlockSource := mapBlockSource g; nSyncStarted := nSyncStarted g;
     nPreferredDownload := nPreferredDownload g;
     nPeersWithValidatedDownloads := nPeersWithValidatedDownloads g;
     mapOrphanTransactions := m;
     mapOrphanTransactionsByPrev := mp;
     heap_next := heap_next g |}.

(** ** [std::map] iteration *)

Section StdMap.
Context {V : Type}.

(** The keys in the order [begin() .. end()] visits them. *)
Definition map_keys (m : gmap uint256 V) : list uint256 :=
  merge_sort uint256_le (map fst (map_to_list m)).

(** [m.begin()->first]; [None] when [begin() == end()]. *)
Definition map_begin (m : gmap uint256 V) : option uint256 :=
  head (map_keys m).

(** [m.lower_bound(k)->first]: the first key that is not less than [k];
    [None] stands for [end()]. *)
Definition map_lower_bound (k : uint256) (m : gmap uint256 V) : option uint256 :=
  head (filter (fun x => uint256_le k x) (map_keys m)).
End StdMap.

(** ** [std::list] nodes addressed by iterator *)

(** Dereference of an iterator into the list. *)
Fixpoint find_node (it : list_iter) (l : list (list_iter * QueuedBlock))
    : option QueuedBlock :=
  match l with
  | [] => None
  | (i, qb) :: l' => if Nat.eqb i it then Some qb else find_node it l'
  end.

(** [l.erase(it)]: unlink the node [it] points to. *)
Fixpoint erase_node (it : list_iter) (l : list (list_iter * QueuedBlock))
    : list (list_iter * QueuedBlock) :=
  match l with
  | [] => []
  | (i, qb) :: l' => if Nat.eqb i it then l' else (i, qb) :: erase_node it l'
  end.

(** [l.begin() == it]. *)
Definition is_begin (it : list_iter) (l : list (list_iter * QueuedBlock)) : bool :=
  match l with
  | (i, _) :: _ => Nat.eqb i it
  | [] => false
  end.

(** ** Block download bookkeeping *)

Definition set_inflight (st : CNodeState) (l : list (list_iter * QueuedBlock))
    (since nInFlight nValid stalling : Z) : CNodeState :=
  {| fCurrentlyConnected := fCurrentlyConnected st;
     nMisbehavior := nMisbehavior st; fShouldBan := fShouldBan st;
     fSyncStarted := fSyncStarted st; vBlocksInFlight := l;
     nDownloadingSince := since; nBlocksInFlight := nInFlight;
     nBlocksInFlightValidHeaders := nValid; nStallingSince := stalling;
     fPreferredDownload := fPreferredDownload st |}.

Definition set_download (nodes : gmap NodeId CNodeState)
    (inflight : gmap uint256 (NodeId * list_iter)) (nPeers : Z)
    (next : list_iter) (g : Globals) : Globals :=
  {| mapNodeState := nodes; mapBlocksInFlight := inflight;
     mapBlockSource := mapBlockSource g; nSyncStarted := nSyncStarted g;
     nPreferredDownload := nPreferredDownload g;
     nPeersWithValidatedDownloads := nPeers;
     mapOrphanTransactions := mapOrphanTransactions g;
     mapOrphanTransactionsByPrev := mapOrphanTransactionsByPrev g;
     heap_next := next |}.

(** [MarkBlockAsReceived(hash)].  [now] is what [GetTimeMicros()] returns
    if it is called.  The owner recorded in the index must be registered and
    the recorded iterator must point into its list; the source dereferences
    both without a test. *)
Definition MarkBlockAsReceived (h : uint256) (now : Z) (g : Globals)
    : option (bool * Globals) :=
  match mapBlocksInFlight g !! h with
  | Some (owner, it) =>
      state ← mapNodeState g !! owner;
      qb ← find_node it (vBlocksInFlight state);
      nValid ← int_checked (nBlocksInFlightValidHeaders state
                              - b2z (fValidatedHeaders qb));
      nPeers ← (if (nValid =? 0) && fValidatedHeaders qb
                then int_checked (nPeersWithValidatedDownloads g - 1)
                else Some (nPeersWithValidatedDownloads g));
      let since := if is_begin it (vBlocksInFlight state)
                   then Z.max (nDownloadingSince state) now
                   else nDownloadingSince state in
      nInFlight ← int_checked (nBlocksInFlight state - 1);
      let state' := set_inflight state (erase_node it (vBlocksInFlight state))
                                 since nInFlight nValid 0 in
      Some (true, set_download (<[owner := state']> (mapNodeState g))
                               (delete h (mapBlocksInFlight g))
                               nPeers (heap_next g) g)
  | None => Some (false, g)
  end.

(** [MarkBlockAsInFlight(nodeid, hash, consensusParams, pindex)].
    [now_recv] and [now] are the clock readings of the nested
    [MarkBlockAsReceived] and of this function. *)
Definition MarkBlockAsInFlight (nodeid : NodeId) (h : uint256)
    (pidx : CBlockIndexPtr) (now_recv now : Z) (g : Globals) : option Globals :=
  _ ← mapNodeState g !! nodeid;                       (* assert(state != NULL) *)
  r ← MarkBlockAsReceived h now_recv g;
  let g1 := r.2 in
  state ← mapNodeState g1 !! nodeid;
  let newentry := {| hash := h; pindex := pidx;
                     fValidatedHeaders := bool_decide (pidx <> None) |} in
  let it := heap_next g1 in
  nInFlight ← int_checked (nBlocksInFlight state + 1);
  nValid ← int_checked (nBlocksInFlightValidHeaders state
                          + b2z (fValidatedHeaders newentry));
  let since := if nInFlight =? 1 then now else nDownloadingSince state in
  nPeers ← (if (nValid =? 1) && bool_decide (pidx <> None)
            then int_checked (nPeersWithValidatedDownloads g1 + 1)
            else Some (nPeersWithValidatedDownloads g1));
  let state' := set_inflight state (vBlocksInFlight state ++ [(it, newentry)])
                             since nInFlight nValid (nStallingSince state) in
  Some (set_download (<[nodeid := state']> (mapNodeState g1))
                     (<[h := (nodeid, it)]> (mapBlocksInFlight g1))
                     nPeers (S it) g1).

(** ** Misbehaviour score *)

Definition set_misbehavior (st : CNodeState) (n : Z) (ban : bool) : CNodeState :=
  {| fCurrentlyConnected := fCurrentlyConnected st;
     nMisbehavior := n; fShouldBan := ban;
     fSyncStarted := fSyncStarted st; vBlocksInFlight := vBlocksInFlight st;
     nDownloadingSince := nDownloadingSince st;
     nBlocksInFlight := nBlocksInFlight st;
     nBlocksInFlightValidHeaders := nBlocksInFlightValidHeaders st;
     nStallingSince := nStallingSince st;
     fPreferredDownload := fPreferredDownload st |}.

(** [Misbehaving(pnode, howmuch, reason)].  [banscore] is the value of
    [gArgs.GetArg("-banscore", DEFAULT_BANSCORE_THRESHOLD)] as an [int].
    The two log lines print [nMisbehavior - howmuch], so the difference is
    computed on both branches. *)
Definition Misbehaving (banscore : Z) (pnode : NodeId) (howmuch : Z)
    (reason : string) (g : Globals) : option Globals :=
  if howmuch =? 0 then Some g
  else match mapNodeState g !! pnode with
       | None => Some g
       | Some state =>
           n ← int_checked (nMisbehavior state + howmuch);
           before ← int_checked (n - howmuch);
           let ban := if (banscore <=? n) && (before <? banscore)
                      then true else fShouldBan state in
           Some (set_mapNodeState
                   (<[pnode := set_misbehavior state n ban]> (mapNodeState g)) g)
       end.

(** ** Orphan pool *)

Section Orphans.
Context `{TxSerializer}.

(** [mapOrphanTransactionsByPrev[prev].insert(h)] *)
Definition byprev_insert (h : uint256) (m : gmap uint256 (gset uint256))
    (txin : CTxIn) : gmap uint256 (gset uint256) :=
  let prev := outpoint_hash (prevout txin) in
  <[prev := default ∅ (m !! prev) ∪ {[h]}]> m.

(** One round of the loop of [EraseOrphanTx]: drop [h] from the set of
    [prev], and the set itself once it is empty. *)
Definition byprev_erase (h : uint256) (m : gmap uint256 (gset uint256))
    (txin : CTxIn) : gmap uint256 (gset uint256) :=
  let prev := outpoint_hash (prevout txin) in
  match m !! prev with
  | None => m
  | Some s =>
      let s' := s ∖ {[h]} in
      if decide (s' = ∅) then delete prev m else <[prev := s']> m
  end.

Definition AddOrphanTx (t : CTransaction) (peer : NodeId) (g : Globals)
    : bool * Globals :=
  let h := GetHash t in
  match mapOrphanTransactions g !! h with
  | Some _ => (false, g)
  | None =>
      let sz := GetSerializeSize t in
      if 5000 <? sz then (false, g)
      else (true,
            set_orphans
              (<[h := {| tx := t; fromPeer := peer |}]> (mapOrphanTransactions g))
              (foldl (byprev_insert h) (mapOrphanTransactionsByPrev g) (vin t))
              g)
  end.

Definition EraseOrphanTx (h : uint256) (g : Globals) : Globals :=
  match mapOrphanTransactions g !! h with
  | None => g
  | Some o =>
      set_orphans
        (delete h (mapOrphanTransactions g))
        (foldl (byprev_erase h) (mapOrphanTransactionsByPrev g) (vin (tx o)))
        g
  end.

(** [EraseOrphansFor(peer)]: the keys are visited in map order; an entry
    is erased through the hash of its transaction.  (The counter
    [nErased] only feeds the log.) *)
Definition EraseOrphansFor (peer : NodeId) (g : Globals) : Globals :=
  foldl (fun g k =>
           match mapOrphanTransactions g !! k with
           | Some o => if bool_decide (fromPeer o = peer)
                       then EraseOrphanTx (GetHash (tx o)) g else g
           | None => g
           end)
        g (map_keys (mapOrphanTransactions g)).

(** The loop of [LimitOrphanTxSize]; [rnd i] is the value of the [i]-th
    call of [GetRandHash()], [nEvicted] an [unsigned int].  [None] when
    [fuel] rounds do not suffice. *)
Fixpoint LimitOrphanTxSize_loop (fuel : nat) (nMaxOrphans : N)
    (rnd : nat -> uint256) (i : nat) (nEvicted : Z) (g : Globals)
    : option (Z * Globals) :=
  if (nMaxOrphans <? N.of_nat (size (mapOrphanTransactions g)))%N then
    match fuel with
    | O => None
    | S fuel' =>
        let randomhash := rnd i in
        it ← match map_lower_bound randomhash (mapOrphanTransactions g) with
             | Some k => Some k
             | None => map_begin (mapOrphanTransactions g)
             end;
        LimitOrphanTxSize_loop fuel' nMaxOrphans rnd (S i)
                               ((nEvicted + 1) mod UINT_MOD)
                               (EraseOrphanTx it g)
    end
  else Some (nEvicted, g).

(** [LimitOrphanTxSize(nMaxOrphans)]: each round erases an entry, so as
    many rounds as there are entries always suffice. *)
Definition LimitOrphanTxSize (nMaxOrphans : N) (rnd : nat -> uint256)
    (g : Globals) : option (Z * Globals) :=
  LimitOrphanTxSize_loop (size (mapOrphanTransactions g)) nMaxOrphans rnd O 0 g.

End Orphans.

(** ** Connection objects and messages *)

(** The fields of [CNode] used below. *)
Record CNode : Type := mkCNode {
  id : NodeId;
  nVersion : Z;
  nLocalServices : Z;
  fInbound : bool;
  fWhitelisted : bool;
  fOneShot : bool;
  fClient : bool;
  fSuccessfullyConnected : bool;
  fDisconnect : bool;
  fPingQueued : bool;
  nPingNonceSent : Z;
  nPingUsecStart : Z;
  nPingUsecTime : Z;
  nMinPingUsecTime : Z
}.

(** What [connman.PushMessage] is given. *)
Inductive NetMsg : Type :=
  | NetVersion (nTime : Z)
  | NetReject (command : string) (code : Z) (reason : string)
  | NetPing (nonce : Z)
  | NetPong (nonce : Z).

(** Modelled from the spec: the reject codes are declared outside
    messages.cpp; the wire protocol gives 0x12 for a duplicate. *)
Definition REJECT_DUPLICATE : Z := 0x12.

(** Command-line settings and protocol constants that messages.cpp reads
    but does not define. *)
Record Env : Type := mkEnv {
  (** [-banscore] *)
  banscore : Z;
  (** [-dropmessagestest]: [Some n] when the argument is set to [n] *)
  dropmessagestest : option Z;
  (** [-enforcenodebloom] *)
  enforcenodebloom : bool;
  NODE_BLOOM : Z;
  NO_BLOOM_VERSION : Z;
  PING_INTERVAL : Z
}.

(** ** Peer registry *)

(** [InitializeNode(pnode, connman)]: [emplace_hint] constructs a state
    record for the peer and leaves an existing entry alone; an outbound
    connection starts the handshake ([PushNodeVersion], whose message is
    abridged to its time stamp). *)
Definition InitializeNode (pnode : CNode) (nTime : Z) (g : Globals)
    : Globals * list NetMsg :=
  let nodes := match mapNodeState g !! id pnode with
               | Some _ => mapNodeState g
               | None => <[id pnode := CNodeState_new]> (mapNodeState g)
               end in
  (set_mapNodeState nodes g,
   if fInbound pnode then [] else [NetVersion nTime]).

Definition set_counters (nodes : gmap NodeId CNodeState) (nSync nPref : Z)
    (g : Globals) : Globals :=
  {| mapNodeState := nodes; mapBlocksInFlight := mapBlocksInFlight g;
     mapBlockSource := mapBlockSource g; nSyncStarted := nSync;
     nPreferredDownload := nPref;
     nPeersWithValidatedDownloads := nPeersWithValidatedDownloads g;
     mapOrphanTransactions := mapOrphanTransactions g;
     mapOrphanTransactionsByPrev := mapOrphanTransactionsByPrev g;
     heap_next := heap_next g |}.

Definition set_flags (st : CNodeState) (sync pref : bool) : CNodeState :=
  {| fCurrentlyConnected := fCurrentlyConnected st;
     nMisbehavior := nMisbehavior st; fShouldBan := fShouldBan st;
     fSyncStarted := sync; vBlocksInFlight := vBlocksInFlight st;
     nDownloadingSince := nDownloadingSince st;
     nBlocksInFlight := nBlocksInFlight st;
     nBlocksInFlightValidHeaders := nBlocksInFlightValidHeaders st;
     nStallingSince := nStallingSince st;
     fPreferredDownload := pref |}.

(** [UpdatePreferredDownload(node, State(node->GetId()))] *)
Definition UpdatePreferredDownload (node : CNode) (g : Globals) : option Globals :=
  state ← mapNodeState g !! id node;
  n1 ← int_checked (nPreferredDownload g - b2z (fPreferredDownload state));
  let pref := (negb (fInbound node) || fWhitelisted node)
              && negb (fOneShot node) && negb (fClient node) in
  n2 ← int_checked (n1 + b2z pref);
  Some (set_counters
          (<[id node := set_flags state (fSyncStarted state) pref]> (mapNodeState g))
          (nSyncStarted g) n2 g).

(** The "start block sync" step of [SendMessages]: the flag and the counter
    change together.  [fetchable] tells whether the two outer tests
    ([!fClient && !fImporting && !fReindex], then the choice of a sync
    peer) pass. *)
Definition StartBlockSync (pto : CNode) (fetchable : bool) (g : Globals)
    : option Globals :=
  state ← mapNodeState g !! id pto;
  if negb (fSyncStarted state) && fetchable then
    n ← int_checked (nSyncStarted g + 1);
    Some (set_counters
            (<[id pto := set_flags state true (fPreferredDownload state)]>
               (mapNodeState g))
            n (nPreferredDownload g) g)
  else Some g.

(** [FinalizeNode(nodeid, fUpdateConnectionTime)]; the flag is returned. *)
Definition FinalizeNode `{TxSerializer} (nodeid : NodeId) (g : Globals)
    : option (bool * Globals) :=
  state ← mapNodeState g !! nodeid;
  nSync ← (if fSyncStarted state then int_checked (nSyncStarted g - 1)
           else Some (nSyncStarted g));
  let fUpdateConnectionTime :=
    (nMisbehavior state =? 0) && fCurrentlyConnected state in
  let inflight := foldl (fun m entry => delete (hash entry.2) m)
                        (mapBlocksInFlight g) (vBlocksInFlight state) in
  let source := filter (fun kv => kv.2.1 <> nodeid) (mapBlockSource g) in
  let g1 := EraseOrphansFor nodeid g in
  nPref ← int_checked (nPreferredDownload g - b2z (fPreferredDownload state));
  nPeers ← int_checked (nPeersWithValidatedDownloads g
                          - b2z (negb (nBlocksInFlightValidHeaders state =? 0)));
  if nPeers <? 0 then None       (* assert(nPeersWithValidatedDownloads >= 0) *)
  else
    let nodes := delete nodeid (mapNodeState g) in
    let g' := {| mapNodeState := nodes; mapBlocksInFlight := inflight;
                 mapBlockSource := source; nSyncStarted := nSync;
                 nPreferredDownload := nPref;
                 nPeersWithValidatedDownloads := nPeers;
                 mapOrphanTransactions := mapOrphanTransactions g1;
                 mapOrphanTransactionsByPrev := mapOrphanTransactionsByPrev g1;
                 heap_next := heap_next g |} in
    if Nat.eqb (size nodes) 0 then
      (* consistency check after the last peer is removed *)
      if Nat.eqb (size inflight) 0 && (nPref =? 0) && (nPeers =? 0)
      then Some (fUpdateConnectionTime, g')
      else None
    else Some (fUpdateConnectionTime, g').

(** ** Inbound messages *)

Definition set_ping (n : CNode) (queued : bool) (nonce start rtt minrtt : Z) : CNode :=
  {| id := id n; nVersion := nVersion n; nLocalServices := nLocalServices n;
     fInbound := fInbound n; fWhitelisted := fWhitelisted n;
     fOneShot := fOneShot n; fClient := fClient n;
     fSuccessfullyConnected := fSuccessfullyConnected n;
     fDisconnect := fDisconnect n; fPingQueued := queued;
     nPingNonceSent := nonce; nPingUsecStart := start;
     nPingUsecTime := rtt; nMinPingUsecTime := minrtt |}.

Definition set_fDisconnect (n : CNode) (d : bool) : CNode :=
  {| id := id n; nVersion := nVersion n; nLocalServices := nLocalServices n;
     fInbound := fInbound n; fWhitelisted := fWhitelisted n;
     fOneShot := fOneShot n; fClient := fClient n;
     fSuccessfullyConnected := fSuccessfullyConnected n;
     fDisconnect := d; fPingQueued := fPingQueued n;
     nPingNonceSent := nPingNonceSent n; nPingUsecStart := nPingUsecStart n;
     nPingUsecTime := nPingUsecTime n; nMinPingUsecTime := nMinPingUsecTime n |}.

(** [vRecv >> nonce] for a [uint64_t]: eight bytes, least significant
    first. *)
Fixpoint read_le (n : nat) (l : list byte) : Z :=
  match n, l with
  | S n', b :: l' => Blob.byte_val b + 256 * read_le n' l'
  | _, _ => 0
  end.

(** The PONG branch of [ProcessMessage]. *)
Definition ProcessPong (pfrom : CNode) (vRecv : list byte) (nTimeReceived : Z)
    : option CNode :=
  let pingUsecEnd := nTimeReceived in
  let nAvail := Z.of_nat (length vRecv) in
  let clear_nonce := set_ping pfrom (fPingQueued pfrom) 0 (nPingUsecStart pfrom)
                              (nPingUsecTime pfrom) (nMinPingUsecTime pfrom) in
  if 8 <=? nAvail then
    let nonce := read_le 8 vRecv in
    if negb (nPingNonceSent pfrom =? 0) then
      if nonce =? nPingNonceSent pfrom then
        (* matching pong: this ping is no longer outstanding *)
        pingUsecTime ← int64_checked (pingUsecEnd - nPingUsecStart pfrom);
        if 0 <? pingUsecTime
        then Some (set_ping pfrom (fPingQueued pfrom) 0 (nPingUsecStart pfrom)
                            pingUsecTime
                            (Z.min (nMinPingUsecTime pfrom) pingUsecTime))
        else Some clear_nonce                              (* timing mishap *)
      else if nonce =? 0
           then Some clear_nonce           (* nonce zero: cancel this ping *)
           else Some pfrom                              (* nonce mismatch *)
    else Some pfrom                        (* unsolicited pong without ping *)
  else Some clear_nonce                   (* short payload: cancel the ping *)
  .

(** The outcome of a handler: its return value, the connection object,
    the global tables and the messages pushed, oldest first. *)
Definition Outcome : Type := bool * CNode * Globals * list NetMsg.

Section Dispatch.
(** The parts of [ProcessMessage] and [SendMessages] that are not
    modelled: the field processing of a first VERSION message, the
    handlers of the remaining commands, and the body of the tick once
    [cs_main] is held. *)
Variable ProcessVersionFields : CNode -> list byte -> Globals -> option Outcome.
Variable ProcessOtherCommand :
  CNode -> string -> list byte -> Z -> Globals -> option Outcome.
Variable SendMessagesLocked : CNode -> Globals -> list NetMsg -> option Outcome.

Definition is_filter_command (strCommand : string) : bool :=
  bool_decide (strCommand = "filterload"%string)
  || bool_decide (strCommand = "filteradd"%string)
  || bool_decide (strCommand = "filterclear"%string).

(** [ProcessMessage].  [drop_draw] is the value of
    [GetRand(atoi(GetArg("-dropmessagestest", "0")))], drawn only when
    the argument is set. *)
Definition ProcessMessage (env : Env) (pfrom : CNode) (strCommand : string)
    (vRecv : list byte) (nTimeReceived : Z) (drop_draw : Z) (g : Globals)
    : option Outcome :=
  if bool_decide (is_Some (dropmessagestest env)) && (drop_draw =? 0)
  then Some (true, pfrom, g, [])
  else if (Z.land (nLocalServices pfrom) (NODE_BLOOM env) =? 0)
          && is_filter_command strCommand
          && (NO_BLOOM_VERSION env <=? nVersion pfrom)
  then g' ← Misbehaving (banscore env) (id pfrom) 100 "no-bloom-version" g;
       Some (false, pfrom, g', [])
  else if (Z.land (nLocalServices pfrom) (NODE_BLOOM env) =? 0)
          && is_filter_command strCommand
          && enforcenodebloom env
  then Some (false, set_fDisconnect pfrom true, g, [])
  else if bool_decide (strCommand = "version"%string) then
    if negb (nVersion pfrom =? 0) then
      (* each connection can only send one version message *)
      g' ← Misbehaving (banscore env) (id pfrom) 1 "multiple-version" g;
      Some (false, pfrom, g',
            [NetReject strCommand REJECT_DUPLICATE "Duplicate version message"])
    else ProcessVersionFields pfrom vRecv g
  else if nVersion pfrom =? 0 then
    (* must have a version message before anything else *)
    g' ← Misbehaving (banscore env) (id pfrom) 1 "missing-version" g;
    Some (false, pfrom, g', [])
  else if bool_decide (strCommand = "pong"%string) then
    pfrom' ← ProcessPong pfrom vRecv nTimeReceived;
    Some (true, pfrom', g, [])
  else ProcessOtherCommand pfrom strCommand vRecv nTimeReceived g.

(** ** Outbound tick *)

(** [while (nonce == 0) GetRandBytes(&nonce)]: the first non-zero draw. *)
Fixpoint draw_nonce (fuel : nat) (rand : nat -> Z) (i : nat) : option Z :=
  match fuel with
  | O => None
  | S fuel' =>
      let nonce := rand i mod UINT64_MOD in
      if nonce =? 0 then draw_nonce fuel' rand (S i) else Some nonce
  end.

(** [SendMessages(pto, connman, interruptMsgProc)].  [now1] and [now2]
    are the two clock readings of the ping block, [rand] the successive
    results of [GetRandBytes], [lockMain] whether [TRY_LOCK(cs_main)]
    succeeds. *)
Definition SendMessages (env : Env) (pto : CNode) (now1 now2 : Z)
    (fuel : nat) (rand : nat -> Z) (lockMain : bool) (g : Globals)
    : option Outcome :=
  (* don't send anything until the version handshake is complete *)
  if negb (fSuccessfullyConnected pto) || fDisconnect pto
  then Some (true, pto, g, [])
  else
    due ← (if nPingNonceSent pto =? 0
           then limit ← int_checked (PING_INTERVAL env * 1000000);
                deadline ← int64_checked (nPingUsecStart pto + limit);
                Some (deadline <? now1)
           else Some false);
    let pingSend := fPingQueued pto || due in
    r ← (if pingSend
         then nonce ← draw_nonce fuel rand O;
              Some (set_ping pto false nonce now2 (nPingUsecTime pto)
                             (nMinPingUsecTime pto),
                    [NetPing nonce])
         else Some (pto, []));
    if negb lockMain then Some (true, r.1, g, r.2)
    else SendMessagesLocked r.1 g r.2.

End Dispatch.

(** ** Inventory: have we seen this already? *)

Inductive InvType : Type :=
  | MSG_TX | MSG_BLOCK | MSG_FILTERED_BLOCK | MSG_STX | MSG_UNKNOWN (n : Z).

Record CInv : Type := mkCInv {
  inv_type : InvType;
  inv_hash : uint256
}.

(** The operations of [CRollingBloomFilter] that [AlreadyHave] uses. *)
Class RollingBloom (F : Type) : Type := {
  bloom_contains : F -> uint256 -> bool;
  bloom_reset : F -> F
}.

(** What the chain manager, the mempools and the coin cache answer. *)
Record ChainView : Type := mkChainView {
  tip_hash : uint256;                       (* chainActive.Tip()->GetBlockHash() *)
  mempool_exists : uint256 -> bool;
  HaveCoinInCache : COutPoint -> bool;
  mapBlockIndex_count : uint256 -> bool;
  stxmempool_exists : uint256 -> bool
}.

Record RejectsState (F : Type) : Type := mkRejectsState {
  recentRejects : option F;                 (* the unique_ptr; None is null *)
  hashRecentRejectsChainTip : uint256
}.
Arguments mkRejectsState {F}.
Arguments recentRejects {F}.
Arguments hashRecentRejectsChainTip {F}.

(** The filter and the tip hash after the test at the head of the MSG_TX
    case. *)
Definition refresh_rejects `{RollingBloom F} (view : ChainView)
    (filter : F) (stored : uint256) : RejectsState F :=
  if Blob.operator_ne (tip_hash view) stored
  then {| recentRejects := Some (bloom_reset filter);
          hashRecentRejectsChainTip := tip_hash view |}
  else {| recentRejects := Some filter; hashRecentRejectsChainTip := stored |}.

(** [AlreadyHave(inv)] *)
Definition AlreadyHave `{RollingBloom F} (inv : CInv) (view : ChainView)
    (g : Globals) (r : RejectsState F) : option (bool * RejectsState F) :=
  match inv_type inv with
  | MSG_TX =>
      filter ← recentRejects r;                       (* assert(recentRejects) *)
      let r' := refresh_rejects view filter (hashRecentRejectsChainTip r) in
      filter' ← recentRejects r';
      Some (bloom_contains filter' (inv_hash inv)
            || mempool_exists view (inv_hash inv)
            || bool_decide (is_Some (mapOrphanTransactions g !! inv_hash inv))
            || HaveCoinInCache view (mkCOutPoint (inv_hash inv) 0)
            || HaveCoinInCache view (mkCOutPoint (inv_hash inv) 1),
            r')
  | MSG_BLOCK => Some (mapBlockIndex_count view (inv_hash inv), r)
  | MSG_STX => Some (stxmempool_exists view (inv_hash inv), r)
  | _ => Some (true, r)           (* don't know what it is: say we have it *)
  end.

(** ** Orphans and the chain *)

(** The elements of a [std::set<uint256>] in the order [begin() .. end()]
    visits them. *)
Definition set_in_order (s : gset uint256) : list uint256 :=
  merge_sort uint256_le (elements s).

Section OrphanCallers.
Context `{TxSerializer}.

(** The hashes [BlockConnected] collects in [vOrphanErase]: for every
    input of every transaction of the block, the orphans recorded as
    spending from the same previous transaction. *)
Definition BlockConnected_collect (vtx : list CTransaction) (g : Globals)
    : list uint256 :=
  t ← vtx;
  txin ← vin t;
  match mapOrphanTransactionsByPrev g !! outpoint_hash (prevout txin) with
  | None => []
  | Some s => set_in_order s
  end.

(** [PeerLogicValidation::BlockConnected(pblock, pindex, vtxConflicted)];
    [vtx] is [pblock->vtx].  The list is built first and erased after. *)
Definition BlockConnected (vtx : list CTransaction) (g : Globals) : Globals :=
  foldl (fun g orphanId => EraseOrphanTx orphanId g) g
        (BlockConnected_collect vtx g).

(** The "missing inputs" branch of the TX handler once the parents have
    been asked for: the transaction is stored as an orphan and the pool is
    cut back to [nMaxOrphanTx = (unsigned int)max(0, -maxorphantx)]. *)
Definition StoreOrphanTx (t : CTransaction) (peer : NodeId) (maxorphantx : Z)
    (rnd : nat -> uint256) (g : Globals) : option (Z * Globals) :=
  let g1 := (AddOrphanTx t peer g).2 in
  let nMaxOrphanTx := Z.to_N (Z.max 0 maxorphantx mod UINT_MOD) in
  LimitOrphanTxSize nMaxOrphanTx rnd g1.

End OrphanCallers.

(** ** The block index *)

(** The fields of [CBlockIndex] that messages.cpp reads.  The objects live
    in a heap addressed by the pointers of [CBlockIndexPtr]; [nChainWork]
    is an unsigned 256-bit number that is only compared. *)
Record CBlockIndex : Type := mkCBlockIndex {
  phashBlock : uint256;
  pprev : CBlockIndexPtr;
  nHeight : Z;
  nChainWork : N
}.

Definition BlockHeap : Type := gmap nat CBlockIndex.

(** [*p]; a null or dangling pointer has no value. *)
Definition deref (heap : BlockHeap) (p : CBlockIndexPtr) : option CBlockIndex :=
  a ← p; heap !! a.

Section BlockIndex.
Variable heap : BlockHeap.
(** [pindex->GetAncestor(height)], which chain.cpp defines; the first
    argument is the address of the object the method is called on. *)
Variable GetAncestor : nat -> Z -> CBlockIndexPtr.

(** [while (pa != pb && pa && pb) { pa = pa->pprev; pb = pb->pprev; }]
    followed by [assert(pa == pb); return pa;].  [None] when [fuel] rounds
    do not suffice or the assertion fails. *)
Fixpoint LastCommonAncestor_loop (fuel : nat) (pa pb : CBlockIndexPtr)
    : option CBlockIndexPtr :=
  if bool_decide (pa <> pb) && bool_decide (pa <> None) && bool_decide (pb <> None)
  then
    match fuel with
    | O => None
    | S fuel' =>
        ia ← deref heap pa;
        ib ← deref heap pb;
        LastCommonAncestor_loop fuel' (pprev ia) (pprev ib)
    end
  else if bool_decide (pa = pb) then Some pa else None.

(** [LastCommonAncestor(pa, pb)]; both pointers are dereferenced at once. *)
Definition LastCommonAncestor (fuel : nat) (pa pb : CBlockIndexPtr)
    : option CBlockIndexPtr :=
  a ← pa; ia ← heap !! a;
  b ← pb; ib ← heap !! b;
  if nHeight ib <? nHeight ia then
    LastCommonAncestor_loop fuel (GetAncestor a (nHeight ib)) (Some b)
  else if nHeight ia <? nHeight ib then
    LastCommonAncestor_loop fuel (Some a) (GetAncestor b (nHeight ia))
  else LastCommonAncestor_loop fuel (Some a) (Some b).

End BlockIndex.

(** ** Which blocks a peer has *)

(** The two fields of [CNodeState] that record which blocks the peer is
    assumed to have.  The download bookkeeping above never reads them, and
    the functions below read nothing else, so they are kept in a registry
    of their own, with the same keys. *)
Record CNodeAvail : Type := mkCNodeAvail {
  pindexBestKnownBlock : CBlockIndexPtr;
  hashLastUnknownBlock : uint256
}.

Section BlockAvailability.
(** [mapBlockIndex] of the chain manager and the objects it points to. *)
Variable mapBlockIndex : gmap uint256 nat.
Variable heap : BlockHeap.

(** The assignment both functions share: [pindex] becomes the best known
    block unless the current one has strictly more work. *)
Definition better_known (best : CBlockIndexPtr) (p : nat) (ip : CBlockIndex)
    : option CBlockIndexPtr :=
  match best with
  | None => Some (Some p)
  | Some q =>
      iq ← heap !! q;
      Some (if (nChainWork iq <=? nChainWork ip)%N then Some p else Some q)
  end.

(** [ProcessBlockAvailability(nodeid)] *)
Definition ProcessBlockAvailability (nodeid : NodeId)
    (nodes : gmap NodeId CNodeAvail) : option (gmap NodeId CNodeAvail) :=
  state ← nodes !! nodeid;                            (* assert(state != NULL) *)
  if negb (Blob.IsNull (hashLastUnknownBlock state)) then
    match mapBlockIndex !! hashLastUnknownBlock state with
    | Some p =>
        ip ← heap !! p;
        if (0 <? nChainWork ip)%N then
          best ← better_known (pindexBestKnownBlock state) p ip;
          Some (<[nodeid := {| pindexBestKnownBlock := best;
                               hashLastUnknownBlock := Blob.SetNull 256 |}]> nodes)
        else Some nodes
    | None => Some nodes
    end
  else Some nodes.

(** [UpdateBlockAvailability(nodeid, hash)] *)
Definition UpdateBlockAvailability (nodeid : NodeId) (h : uint256)
    (nodes : gmap NodeId CNodeAvail) : option (gmap NodeId CNodeAvail) :=
  _ ← nodes !! nodeid;                                (* assert(state != NULL) *)
  nodes1 ← ProcessBlockAvailability nodeid nodes;
  state ← nodes1 !! nodeid;
  let unknown :=
    Some (<[nodeid := {| pindexBestKnownBlock := pindexBestKnownBlock state;
                         hashLastUnknownBlock := h |}]> nodes1) in
  match mapBlockIndex !! h with
  | Some p =>
      ip ← heap !! p;
      if (0 <? nChainWork ip)%N then
        (* an actually better block was announced *)
        best ← better_known (pindexBestKnownBlock state) p ip;
        Some (<[nodeid := {| pindexBestKnownBlock := best;
                             hashLastUnknownBlock := hashLastUnknownBlock state |}]>
                nodes1)
      else unknown
  | None => unknown       (* an unknown block was announced *)
  end.

End BlockAvailability.

(** ** Rejected blocks and bans *)

(** [CBlockReject] *)
Record CBlockReject : Type := mkCBlockReject {
  chRejectCode : Z;
  strRejectReason : string;
  hashBlock : uint256
}.


(** ** A block has been checked *)

(** What [BlockChecked] reads of the [CValidationState]: the result of
    [IsInvalid(nDoS)] ([Some nDoS] when it holds), the reject code (an
    [unsigned int]) and the reason. *)
Record CValidationState : Type := mkCValidationState {
  IsInvalid : option Z;
  GetRejectCode : Z;
  GetRejectReason : string
}.

Definition set_mapBlockSource (m : gmap uint256 (NodeId * bool)) (g : Globals)
    : Globals :=
  {| mapNodeState := mapNodeState g; mapBlocksInFlight := mapBlocksInFlight g;
     mapBlockSource := m; nSyncStarted := nSyncStarted g;
     nPreferredDownload := nPreferredDownload g;
     nPeersWithValidatedDownloads := nPeersWithValidatedDownloads g;
     mapOrphanTransactions := mapOrphanTransactions g;
     mapOrphanTransactionsByPrev := mapOrphanTransactionsByPrev g;
     heap_next := heap_next g |}.

(** [PeerLogicValidation::BlockChecked(block, state)]; [h] is
    [block.GetHash()].  [REJECT_INTERNAL] and [MAX_REJECT_MESSAGE_LENGTH]
    are constants of other files.  The reject record that is appended to
    the [rejects] queue of the source peer is returned with that peer. *)
Definition BlockChecked (banscore REJECT_INTERNAL : Z)
    (MAX_REJECT_MESSAGE_LENGTH : nat) (h : uint256) (state : CValidationState)
    (g : Globals) : option (Globals * option (NodeId * CBlockReject)) :=
  let it := mapBlockSource g !! h in
  r ← match IsInvalid state, it with
      | Some nDoS, Some (source, punish) =>
          (* don't send reject message with code 0 or an internal reject code *)
          if bool_decide (is_Some (mapNodeState g !! source))
             && (0 <? GetRejectCode state)
             && (GetRejectCode state <? REJECT_INTERNAL)
          then
            let reject :=
              {| chRejectCode := GetRejectCode state mod 256;
                 strRejectReason :=
                   String.substring 0 MAX_REJECT_MESSAGE_LENGTH
                                    (GetRejectReason state);
                 hashBlock := h |} in
            g' ← (if (0 <? nDoS) && punish
                  then Misbehaving banscore source nDoS (GetRejectReason state) g
                  else Some g);
            Some (g', Some (source, reject))
          else Some (g, None)
      | _, _ => Some (g, None)
      end;
  Some (set_mapBlockSource (delete h (mapBlockSource r.1)) r.1, r.2).

(** ** Address relay *)

(** One entry of the array [best]: a hash key and the node it belongs to. *)
Definition RelayBest : Type := (Z * option CNode)%type.

Section Relay.
(** [CSipHasher(hasher).Write(pnode->id).Finalize()], a [uint64_t]. *)
Variable hashKey : NodeId -> Z.

(** The lambda [sortfunc]: the first entry the key beats is taken, and the
    entries from there on move down one place as far as there is room. *)
Definition RelayAddress_sortfunc (nRelayNodes : nat)
    (best : RelayBest * RelayBest) (pnode : CNode) : RelayBest * RelayBest :=
  let key := hashKey (id pnode) in
  if (0 <? nRelayNodes)%nat && (best.1.1 <? key) then
    ((key, Some pnode), if (1 <? nRelayNodes)%nat then best.1 else best.2)
  else if (1 <? nRelayNodes)%nat && (best.2.1 <? key) then
    (best.1, (key, Some pnode))
  else best.

(** The lambda [pushfunc]: the nodes [PushAddress] is called on, in order. *)
Definition RelayAddress_pushfunc (nRelayNodes : nat)
    (best : RelayBest * RelayBest) : option (list CNode) :=
  if (0 <? nRelayNodes)%nat && negb (best.1.1 =? 0) then
    n0 ← best.1.2;
    if (1 <? nRelayNodes)%nat && negb (best.2.1 =? 0) then
      n1 ← best.2.2;
      Some [n0; n1]
    else Some [n0]
  else Some [].

(** [RelayAddress(addr, fReachable, connman)]; [nodes] are the nodes
    [connman.ForEachNodeThen] visits, in its order. *)
Definition RelayAddress (fReachable : bool) (nodes : list CNode)
    : option (list CNode) :=
  let nRelayNodes := if fReachable then 2%nat else 1%nat in
  let best := foldl (RelayAddress_sortfunc nRelayNodes)
                    ((0, None), (0, None)) nodes in
  RelayAddress_pushfunc nRelayNodes best.

End Relay.

(** * Specification vocabulary *)

(** ** Counting the peers that satisfy a test *)

Definition count_peers (P : CNodeState -> bool) (m : gmap NodeId CNodeState) : Z :=
  Z.of_nat (size (filter (fun kv => P kv.2 = true) m)).

(** ** The counter of peers with validated downloads *)

Definition has_validated (st : CNodeState) : bool :=
  0 <? nBlocksInFlightValidHeaders st.

(** [nPeersWithValidatedDownloads] is the number of peers whose count of
    in-flight blocks with validated headers is positive. *)
Definition validated_counter_ok (g : Globals) : Prop :=
  nPeersWithValidatedDownloads g = count_peers has_validated (mapNodeState g).

(** ** Well-formed tables *)

Definition count_validated (l : list (list_iter * QueuedBlock)) : Z :=
  Z.of_nat (length (filter (fun e => fValidatedHeaders e.2 = true) l)).

Record peer_wf (next : list_iter) (st : CNodeState) : Prop := {
  wf_nInFlight : nBlocksInFlight st = Z.of_nat (length (vBlocksInFlight st));
  wf_nInFlight_max : nBlocksInFlight st <= INT_MAX;
  wf_nValid : nBlocksInFlightValidHeaders st = count_validated (vBlocksInFlight st);
  wf_nodup : NoDup (vBlocksInFlight st).*1;
  wf_fresh : forall it, it ∈ (vBlocksInFlight st).*1 -> (it < next)%nat
}.

Record globals_wf (g : Globals) : Prop := {
  wf_peers : forall p st, mapNodeState g !! p = Some st -> peer_wf (heap_next g) st;
  wf_index : forall h p it,
      mapBlocksInFlight g !! h = Some (p, it) ->
      exists st qb, mapNodeState g !! p = Some st
                    /\ (it, qb) ∈ vBlocksInFlight st /\ hash qb = h;
  wf_sync : nSyncStarted g = count_peers fSyncStarted (mapNodeState g);
  wf_pref : nPreferredDownload g = count_peers fPreferredDownload (mapNodeState g);
  wf_validated : validated_counter_ok g;
  wf_sync_max : nSyncStarted g <= INT_MAX;
  wf_pref_max : nPreferredDownload g <= INT_MAX;
  wf_validated_max : nPeersWithValidatedDownloads g <= INT_MAX
}.

(** The part of the tables the well-formedness conditions speak about. *)
Definition download_part (g : Globals) :=
  (mapNodeState g, mapBlocksInFlight g, nSyncStarted g, nPreferredDownload g,
   nPeersWithValidatedDownloads g, heap_next g).

(** Two peer states that agree on the fields the counters are derived
    from. *)
Definition same_download_fields (st st' : CNodeState) : Prop :=
  fSyncStarted st' = fSyncStarted st
  /\ vBlocksInFlight st' = vBlocksInFlight st
  /\ nBlocksInFlight st' = nBlocksInFlight st
  /\ nBlocksInFlightValidHeaders st' = nBlocksInFlightValidHeaders st
  /\ fPreferredDownload st' = fPreferredDownload st.

(** ** Reachable tables *)

Section Transitions.
Context `{TxSerializer}.

(** One call of a function of messages.cpp that writes the global
    tables.  The last rule covers the remaining code of the file: it
    writes peer fields from which no counter is derived, the block-source
    map and the orphan pool. *)
Inductive step : Globals -> Globals -> Prop :=
  | step_InitializeNode g pnode nTime :
      step g (InitializeNode pnode nTime g).1
  | step_FinalizeNode g nodeid b g' :
      FinalizeNode nodeid g = Some (b, g') -> step g g'
  | step_Misbehaving g bs pnode howmuch reason g' :
      Misbehaving bs pnode howmuch reason g = Some g' -> step g g'
  | step_MarkBlockAsReceived g h now b g' :
      MarkBlockAsReceived h now g = Some (b, g') -> step g g'
  | step_MarkBlockAsInFlight g nodeid h pidx now_recv now g' :
      MarkBlockAsInFlight nodeid h pidx now_recv now g = Some g' -> step g g'
  | step_UpdatePreferredDownload g node g' :
      UpdatePreferredDownload node g = Some g' -> step g g'
  | step_StartBlockSync g pto fetchable g' :
      StartBlockSync pto fetchable g = Some g' -> step g g'
  | step_AddOrphanTx g t peer :
      step g (AddOrphanTx t peer g).2
  | step_EraseOrphanTx g h :
      step g (EraseOrphanTx h g)
  | step_LimitOrphanTxSize g cap rnd n g' :
      LimitOrphanTxSize cap rnd g = Some (n, g') -> step g g'
  | step_other_fields g p st st' g' :
      mapNodeState g !! p = Some st ->
      same_download_fields st st' ->
      download_part g'
      = (<[p := st']> (mapNodeState g), mapBlocksInFlight g, nSyncStarted g,
         nPreferredDownload g, nPeersWithValidatedDownloads g, heap_next g) ->
      step g g'.

Inductive reachable : Globals -> Prop :=
  | reachable_init : reachable Globals_init
  | reachable_step g g' : reachable g -> step g g' -> reachable g'.

End Transitions.

(** ** The orphan pool and its reverse index *)

(** The hashes the inputs of a transaction refer to. *)
Definition prev_hashes (t : CTransaction) : list uint256 :=
  (fun txin => outpoint_hash (prevout txin)) <$> vin t.

(** The reverse-index set of a hash; no entry means the empty set. *)
Definition spenders (mp : gmap uint256 (gset uint256)) (prev : uint256)
    : gset uint256 :=
  default ∅ (mp !! prev).

(** What an eviction may have done to the pool [g] when it ends in [g']:
    entries only disappear, reverse-index sets only shrink, and an entry
    that disappeared is in none of the sets of its inputs. *)
Definition evicted_from (g g' : Globals) : Prop :=
  mapOrphanTransactions g' ⊆ mapOrphanTransactions g
  /\ (forall prev, spenders (mapOrphanTransactionsByPrev g') prev
                   ⊆ spenders (mapOrphanTransactionsByPrev g) prev)
  /\ (forall h o,
         mapOrphanTransactions g !! h = Some o ->
         mapOrphanTransactions g' !! h = None ->
         forall prev, prev ∈ prev_hashes (tx o) ->
                      h ∉ spenders (mapOrphanTransactionsByPrev g') prev).

(** ** A consistent orphan pool *)

(** Every orphan is stored under the hash of its transaction, the reverse
    index holds exactly the pairs (previous hash of an input, hash of the
    orphan), and no empty set is kept in it. *)
Definition orphan_pool_wf `{TxSerializer} (g : Globals) : Prop :=
  (forall h o, mapOrphanTransactions g !! h = Some o -> GetHash (tx o) = h)
  /\ (forall prev h,
         h ∈ spenders (mapOrphanTransactionsByPrev g) prev
         <-> exists o, mapOrphanTransactions g !! h = Some o
                       /\ prev ∈ prev_hashes (tx o))
  /\ (forall prev s, mapOrphanTransactionsByPrev g !! prev = Some s -> s <> ∅).

(** ** The in-flight index and the peers' queues *)

(** Every queued block of every registered peer is indexed under its hash,
    with that peer and that list position. *)
Definition index_complete (g : Globals) : Prop :=
  forall p st it qb,
    mapNodeState g !! p = Some st ->
    (it, qb) ∈ vBlocksInFlight st ->
    mapBlocksInFlight g !! hash qb = Some (p, it).

(** The "validated header" bit of a queued block says whether its header
    pointer is set. *)
Definition validated_bits (g : Globals) : Prop :=
  forall p st it qb,
    mapNodeState g !! p = Some st ->
    (it, qb) ∈ vBlocksInFlight st ->
    fValidatedHeaders qb = bool_decide (pindex qb <> None).

(** The sum of a per-peer quantity over the registry. *)
Definition sum_peers (f : CNodeState -> Z) (m : gmap NodeId CNodeState) : Z :=
  map_fold (fun _ st acc => f st + acc) 0 m.

Record inflight_wf (g : Globals) : Prop := {
  wf_complete : index_complete g;
  wf_bits : validated_bits g;
  wf_total : sum_peers nBlocksInFlight (mapNodeState g)
             = Z.of_nat (size (mapBlocksInFlight g))
}.

(** No empty set is kept in the reverse index. *)
Definition no_empty_sets (mp : gmap uint256 (gset uint256)) : Prop :=
  forall prev s, mp !! prev = Some s -> s <> ∅.

(** A write that touches neither the index nor any queue. *)
Definition queues_untouched (g g' : Globals) : Prop :=
  mapBlocksInFlight g' = mapBlocksInFlight g
  /\ (mapNodeState g' = mapNodeState g
      \/ exists p st st',
           mapNodeState g !! p = Some st
           /\ vBlocksInFlight st' = vBlocksInFlight st
           /\ nBlocksInFlight st' = nBlocksInFlight st
           /\ mapNodeState g' = <[p := st']> (mapNodeState g)).

(** The peer has a queued block whose block index entry is known. *)
Definition has_known_block (st : CNodeState) : bool :=
  existsb (fun e => bool_decide (pindex e.2 <> None)) (vBlocksInFlight st).

(** ** Ancestors in the block index *)

(** [b] is the block [a->pprev] points to. *)
Definition parent (heap : BlockHeap) (a b : nat) : Prop :=
  exists ia, heap !! a = Some ia /\ pprev ia = Some b.

(** [c] is reached from [a] by following [pprev] zero or more times. *)
Definition ancestor (heap : BlockHeap) : relation nat := rtc (parent heap).

(** A block index as the chain manager builds it: heights are not
    negative, [pprev] points to a block one lower, and only a block of
    height zero has none. *)
Record heap_wf (heap : BlockHeap) : Prop := {
  wf_height : forall a ia, heap !! a = Some ia -> 0 <= nHeight ia;
  wf_pprev : forall a ia b,
      heap !! a = Some ia -> pprev ia = Some b ->
      exists ib, heap !! b = Some ib /\ nHeight ib = nHeight ia - 1;
  wf_genesis : forall a ia,
      heap !! a = Some ia -> pprev ia = None -> nHeight ia = 0
}.

(** What messages.cpp relies on of [GetAncestor]: for a height between
    zero and the block's own it returns the ancestor of that height. *)
Definition GetAncestor_ok (heap : BlockHeap)
    (GetAncestor : nat -> Z -> CBlockIndexPtr) : Prop :=
  forall a ia h,
    heap !! a = Some ia -> 0 <= h <= nHeight ia ->
    exists q iq, GetAncestor a h = Some q /\ ancestor heap a q
                 /\ heap !! q = Some iq /\ nHeight iq = h.

(** The chain work behind a pointer; a null pointer stands for none. *)
Definition known_work (heap : BlockHeap) (p : CBlockIndexPtr) : N :=
  match deref heap p with
  | Some ip => nChainWork ip
  | None => 0%N
  end.

(** What a step of the availability tracking may do to the registry: the
    peer stays registered, the work of its best known block does not go
    down, and no other peer is touched. *)
Definition availability_grows (heap : BlockHeap) (nodeid : NodeId)
    (nodes nodes' : gmap NodeId CNodeAvail) : Prop :=
  exists st st',
    nodes !! nodeid = Some st /\ nodes' !! nodeid = Some st'
    /\ (known_work heap (pindexBestKnownBlock st)
        <= known_work heap (pindexBestKnownBlock st'))%N
    /\ forall q, q <> nodeid -> nodes' !! q = nodes !! q.

(** ** Address relay *)

(** The nodes whose hash key is not zero: only they can be chosen. *)
Definition relay_candidates (hashKey : NodeId -> Z) (nodes : list CNode)
    : list CNode :=
  filter (fun n => 0 < hashKey (id n)) nodes.

(** What the array [best] holds once the nodes of [l] have been seen:
    the highest key with its node, and, when two nodes are wanted, the
    highest key among the remaining nodes. *)
Definition relay_best_ok (hashKey : NodeId -> Z) (two : bool) (l : list CNode)
    (best : RelayBest * RelayBest) : Prop :=
  0 <= best.2.1 <= best.1.1
  /\ (0 < best.1.1 ->
      exists n0, best.1.2 = Some n0 /\ n0 ∈ l /\ hashKey (id n0) = best.1.1)
  /\ (0 < best.2.1 ->
      exists n1, best.2.2 = Some n1 /\ n1 ∈ l /\ hashKey (id n1) = best.2.1)
  /\ (forall n, n ∈ l -> hashKey (id n) <= best.1.1)
  /\ (0 < best.1.1 <-> (1 <= length (relay_candidates hashKey l))%nat)
  /\ (if two
      then (forall n, n ∈ l -> best.1.2 <> Some n -> hashKey (id n) <= best.2.1)
           /\ (0 < best.2.1 <-> (2 <= length (relay_candidates hashKey l))%nat)
      else best.2.1 = 0).

(** ** Data of the worked examples *)

Definition ex_hash_of (b : byte) : uint256 := replicate 32 b.

(** A stand-in for the transaction hash and size: the first 32 bytes of
    the body, and 10 bytes of header plus 41 per input plus the body. *)
#[local] Instance ex_serializer : TxSerializer := {|
  GetHash t := take 32 (tx_body t ++ replicate 32 x00);
  GetSerializeSize t :=
    10 + 41 * Z.of_nat (length (vin t)) + Z.of_nat (length (tx_body t))
|}.

(** An exact set used as a (never wrong) rejects filter. *)
#[local] Instance ex_exact_filter : RollingBloom (list uint256) := {|
  bloom_contains l h := bool_decide (h ∈ l);
  bloom_reset _ := []
|}.

Definition ex_env : Env :=
  {| banscore := 100; dropmessagestest := None; enforcenodebloom := false;
     NODE_BLOOM := 4; NO_BLOOM_VERSION := 70011; PING_INTERVAL := 120 |}.

Definition ex_peer (i : NodeId) (version : Z) (connected : bool) (nonce : Z) : CNode :=
  {| id := i; nVersion := version; nLocalServices := 1; fInbound := true;
     fWhitelisted := false; fOneShot := false; fClient := false;
     fSuccessfullyConnected := connected; fDisconnect := false;
     fPingQueued := false; nPingNonceSent := nonce; nPingUsecStart := 1000;
     nPingUsecTime := 0; nMinPingUsecTime := 5000 |}.

(** Peers 7 and 8 have connected. *)
Definition ex_two_peers : Globals :=
  (InitializeNode (ex_peer 8 0 false 0) 0
     (InitializeNode (ex_peer 7 0 false 0) 0 Globals_init).1).1.

(** Peer 7 has been asked for block [aa..], whose header is validated. *)
Definition ex_one_in_flight : Globals :=
  default ex_two_peers
    (MarkBlockAsInFlight 7 (ex_hash_of "a") (Some 1%nat) 10 10 ex_two_peers).

(** Peer 7 alone, with one block in flight. *)
Definition ex_last_peer : Globals :=
  default ex_one_in_flight (snd <$> FinalizeNode 8 ex_one_in_flight).

(** The block [aa..] has arrived. *)
Definition ex_block_received : Globals :=
  default ex_one_in_flight
    (snd <$> MarkBlockAsReceived (ex_hash_of "a") 20 ex_one_in_flight).

(** Peer 7 one point below the ban threshold. *)
Definition ex_almost_banned : Globals :=
  default ex_two_peers (Misbehaving 100 7 99 "invalid" ex_two_peers).

Definition ex_no_version_fields (_ : CNode) (_ : list byte) (_ : Globals)
    : option Outcome := None.
Definition ex_no_other_command (_ : CNode) (_ : string) (_ : list byte) (_ : Z)
    (_ : Globals) : option Outcome := None.
Definition ex_no_locked_tick (_ : CNode) (_ : Globals) (_ : list NetMsg)
    : option Outcome := None.

Definition ex_spend (prev : byte) (body : byte) : CTransaction :=
  {| vin := [mkCTxIn (mkCOutPoint (ex_hash_of prev) 0)];
     tx_body := replicate 40 body |}.

(** Three orphans from peer 7, two of them spending the same parent. *)
Definition ex_three_orphans : Globals :=
  (AddOrphanTx (ex_spend "p" "c") 7
     (AddOrphanTx (ex_spend "p" "b") 7
        (AddOrphanTx (ex_spend "q" "a") 7 ex_two_peers).2).2).2.

Definition ex_pong_payload (nonce0 : byte) : list byte :=
  nonce0 :: replicate 7 x00.


(** A [GetAncestor] that follows [pprev] one block at a time. *)
Fixpoint ex_walk (heap : BlockHeap) (fuel : nat) (a : nat) (h : Z)
    : CBlockIndexPtr :=
  match heap !! a with
  | None => None
  | Some ia =>
      if nHeight ia =? h then Some a
      else match fuel, pprev ia with
           | S fuel', Some b => ex_walk heap fuel' b h
           | _, _ => None
           end
  end.

Definition ex_GetAncestor (heap : BlockHeap) (a : nat) (h : Z) : CBlockIndexPtr :=
  match heap !! a with
  | Some ia => ex_walk heap (Z.to_nat (nHeight ia)) a h
  | None => None
  end.

Definition ex_block (name : byte) (prev : CBlockIndexPtr) (height : Z) (work : N)
    : CBlockIndex :=
  {| phashBlock := ex_hash_of name; pprev := prev; nHeight := height;
     nChainWork := work |}.

(** A chain 0 - 1 - 2 - 3 and a branch 1 - 4 - 5 that forks off it. *)
Definition ex_blocks : list (nat * CBlockIndex) :=
  [(0%nat, ex_block "g" None 0 1);
   (1%nat, ex_block "h" (Some 0%nat) 1 2);
   (2%nat, ex_block "i" (Some 1%nat) 2 3);
   (3%nat, ex_block "j" (Some 2%nat) 3 4);
   (4%nat, ex_block "k" (Some 1%nat) 2 3);
   (5%nat, ex_block "l" (Some 4%nat) 3 5)].

Definition ex_heap : BlockHeap := list_to_map ex_blocks.

(** The block index by hash. *)
Definition ex_mapBlockIndex : gmap uint256 nat :=
  list_to_map ((fun e => (phashBlock e.2, e.1)) <$> ex_blocks).

(** Peer 7 is known to have block 2; nothing is pending. *)
Definition ex_avail : gmap NodeId CNodeAvail :=
  {[ 7 := {| pindexBestKnownBlock := Some 2%nat;
             hashLastUnknownBlock := uint256_null |} ]}.

(** The block index before block 5 has arrived. *)
Definition ex_heap_before : BlockHeap := delete 5%nat ex_heap.
Definition ex_mapBlockIndex_before : gmap uint256 nat :=
  delete (ex_hash_of "l") ex_mapBlockIndex.

(** Peer 7 announces block 5, once with the block index knowing it and once
    before. *)
Definition ex_avail_announced : gmap NodeId CNodeAvail :=
  default ex_avail
    (UpdateBlockAvailability ex_mapBlockIndex ex_heap 7 (ex_hash_of "l") ex_avail).
Definition ex_avail_parked : gmap NodeId CNodeAvail :=
  default ex_avail
    (UpdateBlockAvailability ex_mapBlockIndex_before ex_heap_before 7
                             (ex_hash_of "l") ex_avail).

(** Block [aa..] came from peer 7, which is to be punished if it is bad. *)
Definition ex_block_source : Globals :=
  set_mapBlockSource {[ ex_hash_of "a" := (7, true) ]} ex_two_peers.

Definition ex_verdict_invalid : CValidationState :=
  {| IsInvalid := Some 100; GetRejectCode := 16; GetRejectReason := "bad-blk" |}.

(** The block turned out invalid. *)
Definition ex_block_checked : Globals :=
  default ex_block_source
    (fst <$> BlockChecked 100 256 111 (ex_hash_of "a") ex_verdict_invalid
                          ex_block_source).

(** * Properties *)

(** ** Checked arithmetic *)

Lemma int_checked_Some z z' :
  int_checked z = Some z' <-> z' = z /\ INT_MIN <= z <= INT_MAX.
Proof.
  unfold int_checked. case_bool_decide; split.
  - intros [= <-]. done.
  - intros [-> _]. done.
  - discriminate.
  - intros [_ ?]. contradiction.
Qed.

Lemma int_checked_in_range z :
  INT_MIN <= z <= INT_MAX -> int_checked z = Some z.
Proof. intros. apply int_checked_Some. done. Qed.

Lemma int64_checked_Some z z' :
  int64_checked z = Some z' <-> z' = z /\ INT64_MIN <= z <= INT64_MAX.
Proof.
  unfold int64_checked. case_bool_decide; split.
  - intros [= <-]. done.
  - intros [-> _]. done.
  - discriminate.
  - intros [_ ?]. contradiction.
Qed.

(** Range side conditions of checked operations. *)
Ltac int_range :=
  unfold INT_MIN, INT_MAX, INT64_MIN, INT64_MAX in *; lia.

(** Equalities between sets built from unions, differences and
    singletons, decided member by member. *)
Ltac gset_members :=
  apply set_eq; intros ?;
  rewrite ?elem_of_union, ?elem_of_difference, ?elem_of_singleton,
    ?elem_of_empty;
  tauto.

(** ** Counting the peers that satisfy a test *)

Lemma count_peers_empty P : count_peers P ∅ = 0.
Proof. unfold count_peers. rewrite map_filter_empty, map_size_empty. done. Qed.

Lemma count_peers_nonneg P m : 0 <= count_peers P m.
Proof. unfold count_peers. lia. Qed.

Lemma count_peers_insert_fresh P m k x :
  m !! k = None ->
  count_peers P (<[k := x]> m) = count_peers P m + b2z (P x).
Proof.
  intros Hk. unfold count_peers. rewrite map_filter_insert. simpl.
  destruct (decide (P x = true)) as [HP | HP].
  - rewrite HP. simpl. rewrite map_size_insert_None; [lia |].
    apply map_lookup_filter_None. left. done.
  - apply not_true_is_false in HP. rewrite HP. simpl.
    rewrite delete_id by done. lia.
Qed.

Lemma count_peers_delete P m k v :
  m !! k = Some v ->
  count_peers P (delete k m) = count_peers P m - b2z (P v).
Proof.
  intros Hk.
  rewrite <- (insert_delete_id m k v) at 2 by done.
  rewrite count_peers_insert_fresh by apply lookup_delete_eq. lia.
Qed.

Lemma count_peers_insert P m k v v' :
  m !! k = Some v ->
  count_peers P (<[k := v']> m) = count_peers P m - b2z (P v) + b2z (P v').
Proof.
  intros Hk. rewrite <- insert_delete_eq.
  rewrite count_peers_insert_fresh by apply lookup_delete_eq.
  rewrite (count_peers_delete P m k v) by done. done.
Qed.

(** ** The counter of peers with validated downloads *)

Lemma MarkBlockAsReceived_validated_counter h now g b g' :
  validated_counter_ok g ->
  MarkBlockAsReceived h now g = Some (b, g') ->
  validated_counter_ok g'.
Proof.
  unfold validated_counter_ok, MarkBlockAsReceived. intros Hinv Hrun.
  destruct (mapBlocksInFlight g !! h) as [[owner it] |]; [| by inversion Hrun; subst].
  destruct (mapNodeState g !! owner) as [state |] eqn:Hst; simpl in Hrun; [| done].
  destruct (find_node it (vBlocksInFlight state)) as [qb |]; simpl in Hrun; [| done].
  destruct (int_checked (nBlocksInFlightValidHeaders state - b2z (fValidatedHeaders qb)))
    as [nValid |] eqn:HnValid; simpl in Hrun; [| done].
  apply int_checked_Some in HnValid as [-> _].
  set (nValid := nBlocksInFlightValidHeaders state - b2z (fValidatedHeaders qb)) in *.
  destruct (if (nValid =? 0) && fValidatedHeaders qb
            then int_checked (nPeersWithValidatedDownloads g - 1)
            else Some (nPeersWithValidatedDownloads g)) as [nPeers |] eqn:HnPeers;
    simpl in Hrun; [| done].
  destruct (int_checked (nBlocksInFlight state - 1)) as [nInFlight |];
    simpl in Hrun; [| done].
  inversion Hrun; subst b g'; clear Hrun. simpl.
  rewrite (count_peers_insert _ _ _ _ _ Hst). unfold has_validated at 2 3. simpl.
  rewrite <- Hinv. subst nValid.
  destruct (fValidatedHeaders qb); simpl in *.
  - destruct (Z.eqb_spec (nBlocksInFlightValidHeaders state - 1) 0) as [E | E];
      simpl in HnPeers.
    + apply int_checked_Some in HnPeers as [-> _].
      replace (nBlocksInFlightValidHeaders state) with 1 by lia. simpl. lia.
    + inversion HnPeers; subst nPeers.
      destruct (Z.ltb_spec 0 (nBlocksInFlightValidHeaders state));
        destruct (Z.ltb_spec 0 (nBlocksInFlightValidHeaders state - 1));
        simpl; lia.
  - rewrite andb_false_r in HnPeers. inversion HnPeers; subst nPeers.
    rewrite Z.sub_0_r. lia.
Qed.

Lemma MarkBlockAsInFlight_validated_counter nodeid h pidx now_recv now g g' :
  validated_counter_ok g ->
  MarkBlockAsInFlight nodeid h pidx now_recv now g = Some g' ->
  validated_counter_ok g'.
Proof.
  unfold MarkBlockAsInFlight. intros Hinv Hrun.
  destruct (mapNodeState g !! nodeid) as [state0 |]; simpl in Hrun; [| done].
  destruct (MarkBlockAsReceived h now_recv g) as [[b g1] |] eqn:Hrecv;
    simpl in Hrun; [| done].
  pose proof (MarkBlockAsReceived_validated_counter _ _ _ _ _ Hinv Hrecv) as Hinv1.
  unfold validated_counter_ok in *.
  destruct (mapNodeState g1 !! nodeid) as [state |] eqn:Hst; simpl in Hrun; [| done].
  destruct (int_checked (nBlocksInFlight state + 1)) as [nInFlight |];
    simpl in Hrun; [| done].
  destruct (int_checked (nBlocksInFlightValidHeaders state
                           + b2z (bool_decide (pidx <> None))))
    as [nValid |] eqn:HnValid; simpl in Hrun; [| done].
  apply int_checked_Some in HnValid as [-> _].
  set (v := bool_decide (pidx <> None)) in *.
  set (nValid := nBlocksInFlightValidHeaders state + b2z v) in *.
  destruct (if (nValid =? 1) && v
            then int_checked (nPeersWithValidatedDownloads g1 + 1)
            else Some (nPeersWithValidatedDownloads g1)) as [nPeers |] eqn:HnPeers;
    simpl in Hrun; [| done].
  inversion Hrun; subst g'; clear Hrun. simpl.
  rewrite (count_peers_insert _ _ _ _ _ Hst). unfold has_validated at 2 3. simpl.
  rewrite <- Hinv1. subst nValid.
  destruct v; simpl in *.
  - destruct (Z.eqb_spec (nBlocksInFlightValidHeaders state + 1) 1) as [E | E];
      simpl in HnPeers.
    + apply int_checked_Some in HnPeers as [-> _].
      replace (nBlocksInFlightValidHeaders state) with 0 by lia. simpl. lia.
    + inversion HnPeers; subst nPeers.
      destruct (Z.ltb_spec 0 (nBlocksInFlightValidHeaders state));
        destruct (Z.ltb_spec 0 (nBlocksInFlightValidHeaders state + 1));
        simpl; lia.
  - rewrite andb_false_r in HnPeers. inversion HnPeers; subst nPeers.
    rewrite Z.add_0_r. lia.
Qed.

(** ** List nodes *)

Lemma count_validated_nonneg l : 0 <= count_validated l.
Proof. unfold count_validated. lia. Qed.

Lemma count_validated_le_length l : count_validated l <= Z.of_nat (length l).
Proof. unfold count_validated. pose proof (length_filter (fun e => fValidatedHeaders e.2 = true) l). lia. Qed.

Lemma count_validated_snoc l e :
  count_validated (l ++ [e]) = count_validated l + b2z (fValidatedHeaders e.2).
Proof.
  unfold count_validated. rewrite filter_app, length_app.
  rewrite filter_cons, filter_nil.
  destruct (decide (fValidatedHeaders e.2 = true)) as [E | E].
  - rewrite E. simpl. lia.
  - apply not_true_is_false in E. rewrite E. simpl. lia.
Qed.

Lemma find_node_elem it l qb :
  find_node it l = Some qb -> (it, qb) ∈ l.
Proof.
  induction l as [| [i q] l IH]; simpl; [done |].
  destruct (Nat.eqb_spec i it) as [-> | Hne].
  - intros [= ->]. left.
  - intros Hf. right. auto.
Qed.

Lemma elem_find_node it l qb :
  NoDup l.*1 -> (it, qb) ∈ l -> find_node it l = Some qb.
Proof.
  induction l as [| [i q] l IH]; simpl; intros Hnd Hin.
  - by apply elem_of_nil in Hin.
  - apply NoDup_cons in Hnd as [Hni Hnd].
    apply elem_of_cons in Hin as [[= <- <-] | Hin].
    + by rewrite Nat.eqb_refl.
    + destruct (Nat.eqb_spec i it) as [-> | Hne]; [| auto].
      exfalso. apply Hni. apply list_elem_of_fmap. exists (it, qb). done.
Qed.

Lemma erase_node_length it l qb :
  find_node it l = Some qb ->
  Z.of_nat (length (erase_node it l)) = Z.of_nat (length l) - 1.
Proof.
  induction l as [| [i q] l IH]; simpl; [done |].
  destruct (Nat.eqb_spec i it) as [-> | Hne]; intros Hf.
  - lia.
  - simpl. rewrite Nat2Z.inj_succ. rewrite IH by done. lia.
Qed.

Lemma erase_node_count_validated it l qb :
  find_node it l = Some qb ->
  count_validated (erase_node it l)
  = count_validated l - b2z (fValidatedHeaders qb).
Proof.
  unfold count_validated.
  induction l as [| [i q] l IH]; simpl; [done |].
  destruct (Nat.eqb_spec i it) as [-> | Hne]; intros Hf.
  - injection Hf as ->. rewrite filter_cons. simpl.
    destruct (decide (fValidatedHeaders qb = true)) as [E | E].
    + rewrite E. simpl. lia.
    + apply not_true_is_false in E. rewrite E. simpl. lia.
  - rewrite !filter_cons. simpl.
    destruct (decide (fValidatedHeaders q = true)); simpl;
      specialize (IH Hf); lia.
Qed.

Lemma erase_node_subseteq it l e : e ∈ erase_node it l -> e ∈ l.
Proof.
  induction l as [| [i q] l IH]; simpl; [done |].
  destruct (Nat.eqb_spec i it) as [-> | Hne]; intros Hin.
  - by right.
  - apply elem_of_cons in Hin as [-> | Hin]; [left | right; auto].
Qed.

Lemma erase_node_other it l it' qb :
  it' <> it -> (it', qb) ∈ l -> (it', qb) ∈ erase_node it l.
Proof.
  intros Hne. induction l as [| [i q] l IH]; simpl; [done |].
  intros Hin. apply elem_of_cons in Hin as [[= <- <-] | Hin].
  - destruct (Nat.eqb_spec it' it); [done | left].
  - destruct (Nat.eqb_spec i it); [done | right; auto].
Qed.

Lemma erase_node_NoDup it l : NoDup l.*1 -> NoDup (erase_node it l).*1.
Proof.
  induction l as [| [i q] l IH]; simpl; [done |].
  intros Hnd. apply NoDup_cons in Hnd as [Hni Hnd].
  destruct (Nat.eqb_spec i it); [done |].
  simpl. apply NoDup_cons. split; [| auto].
  intros Hin. apply Hni. apply list_elem_of_fmap in Hin as [e [-> He]].
  apply list_elem_of_fmap. exists e. split; [done |].
  by apply erase_node_subseteq in He.
Qed.

(** ** Well-formed tables *)

Lemma peer_wf_mono next next' st :
  (next <= next')%nat -> peer_wf next st -> peer_wf next' st.
Proof.
  intros Hle [? ? ? ? Hf]. split; try done.
  intros it Hit. specialize (Hf it Hit). lia.
Qed.

Lemma peer_wf_new next : peer_wf next CNodeState_new.
Proof.
  split; simpl; try done.
  - apply NoDup_nil. done.
  - intros it Hit. by apply elem_of_nil in Hit.
Qed.

Lemma globals_wf_init : globals_wf Globals_init.
Proof.
  split; unfold validated_counter_ok; simpl;
    rewrite ?count_peers_empty; try done.
Qed.

(** ** [MarkBlockAsReceived] on well-formed tables *)

Lemma wf_index_find g h owner it :
  globals_wf g ->
  mapBlocksInFlight g !! h = Some (owner, it) ->
  exists st qb, mapNodeState g !! owner = Some st
                /\ find_node it (vBlocksInFlight st) = Some qb /\ hash qb = h.
Proof.
  intros Hwf Hidx.
  destruct (wf_index g Hwf _ _ _ Hidx) as (st & qb & Hst & Hin & Hh).
  exists st, qb. split; [done |]. split; [| done].
  apply elem_find_node; [| done].
  apply (wf_nodup _ _ (wf_peers g Hwf _ _ Hst)).
Qed.

Lemma MarkBlockAsReceived_total h now g :
  globals_wf g -> is_Some (MarkBlockAsReceived h now g).
Proof.
  intros Hwf. unfold MarkBlockAsReceived.
  destruct (mapBlocksInFlight g !! h) as [[owner it] |] eqn:Hidx; [| done].
  destruct (wf_index_find g h owner it Hwf Hidx) as (st & qb & Hst & Hfind & Hh).
  rewrite Hst. simpl. rewrite Hfind. simpl.
  pose proof (wf_peers g Hwf _ _ Hst) as [HnIn HnInMax HnVal Hnd Hfresh].
  pose proof (erase_node_count_validated _ _ _ Hfind) as Hcv.
  pose proof (count_validated_nonneg (erase_node it (vBlocksInFlight st))) as Hcv0.
  pose proof (count_validated_le_length (vBlocksInFlight st)) as Hcvl.
  pose proof (erase_node_length _ _ _ Hfind) as Hlen.
  pose proof (wf_validated g Hwf) as Hval. unfold validated_counter_ok in Hval.
  pose proof (count_peers_nonneg has_validated (mapNodeState g)) as Hc0.
  pose proof (wf_validated_max g Hwf) as Hvmax.
  assert (Hpos : fValidatedHeaders qb = true ->
                 1 <= count_peers has_validated (mapNodeState g)).
  { intros Hv.
    pose proof (count_peers_delete has_validated _ _ _ Hst) as Hd.
    pose proof (count_peers_nonneg has_validated (delete owner (mapNodeState g))).
    assert (has_validated st = true) as Hhv.
    { unfold has_validated. apply Z.ltb_lt. rewrite Hv in Hcv. simpl in Hcv. lia. }
    rewrite Hhv in Hd. simpl in Hd. lia. }
  rewrite (int_checked_in_range (nBlocksInFlightValidHeaders st - _))
    by (destruct (fValidatedHeaders qb); simpl in *; int_range).
  rewrite (int_checked_in_range (nBlocksInFlight st - 1)) by int_range.
  simpl.
  destruct ((nBlocksInFlightValidHeaders st - b2z (fValidatedHeaders qb) =? 0)
            && fValidatedHeaders qb) eqn:Hc; [| done].
  apply andb_true_iff in Hc as [_ Hv]. specialize (Hpos Hv).
  rewrite int_checked_in_range by int_range. done.
Qed.

Lemma MarkBlockAsReceived_wf h now g b g' :
  globals_wf g ->
  MarkBlockAsReceived h now g = Some (b, g') ->
  globals_wf g'.
Proof.
  intros Hwf Hrun.
  pose proof (MarkBlockAsReceived_validated_counter _ _ _ _ _
                (wf_validated g Hwf) Hrun) as Hval.
  unfold MarkBlockAsReceived in Hrun.
  destruct (mapBlocksInFlight g !! h) as [[owner it] |] eqn:Hidx;
    [| by inversion Hrun; subst].
  destruct (wf_index_find g h owner it Hwf Hidx) as (st & qb & Hst & Hfind & Hh).
  rewrite Hst in Hrun. simpl in Hrun. rewrite Hfind in Hrun. simpl in Hrun.
  destruct (int_checked (nBlocksInFlightValidHeaders st - b2z (fValidatedHeaders qb)))
    as [nValid |] eqn:HnValid; simpl in Hrun; [| done].
  apply int_checked_Some in HnValid as [-> _].
  destruct (if (nBlocksInFlightValidHeaders st - b2z (fValidatedHeaders qb) =? 0)
               && fValidatedHeaders qb
            then int_checked (nPeersWithValidatedDownloads g - 1)
            else Some (nPeersWithValidatedDownloads g)) as [nPeers |] eqn:HnPeers;
    simpl in Hrun; [| done].
  destruct (int_checked (nBlocksInFlight st - 1)) as [nInFlight |] eqn:HnIn;
    simpl in Hrun; [| done].
  apply int_checked_Some in HnIn as [-> _].
  inversion Hrun; subst b g'; clear Hrun.
  pose proof (wf_peers g Hwf _ _ Hst) as [HnIn HnInMax HnVal Hnd Hfresh].
  split; simpl.
  - intros p st' Hp. destruct (decide (p = owner)) as [-> | Hne].
    + rewrite lookup_insert_eq in Hp. injection Hp as <-.
      split; simpl.
      * rewrite (erase_node_length _ _ _ Hfind). lia.
      * lia.
      * rewrite (erase_node_count_validated _ _ _ Hfind). lia.
      * by apply erase_node_NoDup.
      * intros i Hi. apply Hfresh.
        apply list_elem_of_fmap in Hi as [e [-> He]].
        apply list_elem_of_fmap. exists e. split; [done |].
        by apply erase_node_subseteq in He.
    + rewrite lookup_insert_ne in Hp by done. by apply (wf_peers g Hwf p).
  - intros h' p it' Hh'.
    destruct (decide (h' = h)) as [-> | Hne].
    { by rewrite lookup_delete_eq in Hh'. }
    rewrite lookup_delete_ne in Hh' by done.
    destruct (wf_index g Hwf _ _ _ Hh') as (st1 & qb1 & Hp1 & Hin1 & Hh1).
    destruct (decide (p = owner)) as [-> | Hpne].
    + rewrite Hst in Hp1. injection Hp1 as <-.
      eexists _, qb1. rewrite lookup_insert_eq. split; [done |]. simpl.
      split; [| done]. apply erase_node_other; [| done].
      intros ->. apply (elem_find_node _ _ _ Hnd) in Hin1.
      rewrite Hfind in Hin1. injection Hin1 as ->. congruence.
    + exists st1, qb1. rewrite lookup_insert_ne by done. done.
  - rewrite (count_peers_insert _ _ _ _ _ Hst). simpl.
    rewrite (wf_sync g Hwf). lia.
  - rewrite (count_peers_insert _ _ _ _ _ Hst). simpl.
    rewrite (wf_pref g Hwf). lia.
  - exact Hval.
  - apply (wf_sync_max g Hwf).
  - apply (wf_pref_max g Hwf).
  - pose proof (wf_validated_max g Hwf).
    destruct ((nBlocksInFlightValidHeaders st - b2z (fValidatedHeaders qb) =? 0)
              && fValidatedHeaders qb).
    + apply int_checked_Some in HnPeers as [-> _]. lia.
    + injection HnPeers as <-. done.
Qed.

(** ** [MarkBlockAsInFlight] on well-formed tables *)

Lemma MarkBlockAsInFlight_wf nodeid h pidx now_recv now g g' :
  globals_wf g ->
  MarkBlockAsInFlight nodeid h pidx now_recv now g = Some g' ->
  globals_wf g'.
Proof.
  intros Hwf Hrun.
  pose proof (MarkBlockAsInFlight_validated_counter _ _ _ _ _ _ _
                (wf_validated g Hwf) Hrun) as Hval.
  unfold MarkBlockAsInFlight in Hrun.
  destruct (mapNodeState g !! nodeid) as [state0 |]; simpl in Hrun; [| done].
  destruct (MarkBlockAsReceived h now_recv g) as [[b g1] |] eqn:Hrecv;
    simpl in Hrun; [| done].
  pose proof (MarkBlockAsReceived_wf _ _ _ _ _ Hwf Hrecv) as Hwf1.
  destruct (mapNodeState g1 !! nodeid) as [st |] eqn:Hst; simpl in Hrun; [| done].
  destruct (int_checked (nBlocksInFlight st + 1)) as [nInFlight |] eqn:HnIn1;
    simpl in Hrun; [| done].
  apply int_checked_Some in HnIn1 as [-> HnInR].
  destruct (int_checked (nBlocksInFlightValidHeaders st
                           + b2z (bool_decide (pidx <> None))))
    as [nValid |] eqn:HnValid; simpl in Hrun; [| done].
  apply int_checked_Some in HnValid as [-> _].
  destruct (if (nBlocksInFlightValidHeaders st + b2z (bool_decide (pidx <> None)) =? 1)
               && bool_decide (pidx <> None)
            then int_checked (nPeersWithValidatedDownloads g1 + 1)
            else Some (nPeersWithValidatedDownloads g1)) as [nPeers |] eqn:HnPeers;
    simpl in Hrun; [| done].
  inversion Hrun; subst g'; clear Hrun.
  pose proof (wf_peers g1 Hwf1 _ _ Hst) as [HnIn HnInMax HnVal Hnd Hfresh].
  split; simpl.
  - intros p st' Hp. destruct (decide (p = nodeid)) as [-> | Hne].
    + rewrite lookup_insert_eq in Hp. injection Hp as <-.
      split; simpl.
      * rewrite length_app. simpl. lia.
      * lia.
      * rewrite count_validated_snoc. simpl. lia.
      * rewrite fmap_app. simpl. apply NoDup_app. split; [done |].
        split; [| apply NoDup_singleton].
        intros i Hi Hi'. apply list_elem_of_singleton in Hi'. subst i.
        specialize (Hfresh _ Hi). lia.
      * intros i Hi. rewrite fmap_app in Hi. simpl in Hi.
        apply elem_of_app in Hi as [Hi | Hi].
        -- specialize (Hfresh _ Hi). lia.
        -- apply list_elem_of_singleton in Hi. lia.
    + rewrite lookup_insert_ne in Hp by done.
      apply (peer_wf_mono (heap_next g1)); [lia |]. by apply (wf_peers g1 Hwf1 p).
  - intros h' p it' Hh'.
    destruct (decide (h' = h)) as [-> | Hne].
    + rewrite lookup_insert_eq in Hh'. injection Hh' as <- <-.
      eexists _, _. rewrite lookup_insert_eq. split; [done |]. simpl.
      split; [apply elem_of_app; right; apply list_elem_of_singleton; reflexivity
             | done].
    + rewrite lookup_insert_ne in Hh' by done.
      destruct (wf_index g1 Hwf1 _ _ _ Hh') as (st1 & qb1 & Hp1 & Hin1 & Hh1).
      destruct (decide (p = nodeid)) as [-> | Hpne].
      * rewrite Hst in Hp1. injection Hp1 as <-.
        eexists _, qb1. rewrite lookup_insert_eq. split; [done |]. simpl.
        split; [| done]. apply elem_of_app. by left.
      * exists st1, qb1. rewrite lookup_insert_ne by done. done.
  - rewrite (count_peers_insert _ _ _ _ _ Hst). simpl.
    rewrite (wf_sync g1 Hwf1). lia.
  - rewrite (count_peers_insert _ _ _ _ _ Hst). simpl.
    rewrite (wf_pref g1 Hwf1). lia.
  - exact Hval.
  - apply (wf_sync_max g1 Hwf1).
  - apply (wf_pref_max g1 Hwf1).
  - pose proof (wf_validated_max g1 Hwf1).
    destruct ((nBlocksInFlightValidHeaders st + b2z (bool_decide (pidx <> None)) =? 1)
              && bool_decide (pidx <> None)).
    + apply int_checked_Some in HnPeers as [-> ?]. lia.
    + injection HnPeers as <-. done.
Qed.

(** On well-formed tables [MarkBlockAsInFlight] returns as soon as the peer
    is registered and the two counters it increments are below
    [INT_MAX]. *)
Lemma MarkBlockAsInFlight_total nodeid h pidx now_recv now g st :
  globals_wf g ->
  mapNodeState g !! nodeid = Some st ->
  nBlocksInFlight st < INT_MAX ->
  nPeersWithValidatedDownloads g < INT_MAX ->
  is_Some (MarkBlockAsInFlight nodeid h pidx now_recv now g).
Proof.
  intros Hwf Hst0 HmaxIn HmaxP. unfold MarkBlockAsInFlight.
  rewrite Hst0. simpl.
  destruct (MarkBlockAsReceived_total h now_recv g Hwf) as [[b g1] Hrecv].
  rewrite Hrecv. simpl.
  pose proof (MarkBlockAsReceived_wf _ _ _ _ _ Hwf Hrecv) as Hwf1.
  assert (exists st1, mapNodeState g1 !! nodeid = Some st1
                      /\ nBlocksInFlight st1 <= nBlocksInFlight st
                      /\ nPeersWithValidatedDownloads g1
                         <= nPeersWithValidatedDownloads g) as (st1 & Hst1 & Hle & HleP).
  { unfold MarkBlockAsReceived in Hrecv.
    destruct (mapBlocksInFlight g !! h) as [[owner it] |];
      [| injection Hrecv as <- <-; exists st; split; [done | lia]].
    destruct (mapNodeState g !! owner) as [sto |] eqn:Hsto; simpl in Hrecv; [| done].
    destruct (find_node it (vBlocksInFlight sto)) as [qb |]; simpl in Hrecv; [| done].
    destruct (int_checked (nBlocksInFlightValidHeaders sto - b2z (fValidatedHeaders qb)))
      as [nValid |]; simpl in Hrecv; [| done].
    destruct (if (nValid =? 0) && fValidatedHeaders qb
              then int_checked (nPeersWithValidatedDownloads g - 1)
              else Some (nPeersWithValidatedDownloads g)) as [nPeers |] eqn:HnPeers;
      simpl in Hrecv; [| done].
    destruct (int_checked (nBlocksInFlight sto - 1)) as [nIn |] eqn:HnIn;
      simpl in Hrecv; [| done].
    apply int_checked_Some in HnIn as [-> _].
    injection Hrecv as <- <-. simpl.
    assert (nPeers <= nPeersWithValidatedDownloads g) as HP.
    { destruct ((nValid =? 0) && fValidatedHeaders qb).
      - apply int_checked_Some in HnPeers as [-> _]. lia.
      - injection HnPeers as <-. lia. }
    destruct (decide (nodeid = owner)) as [-> | Hne].
    - rewrite lookup_insert_eq. eexists. split; [done |]. simpl.
      rewrite Hsto in Hst0. injection Hst0 as <-. lia.
    - rewrite lookup_insert_ne by done. exists st. split; [done | lia]. }
  rewrite Hst1. simpl.
  pose proof (wf_peers g1 Hwf1 _ _ Hst1) as [HnIn HnInMax HnVal Hnd Hfresh].
  pose proof (count_validated_nonneg (vBlocksInFlight st1)).
  pose proof (count_validated_le_length (vBlocksInFlight st1)).
  pose proof (wf_validated g1 Hwf1) as Hv. unfold validated_counter_ok in Hv.
  pose proof (count_peers_nonneg has_validated (mapNodeState g1)).
  rewrite (int_checked_in_range (nBlocksInFlight st1 + 1)) by int_range.
  rewrite (int_checked_in_range (nBlocksInFlightValidHeaders st1 + _))
    by (destruct (bool_decide (pidx <> None)); simpl; int_range).
  simpl.
  destruct ((nBlocksInFlightValidHeaders st1 + b2z (bool_decide (pidx <> None)) =? 1)
            && bool_decide (pidx <> None)); [| done].
  rewrite int_checked_in_range by int_range. done.
Qed.

(** ** Operations that leave the download bookkeeping alone *)

Lemma globals_wf_ext g g' :
  download_part g' = download_part g -> globals_wf g -> globals_wf g'.
Proof.
  unfold download_part. intros [= Hn Hi Hs Hp Hv Hh] [? ? ? ? ? ? ? ?].
  split; unfold validated_counter_ok in *; rewrite ?Hn, ?Hi, ?Hs, ?Hp, ?Hv, ?Hh;
    done.
Qed.

Lemma globals_wf_frame g g' p st st' :
  globals_wf g ->
  mapNodeState g !! p = Some st ->
  same_download_fields st st' ->
  download_part g'
  = (<[p := st']> (mapNodeState g), mapBlocksInFlight g, nSyncStarted g,
     nPreferredDownload g, nPeersWithValidatedDownloads g, heap_next g) ->
  globals_wf g'.
Proof.
  unfold download_part.
  intros Hwf Hst (Hs & Hl & Hn & Hv & Hp) [= En Ei Es Ep Ev Eh].
  split; unfold validated_counter_ok; rewrite ?En, ?Ei, ?Es, ?Ep, ?Ev, ?Eh.
  - intros q sq Hq. destruct (decide (q = p)) as [-> | Hne].
    + rewrite lookup_insert_eq in Hq. injection Hq as <-.
      destruct (wf_peers g Hwf _ _ Hst). split; rewrite ?Hl, ?Hn, ?Hv; done.
    + rewrite lookup_insert_ne in Hq by done. by apply (wf_peers g Hwf q).
  - intros h q it Hh.
    destruct (wf_index g Hwf _ _ _ Hh) as (s1 & qb & Hq & Hin & Hhq).
    destruct (decide (q = p)) as [-> | Hne].
    + rewrite Hst in Hq. injection Hq as <-.
      exists st', qb. rewrite lookup_insert_eq, Hl. done.
    + exists s1, qb. rewrite lookup_insert_ne by done. done.
  - rewrite (count_peers_insert _ _ _ _ _ Hst), Hs, (wf_sync g Hwf). lia.
  - rewrite (count_peers_insert _ _ _ _ _ Hst), Hp, (wf_pref g Hwf). lia.
  - rewrite (count_peers_insert _ _ _ _ _ Hst). unfold has_validated.
    rewrite Hv, (wf_validated g Hwf). unfold has_validated. lia.
  - apply (wf_sync_max g Hwf).
  - apply (wf_pref_max g Hwf).
  - apply (wf_validated_max g Hwf).
Qed.

Lemma Misbehaving_wf bs pnode howmuch reason g g' :
  globals_wf g -> Misbehaving bs pnode howmuch reason g = Some g' -> globals_wf g'.
Proof.
  unfold Misbehaving. intros Hwf Hrun.
  destruct (howmuch =? 0); [by injection Hrun as <- |].
  destruct (mapNodeState g !! pnode) as [st |] eqn:Hst; [| by injection Hrun as <-].
  destruct (int_checked (nMisbehavior st + howmuch)) as [n |]; simpl in Hrun; [| done].
  destruct (int_checked (n - howmuch)) as [before |]; simpl in Hrun; [| done].
  injection Hrun as <-.
  eapply (globals_wf_frame g _ pnode st); [done | done | | reflexivity].
  repeat split.
Qed.

Lemma InitializeNode_wf pnode nTime g :
  globals_wf g -> globals_wf (InitializeNode pnode nTime g).1.
Proof.
  intros Hwf. unfold InitializeNode. simpl.
  destruct (mapNodeState g !! id pnode) as [st |] eqn:Hst.
  { eapply globals_wf_ext; [| exact Hwf]. done. }
  split; unfold validated_counter_ok; simpl;
    rewrite ?(count_peers_insert_fresh _ _ _ _ Hst); simpl; rewrite ?Z.add_0_r;
    try apply Hwf.
  - intros q sq Hq. destruct (decide (q = id pnode)) as [-> | Hne].
    + rewrite lookup_insert_eq in Hq. injection Hq as <-. apply peer_wf_new.
    + rewrite lookup_insert_ne in Hq by done. by apply (wf_peers g Hwf q).
  - intros h q it Hh.
    destruct (wf_index g Hwf _ _ _ Hh) as (s1 & qb & Hq & Hin & Hhq).
    exists s1, qb. rewrite lookup_insert_ne by congruence. done.
Qed.

Lemma UpdatePreferredDownload_wf node g g' :
  globals_wf g -> UpdatePreferredDownload node g = Some g' -> globals_wf g'.
Proof.
  unfold UpdatePreferredDownload. intros Hwf Hrun.
  destruct (mapNodeState g !! id node) as [st |] eqn:Hst; simpl in Hrun; [| done].
  destruct (int_checked (nPreferredDownload g - b2z (fPreferredDownload st)))
    as [n1 |] eqn:Hn1; simpl in Hrun; [| done].
  apply int_checked_Some in Hn1 as [-> _].
  destruct (int_checked _) as [n2 |] eqn:Hn2; simpl in Hrun; [| done].
  apply int_checked_Some in Hn2 as [-> Hr].
  injection Hrun as <-.
  split; unfold validated_counter_ok; simpl;
    rewrite ?(count_peers_insert _ _ _ _ _ Hst); simpl; try apply Hwf.
  - intros q sq Hq. destruct (decide (q = id node)) as [-> | Hne].
    + rewrite lookup_insert_eq in Hq. injection Hq as <-.
      destruct (wf_peers g Hwf _ _ Hst). split; done.
    + rewrite lookup_insert_ne in Hq by done. by apply (wf_peers g Hwf q).
  - intros h q it Hh.
    destruct (wf_index g Hwf _ _ _ Hh) as (s1 & qb & Hq & Hin & Hhq).
    destruct (decide (q = id node)) as [-> | Hne].
    + rewrite Hst in Hq. injection Hq as <-.
      eexists _, qb. rewrite lookup_insert_eq. done.
    + exists s1, qb. rewrite lookup_insert_ne by done. done.
  - rewrite (wf_sync g Hwf). lia.
  - rewrite (wf_pref g Hwf). lia.
  - unfold has_validated. simpl. rewrite (wf_validated g Hwf).
    unfold has_validated. lia.
  - lia.
Qed.

Lemma StartBlockSync_wf pto fetchable g g' :
  globals_wf g -> StartBlockSync pto fetchable g = Some g' -> globals_wf g'.
Proof.
  unfold StartBlockSync. intros Hwf Hrun.
  destruct (mapNodeState g !! id pto) as [st |] eqn:Hst; simpl in Hrun; [| done].
  destruct (fSyncStarted st) eqn:Hsync; simpl in Hrun;
    [by injection Hrun as <- |].
  destruct fetchable; simpl in Hrun; [| by injection Hrun as <-].
  destruct (int_checked (nSyncStarted g + 1)) as [n |] eqn:Hn; simpl in Hrun; [| done].
  apply int_checked_Some in Hn as [-> Hr].
  injection Hrun as <-.
  split; unfold validated_counter_ok; simpl;
    rewrite ?(count_peers_insert _ _ _ _ _ Hst); simpl; try apply Hwf.
  - intros q sq Hq. destruct (decide (q = id pto)) as [-> | Hne].
    + rewrite lookup_insert_eq in Hq. injection Hq as <-.
      destruct (wf_peers g Hwf _ _ Hst). split; done.
    + rewrite lookup_insert_ne in Hq by done. by apply (wf_peers g Hwf q).
  - intros h q it Hh.
    destruct (wf_index g Hwf _ _ _ Hh) as (s1 & qb & Hq & Hin & Hhq).
    destruct (decide (q = id pto)) as [-> | Hne].
    + rewrite Hst in Hq. injection Hq as <-.
      eexists _, qb. rewrite lookup_insert_eq. done.
    + exists s1, qb. rewrite lookup_insert_ne by done. done.
  - rewrite Hsync, (wf_sync g Hwf). simpl. lia.
  - rewrite (wf_pref g Hwf). lia.
  - unfold has_validated. simpl. rewrite (wf_validated g Hwf).
    unfold has_validated. lia.
  - lia.
Qed.

Section OrphanFrame.
Context `{TxSerializer}.

Lemma EraseOrphanTx_download h g :
  download_part (EraseOrphanTx h g) = download_part g.
Proof. unfold EraseOrphanTx. by destruct (mapOrphanTransactions g !! h). Qed.

Lemma AddOrphanTx_download t peer g :
  download_part (AddOrphanTx t peer g).2 = download_part g.
Proof.
  unfold AddOrphanTx. destruct (mapOrphanTransactions g !! GetHash t); [done |].
  by destruct (5000 <? GetSerializeSize t).
Qed.

Lemma EraseOrphansFor_download peer g :
  download_part (EraseOrphansFor peer g) = download_part g.
Proof.
  unfold EraseOrphansFor.
  generalize (map_keys (mapOrphanTransactions g)). intros l.
  revert g. induction l as [| k l IH]; intros g; simpl; [done |].
  rewrite IH. destruct (mapOrphanTransactions g !! k) as [o |]; [| done].
  case_bool_decide; [apply EraseOrphanTx_download | done].
Qed.

Lemma LimitOrphanTxSize_loop_download fuel cap rnd i n g n' g' :
  LimitOrphanTxSize_loop fuel cap rnd i n g = Some (n', g') ->
  download_part g' = download_part g.
Proof.
  revert i n g. induction fuel as [| fuel IH]; intros i n g; simpl.
  - destruct (cap <? _)%N; [done |]. by intros [= <- <-].
  - destruct (cap <? _)%N; [| by intros [= <- <-]].
    destruct (match map_lower_bound (rnd i) (mapOrphanTransactions g) with
              | Some k => Some k
              | None => map_begin (mapOrphanTransactions g)
              end) as [it |]; simpl; [| done].
    intros Hrun. apply IH in Hrun. rewrite Hrun. apply EraseOrphanTx_download.
Qed.

End OrphanFrame.

(** ** [FinalizeNode] on well-formed tables *)

Lemma foldl_delete_lookup_Some (l : list (list_iter * QueuedBlock))
    (m : gmap uint256 (NodeId * list_iter)) h x :
  foldl (fun m entry => delete (hash entry.2) m) m l !! h = Some x ->
  m !! h = Some x /\ forall e, e ∈ l -> hash e.2 <> h.
Proof.
  revert m. induction l as [| e l IH]; intros m; simpl.
  - intros Hm. split; [done |]. intros e He. by apply elem_of_nil in He.
  - intros Hm. apply IH in Hm as [Hm Hl].
    apply lookup_delete_Some in Hm as [Hne Hm]. split; [done |].
    intros e' He'. apply elem_of_cons in He' as [-> | He']; [done | auto].
Qed.

(** Once the registry is empty nothing is in flight and the counters are
    zero. *)
Lemma empty_registry_consistent g :
  globals_wf g -> mapNodeState g = ∅ ->
  mapBlocksInFlight g = ∅ /\ nSyncStarted g = 0
  /\ nPreferredDownload g = 0 /\ nPeersWithValidatedDownloads g = 0.
Proof.
  intros Hwf Hempty. repeat split.
  - apply map_empty. intros h.
    destruct (mapBlocksInFlight g !! h) as [[p it] |] eqn:Hh; [| done].
    destruct (wf_index g Hwf _ _ _ Hh) as (st & qb & Hp & _).
    rewrite Hempty, lookup_empty in Hp. done.
  - rewrite (wf_sync g Hwf), Hempty. apply count_peers_empty.
  - rewrite (wf_pref g Hwf), Hempty. apply count_peers_empty.
  - rewrite (wf_validated g Hwf), Hempty. apply count_peers_empty.
Qed.

Section Finalize.
Context `{TxSerializer}.

Lemma FinalizeNode_wf nodeid g st :
  globals_wf g ->
  mapNodeState g !! nodeid = Some st ->
  exists b g', FinalizeNode nodeid g = Some (b, g')
               /\ globals_wf g'
               /\ mapNodeState g' = delete nodeid (mapNodeState g).
Proof.
  intros Hwf Hst. unfold FinalizeNode. rewrite Hst. simpl.
  pose proof (wf_peers g Hwf _ _ Hst) as [HnIn HnInMax HnVal Hnd Hfresh].
  pose proof (count_validated_nonneg (vBlocksInFlight st)) as Hcv.
  pose proof (wf_sync g Hwf) as Hs. pose proof (wf_sync_max g Hwf) as Hsm.
  pose proof (wf_pref g Hwf) as Hp. pose proof (wf_pref_max g Hwf) as Hpm.
  pose proof (wf_validated g Hwf) as Hv. unfold validated_counter_ok in Hv.
  pose proof (wf_validated_max g Hwf) as Hvm.
  pose proof (count_peers_delete fSyncStarted _ _ _ Hst) as Hds.
  pose proof (count_peers_delete fPreferredDownload _ _ _ Hst) as Hdp.
  pose proof (count_peers_delete has_validated _ _ _ Hst) as Hdv.
  pose proof (count_peers_nonneg fSyncStarted (delete nodeid (mapNodeState g))).
  pose proof (count_peers_nonneg fPreferredDownload (delete nodeid (mapNodeState g))).
  pose proof (count_peers_nonneg has_validated (delete nodeid (mapNodeState g))).
  assert (b2z (negb (nBlocksInFlightValidHeaders st =? 0)) = b2z (has_validated st))
    as Hhv.
  { unfold has_validated.
    destruct (Z.eqb_spec (nBlocksInFlightValidHeaders st) 0);
      destruct (Z.ltb_spec 0 (nBlocksInFlightValidHeaders st)); simpl; lia. }
  assert ((if fSyncStarted st then int_checked (nSyncStarted g - 1)
           else Some (nSyncStarted g))
          = Some (nSyncStarted g - b2z (fSyncStarted st))) as ->.
  { destruct (fSyncStarted st); simpl in *.
    - apply int_checked_in_range. int_range.
    - by rewrite Z.sub_0_r. }
  simpl.
  rewrite (int_checked_in_range (nPreferredDownload g - _))
    by (destruct (fPreferredDownload st); simpl in *; int_range).
  simpl. rewrite Hhv.
  rewrite (int_checked_in_range (nPeersWithValidatedDownloads g - _))
    by (destruct (has_validated st); simpl in *; int_range).
  simpl.
  destruct (Z.ltb_spec (nPeersWithValidatedDownloads g - b2z (has_validated st)) 0)
    as [Hneg | _]; [lia |].
  match goal with
  | |- context [Some (_, ?x)] => set (g' := x)
  end.
  assert (globals_wf g') as Hwf'.
  { split; unfold validated_counter_ok; subst g'; simpl.
    - intros q sq Hq. apply lookup_delete_Some in Hq as [_ Hq].
      by apply (wf_peers g Hwf q).
    - intros h q it Hh. apply foldl_delete_lookup_Some in Hh as [Hh Hl].
      destruct (wf_index g Hwf _ _ _ Hh) as (s1 & qb & Hq & Hin & Hhq).
      exists s1, qb. split; [| done].
      apply lookup_delete_Some. split; [| done].
      intros <-. rewrite Hst in Hq. injection Hq as <-.
      by apply (Hl _ Hin).
    - lia.
    - lia.
    - lia.
    - destruct (fSyncStarted st); simpl; lia.
    - destruct (fPreferredDownload st); simpl; lia.
    - destruct (has_validated st); simpl; lia. }
  destruct (Nat.eqb_spec (size (delete nodeid (mapNodeState g))) 0) as [He | He].
  - apply map_size_empty_iff in He.
    destruct (empty_registry_consistent g' Hwf' He) as (Hi & _ & Hp0 & Hv0).
    unfold g' in Hi, Hp0, Hv0. simpl in Hi, Hp0, Hv0.
    rewrite Hi, Hp0, Hv0, map_size_empty. simpl.
    eexists _, g'. done.
  - eexists _, g'. done.
Qed.

End Finalize.

(** ** Reachable tables *)

Section Reachability.
Context `{TxSerializer}.

Lemma step_wf g g' : globals_wf g -> step g g' -> globals_wf g'.
Proof.
  intros Hwf Hstep. destruct Hstep.
  - by apply InitializeNode_wf.
  - destruct (mapNodeState g !! nodeid) as [st |] eqn:Hst.
    + destruct (FinalizeNode_wf nodeid g st Hwf Hst) as (b' & g2 & Hrun & Hwf2 & _).
      congruence.
    + unfold FinalizeNode in *. rewrite Hst in *. done.
  - by eapply Misbehaving_wf.
  - by eapply MarkBlockAsReceived_wf.
  - by eapply MarkBlockAsInFlight_wf.
  - by eapply UpdatePreferredDownload_wf.
  - by eapply StartBlockSync_wf.
  - eapply globals_wf_ext; [apply AddOrphanTx_download | done].
  - eapply globals_wf_ext; [apply EraseOrphanTx_download | done].
  - eapply globals_wf_ext; [| done].
    by eapply LimitOrphanTxSize_loop_download.
  - by eapply globals_wf_frame.
Qed.

Lemma reachable_wf g : reachable g -> globals_wf g.
Proof.
  induction 1 as [| g g' _ IH Hstep].
  - apply globals_wf_init.
  - by eapply step_wf.
Qed.

(** C2: in every reachable state [FinalizeNode] of a registered peer
    passes its assertions, and when it removes the last peer the
    in-flight index is empty and [nPreferredDownload] and
    [nPeersWithValidatedDownloads] are zero. *)
Theorem FinalizeNode_last_peer_consistent g nodeid :
  reachable g ->
  is_Some (mapNodeState g !! nodeid) ->
  exists b g',
    FinalizeNode nodeid g = Some (b, g')
    /\ mapNodeState g' = delete nodeid (mapNodeState g)
    /\ (mapNodeState g' = ∅ ->
        mapBlocksInFlight g' = ∅
        /\ nPreferredDownload g' = 0
        /\ nPeersWithValidatedDownloads g' = 0).
Proof.
  intros Hreach [st Hst].
  destruct (FinalizeNode_wf nodeid g st (reachable_wf g Hreach) Hst)
    as (b & g' & Hrun & Hwf' & Hnodes).
  exists b, g'. split; [done |]. split; [done |].
  intros Hempty.
  destruct (empty_registry_consistent g' Hwf' Hempty) as (? & _ & ? & ?).
  done.
Qed.

End Reachability.

(** C1: from any state in which [nPeersWithValidatedDownloads] equals the
    number of peers with a positive count of validated in-flight blocks,
    [MarkBlockAsInFlight] and [MarkBlockAsReceived] lead to a state in which
    it still does; on well-formed tables [MarkBlockAsReceived] always
    returns, and [MarkBlockAsInFlight] returns for a registered peer whose
    counters are below [INT_MAX]. *)
Theorem validated_counter_preserved g :
  validated_counter_ok g ->
  (forall nodeid h pidx now_recv now g',
      MarkBlockAsInFlight nodeid h pidx now_recv now g = Some g' ->
      validated_counter_ok g')
  /\ (forall h now b g',
         MarkBlockAsReceived h now g = Some (b, g') ->
         validated_counter_ok g')
  /\ (globals_wf g ->
      (forall h now, is_Some (MarkBlockAsReceived h now g))
      /\ (forall nodeid h pidx now_recv now st,
             mapNodeState g !! nodeid = Some st ->
             nBlocksInFlight st < INT_MAX ->
             nPeersWithValidatedDownloads g < INT_MAX ->
             is_Some (MarkBlockAsInFlight nodeid h pidx now_recv now g))).
Proof.
  intros Hok. split; [| split].
  - intros. by eapply MarkBlockAsInFlight_validated_counter.
  - intros. by eapply MarkBlockAsReceived_validated_counter.
  - intros Hwf. split.
    + intros. by apply MarkBlockAsReceived_total.
    + intros. by eapply MarkBlockAsInFlight_total.
Qed.

(** ** The in-flight index across a mark/receive pair *)

Lemma MarkBlockAsReceived_index h now g b g' :
  MarkBlockAsReceived h now g = Some (b, g') ->
  mapBlocksInFlight g' = delete h (mapBlocksInFlight g)
  /\ b = bool_decide (is_Some (mapBlocksInFlight g !! h)).
Proof.
  unfold MarkBlockAsReceived. intros Hrun.
  destruct (mapBlocksInFlight g !! h) as [[owner it] |] eqn:Hidx.
  - destruct (mapNodeState g !! owner) as [st |]; simpl in Hrun; [| done].
    destruct (find_node it (vBlocksInFlight st)) as [qb |]; simpl in Hrun; [| done].
    destruct (int_checked (nBlocksInFlightValidHeaders st - _)) as [nValid |];
      simpl in Hrun; [| done].
    destruct (if (nValid =? 0) && fValidatedHeaders qb
              then int_checked (nPeersWithValidatedDownloads g - 1)
              else Some (nPeersWithValidatedDownloads g)) as [nPeers |];
      simpl in Hrun; [| done].
    destruct (int_checked (nBlocksInFlight st - 1)) as [nIn |];
      simpl in Hrun; [| done].
    injection Hrun as <- <-. simpl. split; [done |].
    first [done | symmetry; apply bool_decide_eq_true_2; by eexists].
  - injection Hrun as <- <-. rewrite delete_id by done. split; [done |].
    first [done | symmetry; apply bool_decide_eq_false_2; by intros [? ?]].
Qed.

Lemma MarkBlockAsInFlight_index nodeid h pidx now_recv now g g' :
  MarkBlockAsInFlight nodeid h pidx now_recv now g = Some g' ->
  exists it, mapBlocksInFlight g'
             = <[h := (nodeid, it)]> (delete h (mapBlocksInFlight g)).
Proof.
  unfold MarkBlockAsInFlight. intros Hrun.
  destruct (mapNodeState g !! nodeid) as [st0 |]; simpl in Hrun; [| done].
  destruct (MarkBlockAsReceived h now_recv g) as [[b g1] |] eqn:Hrecv;
    simpl in Hrun; [| done].
  apply MarkBlockAsReceived_index in Hrecv as [Hidx _].
  destruct (mapNodeState g1 !! nodeid) as [st |]; simpl in Hrun; [| done].
  destruct (int_checked (nBlocksInFlight st + 1)) as [nIn |];
    simpl in Hrun; [| done].
  destruct (int_checked (nBlocksInFlightValidHeaders st + _)) as [nValid |];
    simpl in Hrun; [| done].
  destruct (if (nValid =? 1) && bool_decide (pidx <> None)
            then int_checked (nPeersWithValidatedDownloads g1 + 1)
            else Some (nPeersWithValidatedDownloads g1)) as [nPeers |];
    simpl in Hrun; [| done].
  injection Hrun as <-. simpl. exists (heap_next g1). by rewrite Hidx.
Qed.

(** C3 (amended): [MarkBlockAsInFlight(peer, hash)] followed by
    [MarkBlockAsReceived(hash)] leaves [mapBlocksInFlight] equal to the
    index before the two calls with [hash] erased, so it is unchanged
    exactly when [hash] was not in flight before; the second call reports
    the block as tracked.  On well-formed tables both calls return for a
    registered peer whose counters are below [INT_MAX]. *)
Theorem mark_in_flight_then_received_index nodeid h pidx now_recv now now' g :
  (forall g1 b g2,
      MarkBlockAsInFlight nodeid h pidx now_recv now g = Some g1 ->
      MarkBlockAsReceived h now' g1 = Some (b, g2) ->
      b = true
      /\ mapBlocksInFlight g2 = delete h (mapBlocksInFlight g)
      /\ (mapBlocksInFlight g2 = mapBlocksInFlight g
          <-> mapBlocksInFlight g !! h = None))
  /\ (forall st,
         globals_wf g ->
         mapNodeState g !! nodeid = Some st ->
         nBlocksInFlight st < INT_MAX ->
         nPeersWithValidatedDownloads g < INT_MAX ->
         exists g1 g2,
           MarkBlockAsInFlight nodeid h pidx now_recv now g = Some g1
           /\ MarkBlockAsReceived h now' g1 = Some (true, g2)).
Proof.
  assert (forall g1 b g2,
             MarkBlockAsInFlight nodeid h pidx now_recv now g = Some g1 ->
             MarkBlockAsReceived h now' g1 = Some (b, g2) ->
             b = true /\ mapBlocksInFlight g2 = delete h (mapBlocksInFlight g))
    as Hpair.
  { intros g1 b g2 Hin Hrecv.
    apply MarkBlockAsInFlight_index in Hin as [it Hidx1].
    apply MarkBlockAsReceived_index in Hrecv as [Hidx2 ->].
    rewrite Hidx2, Hidx1, lookup_insert_eq, delete_insert_eq, delete_delete_eq.
    split; [| done]. apply bool_decide_eq_true_2. by eexists. }
  split.
  - intros g1 b g2 Hin Hrecv.
    destruct (Hpair _ _ _ Hin Hrecv) as [-> Hidx]. split; [done |].
    split; [done |]. rewrite Hidx. split.
    + intros Heq. rewrite <- Heq. apply lookup_delete_eq.
    + intros Hnone. by apply delete_id.
  - intros st Hwf Hst HmaxIn HmaxP.
    destruct (MarkBlockAsInFlight_total nodeid h pidx now_recv now g st
                Hwf Hst HmaxIn HmaxP) as [g1 Hin].
    pose proof (MarkBlockAsInFlight_wf _ _ _ _ _ _ _ Hwf Hin) as Hwf1.
    destruct (MarkBlockAsReceived_total h now' g1 Hwf1) as [[b g2] Hrecv].
    destruct (Hpair _ _ _ Hin Hrecv) as [-> _].
    by exists g1, g2.
Qed.

(** ** The misbehaviour threshold *)

(** The value [Misbehaving] computes for a registered peer when the old
    score and the sum are representable. *)
Lemma Misbehaving_registered bs pnode howmuch reason g st :
  mapNodeState g !! pnode = Some st ->
  howmuch <> 0 ->
  INT_MIN <= nMisbehavior st <= INT_MAX ->
  INT_MIN <= nMisbehavior st + howmuch <= INT_MAX ->
  Misbehaving bs pnode howmuch reason g
  = Some (set_mapNodeState
            (<[pnode := set_misbehavior st (nMisbehavior st + howmuch)
                          (if (bs <=? nMisbehavior st + howmuch)
                              && (nMisbehavior st <? bs)
                           then true else fShouldBan st)]>
               (mapNodeState g)) g).
Proof.
  intros Hst Hnz Hold Hnew. unfold Misbehaving.
  rewrite (proj2 (Z.eqb_neq _ _) Hnz), Hst.
  rewrite (int_checked_in_range (nMisbehavior st + howmuch)) by done.
  simpl. rewrite int_checked_in_range by int_range. simpl.
  replace (nMisbehavior st + howmuch - howmuch) with (nMisbehavior st) by lia.
  done.
Qed.

(** C4: for a registered peer and a positive score whose sum with the
    current score is representable, [Misbehaving] adds the score and sets
    [fShouldBan] exactly when the call crosses [banscore]; it leaves every
    other field and every other peer alone. *)
Theorem Misbehaving_crosses_threshold bs pnode howmuch reason g st :
  mapNodeState g !! pnode = Some st ->
  0 < howmuch ->
  INT_MIN <= nMisbehavior st ->
  nMisbehavior st + howmuch <= INT_MAX ->
  let crossed :=
    bs <= nMisbehavior st + howmuch /\ nMisbehavior st < bs in
  exists ban,
    Misbehaving bs pnode howmuch reason g
    = Some (set_mapNodeState
              (<[pnode := set_misbehavior st (nMisbehavior st + howmuch) ban]>
                 (mapNodeState g)) g)
    /\ (crossed -> ban = true)
    /\ (~ crossed -> ban = fShouldBan st)
    /\ (nMisbehavior st + howmuch = bs -> ban = true)
    /\ (bs <= nMisbehavior st -> ban = fShouldBan st).
Proof.
  intros Hst Hpos Hlo Hhi crossed.
  eexists. split.
  - apply Misbehaving_registered; [done | lia | int_range | int_range].
  - subst crossed.
    destruct (Z.leb_spec bs (nMisbehavior st + howmuch));
      destruct (Z.ltb_spec (nMisbehavior st) bs); simpl;
      repeat split; intros; try done; lia.
Qed.

(** ** Comparison of blobs *)

Lemma byte_val_inj x y : Blob.byte_val x = Blob.byte_val y -> x = y.
Proof.
  unfold Blob.byte_val. intros E. apply N2Z.inj in E.
  apply (f_equal Byte.of_N) in E. rewrite !Byte.of_to_N in E. congruence.
Qed.

Lemma memcmp_Eq a b : Blob.memcmp a b = Eq <-> a = b.
Proof.
  revert b. induction a as [| x a IH]; intros [| y b]; simpl; try done.
  destruct (Z.compare_spec (Blob.byte_val x) (Blob.byte_val y)) as [E | E | E].
  - apply byte_val_inj in E. subst y. rewrite IH. split; congruence.
  - split; [done |]. intros [= -> _]. lia.
  - split; [done |]. intros [= -> _]. lia.
Qed.

Lemma operator_ne_spec a b : Blob.operator_ne a b = true <-> a <> b.
Proof.
  unfold Blob.operator_ne. rewrite <- memcmp_Eq.
  destruct (Blob.memcmp a b); split; try done; intros Hne; by destruct Hne.
Qed.

Lemma operator_eq_spec a b : Blob.operator_eq a b = true <-> a = b.
Proof.
  unfold Blob.operator_eq. rewrite <- memcmp_Eq.
  destruct (Blob.memcmp a b); split; done.
Qed.

Lemma operator_lt_irrefl a : Blob.operator_lt a a = false.
Proof.
  unfold Blob.operator_lt. by rewrite (proj2 (memcmp_Eq a a) eq_refl).
Qed.

(** A blob that has been reset is null, and has the width of its type. *)
Lemma IsNull_SetNull BITS : Blob.IsNull (Blob.SetNull BITS) = true.
Proof.
  unfold Blob.IsNull, Blob.SetNull.
  induction (Z.to_nat (Blob.WIDTH BITS)) as [| n IH]; simpl; done.
Qed.

Lemma size_uint256_null : Blob.size uint256_null = 32.
Proof. reflexivity. Qed.

(** ** [AlreadyHave] for transactions *)

(** C5: for a MSG_TX inventory [AlreadyHave] first resets the
    recent-rejects filter and records the tip hash exactly when the tip
    hash differs from the recorded one, and then answers true if and only
    if the hash is in the (possibly reset) filter, the mempool, the orphan
    pool, or the coin cache holds output 0 or 1 of it. *)
Theorem AlreadyHave_tx `{RollingBloom F} (h : uint256) (view : ChainView)
    (g : Globals) (filter : F) (stored : uint256) :
  let r := mkRejectsState (Some filter) stored in
  exists b filter',
    AlreadyHave (mkCInv MSG_TX h) view g r
    = Some (b, mkRejectsState (Some filter') (tip_hash view))
    /\ (tip_hash view <> stored -> filter' = bloom_reset filter)
    /\ (tip_hash view = stored -> filter' = filter)
    /\ (b = true <->
        bloom_contains filter' h = true
        \/ mempool_exists view h = true
        \/ is_Some (mapOrphanTransactions g !! h)
        \/ HaveCoinInCache view (mkCOutPoint h 0) = true
        \/ HaveCoinInCache view (mkCOutPoint h 1) = true).
Proof.
  intros r. unfold AlreadyHave, refresh_rejects. simpl.
  destruct (Blob.operator_ne (tip_hash view) stored) eqn:Hne; simpl.
  - apply operator_ne_spec in Hne.
    eexists _, (bloom_reset filter). split; [reflexivity |].
    split; [done |]. split; [done |].
    rewrite !orb_true_iff, bool_decide_eq_true. tauto.
  - assert (tip_hash view = stored) as <-.
    { destruct (decide (tip_hash view = stored)) as [| Hd]; [done |].
      apply operator_ne_spec in Hd. congruence. }
    eexists _, filter. split; [reflexivity |].
    split; [done |]. split; [done |].
    rewrite !orb_true_iff, bool_decide_eq_true. tauto.
Qed.

(** ** The orphan pool *)

Lemma foldl_byprev_insert h l mp k :
  spenders (foldl (byprev_insert h) mp l) k
  = spenders mp k
    ∪ (if bool_decide (k ∈ (fun txin => outpoint_hash (prevout txin)) <$> l)
       then {[h]} else ∅).
Proof.
  unfold spenders. revert mp. induction l as [| a l IH]; intros mp; simpl.
  - gset_members.
  - rewrite IH. unfold byprev_insert.
    change (list_fmap CTxIn uint256 ?f l) with (f <$> l).
    destruct (decide (k = outpoint_hash (prevout a))) as [-> | Hne].
    + rewrite lookup_insert_eq. simpl.
      rewrite (bool_decide_eq_true_2 (_ ∈ _ :: _)) by left.
      case_bool_decide; gset_members.
    + rewrite lookup_insert_ne by done.
      destruct (decide (k ∈ (fun txin => outpoint_hash (prevout txin)) <$> l)).
      * rewrite !bool_decide_eq_true_2; [done | by right | done].
      * rewrite !bool_decide_eq_false_2; [done | | done].
        intros [? | ?]%elem_of_cons; done.
Qed.

Section OrphanPool.
Context `{TxSerializer}.

(** C6: [AddOrphanTx] refuses a transaction whose hash is already in the
    pool or whose serialised size exceeds 5000 bytes, and then changes
    nothing; otherwise it answers true, stores the transaction and its
    source peer under the hash, and adds the hash to the reverse-index set
    of the previous-transaction hash of every input (and to no other
    set). *)
Theorem AddOrphanTx_spec (t : CTransaction) (peer : NodeId) (g : Globals) :
  (is_Some (mapOrphanTransactions g !! GetHash t) \/ 5000 < GetSerializeSize t ->
   AddOrphanTx t peer g = (false, g))
  /\ (mapOrphanTransactions g !! GetHash t = None ->
      GetSerializeSize t <= 5000 ->
      exists g',
        AddOrphanTx t peer g = (true, g')
        /\ mapOrphanTransactions g'
           = <[GetHash t := mkCOrphanTx t peer]> (mapOrphanTransactions g)
        /\ (forall txin, txin ∈ vin t ->
              GetHash t ∈ spenders (mapOrphanTransactionsByPrev g')
                                   (outpoint_hash (prevout txin)))
        /\ (forall prev,
              spenders (mapOrphanTransactionsByPrev g') prev
              = spenders (mapOrphanTransactionsByPrev g) prev
                ∪ (if bool_decide (prev ∈ prev_hashes t)
                   then {[GetHash t]} else ∅))
        /\ download_part g' = download_part g
        /\ mapBlockSource g' = mapBlockSource g).
Proof.
  unfold AddOrphanTx. split.
  - intros [[o Ho] | Hbig].
    + by rewrite Ho.
    + destruct (mapOrphanTransactions g !! GetHash t); [done |].
      destruct (Z.ltb_spec 5000 (GetSerializeSize t)); [done | lia].
  - intros Hnone Hsmall. rewrite Hnone.
    destruct (Z.ltb_spec 5000 (GetSerializeSize t)); [lia |].
    eexists. split; [reflexivity |]. simpl. split; [done |].
    split; [| split; [| done]].
    + intros txin Hin. rewrite foldl_byprev_insert.
      rewrite bool_decide_eq_true_2.
      * apply elem_of_union. right. by apply elem_of_singleton.
      * apply list_elem_of_fmap. by exists txin.
    + intros prev. apply foldl_byprev_insert.
Qed.

End OrphanPool.

(** ** Map order *)

Lemma elem_of_map_keys {V} (m : gmap uint256 V) k :
  k ∈ map_keys m <-> is_Some (m !! k).
Proof.
  unfold map_keys. rewrite merge_sort_Permutation.
  rewrite list_elem_of_fmap. split.
  - intros [[k' v] [-> Hin]]. apply elem_of_map_to_list in Hin. by exists v.
  - intros [v Hv]. exists (k, v). split; [done |]. by apply elem_of_map_to_list.
Qed.

Lemma map_begin_Some {V} (m : gmap uint256 V) k :
  map_begin m = Some k -> is_Some (m !! k).
Proof.
  unfold map_begin. intros Hh. apply head_Some_elem_of in Hh.
  by apply elem_of_map_keys.
Qed.

Lemma map_begin_nonempty {V} (m : gmap uint256 V) :
  size m <> O -> is_Some (map_begin m).
Proof.
  intros Hsz. apply map_size_ne_0_lookup in Hsz as [k Hk].
  apply elem_of_map_keys in Hk. unfold map_begin. apply head_is_Some.
  intros Hnil. rewrite Hnil in Hk. by apply elem_of_nil in Hk.
Qed.

Lemma map_lower_bound_Some {V} (m : gmap uint256 V) r k :
  map_lower_bound r m = Some k -> is_Some (m !! k).
Proof.
  unfold map_lower_bound. intros Hh. apply head_Some_elem_of in Hh.
  apply list_elem_of_filter in Hh as [_ Hh]. by apply elem_of_map_keys.
Qed.

(** ** The order of the map keys *)

Lemma memcmp_antisym a b : Blob.memcmp b a = CompOpp (Blob.memcmp a b).
Proof.
  revert b. induction a as [| x a IH]; intros [| y b]; simpl; try done.
  rewrite (Z.compare_antisym (Blob.byte_val x) (Blob.byte_val y)).
  destruct (Blob.byte_val x ?= Blob.byte_val y); simpl; auto.
Qed.

Lemma memcmp_Lt_trans a b c :
  Blob.memcmp a b = Lt -> Blob.memcmp b c = Lt -> Blob.memcmp a c = Lt.
Proof.
  revert b c. induction a as [| x a IH]; intros [| y b] [| z c]; simpl;
    try done.
  destruct (Z.compare_spec (Blob.byte_val x) (Blob.byte_val y)) as [Exy | Lxy | Gxy];
    destruct (Z.compare_spec (Blob.byte_val y) (Blob.byte_val z)) as [Eyz | Lyz | Gyz];
    try done; intros Hab Hbc.
  - rewrite Exy, Eyz, Z.compare_refl. by eapply IH.
  - rewrite Exy. by apply Z.compare_lt_iff in Lyz as ->.
  - rewrite <- Eyz. by apply Z.compare_lt_iff in Lxy as ->.
  - assert (Blob.byte_val x < Blob.byte_val z) as Hxz by lia.
    by apply Z.compare_lt_iff in Hxz as ->.
Qed.

Lemma uint256_le_memcmp a b : uint256_le a b <-> Blob.memcmp a b <> Gt.
Proof.
  unfold uint256_le, Blob.operator_lt. rewrite (memcmp_antisym a b).
  destruct (Blob.memcmp a b); simpl; split; done.
Qed.

#[local] Instance uint256_le_total : Total uint256_le.
Proof.
  intros a b. rewrite !uint256_le_memcmp, (memcmp_antisym a b).
  destruct (Blob.memcmp a b); simpl; [left | left | right]; done.
Qed.

#[local] Instance uint256_le_trans : Transitive uint256_le.
Proof.
  intros a b c. rewrite !uint256_le_memcmp. intros Hab Hbc.
  destruct (Blob.memcmp a b) eqn:Eab; [| | done].
  - apply memcmp_Eq in Eab. by subst b.
  - destruct (Blob.memcmp b c) eqn:Ebc; [| | done].
    + apply memcmp_Eq in Ebc. subst c. by rewrite Eab.
    + by rewrite (memcmp_Lt_trans a b c).
Qed.

Lemma StronglySorted_filter_keep {A} (R : relation A) (P : A -> Prop)
    `{forall x, Decision (P x)} (l : list A) :
  StronglySorted R l -> StronglySorted R (filter P l).
Proof.
  induction 1 as [| x l Hs IH Hall]; [constructor |].
  rewrite filter_cons. destruct (decide (P x)); [| done].
  constructor; [done |]. rewrite Forall_forall in *.
  intros y Hy. apply Hall. by apply list_elem_of_filter in Hy as [_ ?].
Qed.

(** [begin() .. end()] visits the keys in increasing order. *)
Lemma map_keys_sorted {V} (m : gmap uint256 V) :
  StronglySorted uint256_le (map_keys m).
Proof. unfold map_keys. apply StronglySorted_merge_sort; apply _. Qed.

(** [begin()] is the least key. *)
Lemma map_begin_least {V} (m : gmap uint256 V) k k' :
  map_begin m = Some k -> is_Some (m !! k') -> uint256_le k k'.
Proof.
  unfold map_begin. intros Hh Hk'. apply elem_of_map_keys in Hk'.
  pose proof (map_keys_sorted m) as Hs.
  apply head_Some in Hh as [l Hl]. rewrite Hl in Hs, Hk'.
  apply StronglySorted_inv in Hs as [_ Hall].
  apply elem_of_cons in Hk' as [-> | Hk'].
  - apply uint256_le_memcmp. rewrite (proj2 (memcmp_Eq k k) eq_refl). done.
  - rewrite Forall_forall in Hall. by apply Hall.
Qed.

(** [lower_bound(r)] is the least key that is not less than [r], and
    [end()] when every key is less than [r]. *)
Lemma map_lower_bound_least {V} (m : gmap uint256 V) r k :
  map_lower_bound r m = Some k ->
  uint256_le r k
  /\ forall k', is_Some (m !! k') -> uint256_le r k' -> uint256_le k k'.
Proof.
  unfold map_lower_bound. intros Hh.
  pose proof (head_Some_elem_of _ _ Hh) as Hin.
  apply list_elem_of_filter in Hin as [Hrk _]. split; [done |].
  intros k' Hk' Hrk'. apply elem_of_map_keys in Hk'.
  pose proof (map_keys_sorted m) as Hs.
  apply (StronglySorted_filter_keep _ (fun x => uint256_le r x)) in Hs.
  apply head_Some in Hh as [l Hl]. rewrite Hl in Hs.
  assert (k' ∈ k :: l) as Hk'l.
  { rewrite <- Hl. apply list_elem_of_filter. done. }
  apply StronglySorted_inv in Hs as [_ Hall].
  apply elem_of_cons in Hk'l as [-> | Hk'l].
  - apply uint256_le_memcmp. rewrite (proj2 (memcmp_Eq k k) eq_refl). done.
  - rewrite Forall_forall in Hall. by apply Hall.
Qed.

Lemma map_lower_bound_None {V} (m : gmap uint256 V) r k' :
  map_lower_bound r m = None -> is_Some (m !! k') -> uint256_lt k' r.
Proof.
  unfold map_lower_bound. intros Hh Hk'. apply head_None in Hh.
  apply elem_of_map_keys in Hk'.
  destruct (decide (uint256_le r k')) as [Hle | Hnle].
  - assert (k' ∈ filter (fun x => uint256_le r x) (map_keys m)) as Hin
      by (apply list_elem_of_filter; done).
    rewrite Hh in Hin. by apply elem_of_nil in Hin.
  - unfold uint256_le in Hnle. unfold uint256_lt.
    by destruct (Blob.operator_lt k' r).
Qed.

(** ** Erasing orphans *)

Lemma byprev_erase_spenders h mp txin k :
  spenders (byprev_erase h mp txin) k
  = if decide (k = outpoint_hash (prevout txin))
    then spenders mp k ∖ {[h]} else spenders mp k.
Proof.
  unfold spenders, byprev_erase.
  destruct (mp !! outpoint_hash (prevout txin)) as [s |] eqn:Hs.
  - destruct (decide (s ∖ {[h]} = ∅)) as [He | He].
    + destruct (decide (k = outpoint_hash (prevout txin))) as [-> | Hne].
      * rewrite lookup_delete_eq, Hs. simpl. by rewrite He.
      * by rewrite lookup_delete_ne.
    + destruct (decide (k = outpoint_hash (prevout txin))) as [-> | Hne].
      * by rewrite lookup_insert_eq, Hs.
      * by rewrite lookup_insert_ne.
  - destruct (decide (k = outpoint_hash (prevout txin))) as [-> | Hne]; [| done].
    rewrite Hs. simpl. gset_members.
Qed.

Lemma foldl_byprev_erase h l mp k :
  spenders (foldl (byprev_erase h) mp l) k
  = if bool_decide (k ∈ (fun txin => outpoint_hash (prevout txin)) <$> l)
    then spenders mp k ∖ {[h]} else spenders mp k.
Proof.
  revert mp. induction l as [| a l IH]; intros mp; simpl; [done |].
  rewrite IH, byprev_erase_spenders.
  change (list_fmap CTxIn uint256 ?f l) with (f <$> l).
  destruct (decide (k = outpoint_hash (prevout a))) as [-> | Hne].
  - rewrite (bool_decide_eq_true_2 (_ ∈ _ :: _)) by left.
    case_bool_decide; gset_members.
  - destruct (decide (k ∈ (fun txin => outpoint_hash (prevout txin)) <$> l)).
    + rewrite !bool_decide_eq_true_2; [done | by right | done].
    + rewrite !bool_decide_eq_false_2; [done | | done].
      intros [? | ?]%elem_of_cons; done.
Qed.

Lemma evicted_from_refl g : evicted_from g g.
Proof.
  split; [done |]. split; [done |]. intros h o Ho Hn. congruence.
Qed.

Section Eviction.
Context `{TxSerializer}.

Lemma EraseOrphanTx_present h g o :
  mapOrphanTransactions g !! h = Some o ->
  mapOrphanTransactions (EraseOrphanTx h g) = delete h (mapOrphanTransactions g)
  /\ forall prev,
       spenders (mapOrphanTransactionsByPrev (EraseOrphanTx h g)) prev
       = if bool_decide (prev ∈ prev_hashes (tx o))
         then spenders (mapOrphanTransactionsByPrev g) prev ∖ {[h]}
         else spenders (mapOrphanTransactionsByPrev g) prev.
Proof.
  intros Ho. unfold EraseOrphanTx. rewrite Ho. simpl. split; [done |].
  intros prev. apply foldl_byprev_erase.
Qed.

Lemma evicted_from_step g g1 h o :
  evicted_from g g1 ->
  mapOrphanTransactions g1 !! h = Some o ->
  evicted_from g (EraseOrphanTx h g1).
Proof.
  intros (Hsub & Hshrink & Hgone) Ho.
  destruct (EraseOrphanTx_present h g1 o Ho) as [Hm Hs].
  assert (forall prev,
             spenders (mapOrphanTransactionsByPrev (EraseOrphanTx h g1)) prev
             ⊆ spenders (mapOrphanTransactionsByPrev g1) prev) as Hshrink1.
  { intros prev x. rewrite Hs. case_bool_decide; [| done].
    rewrite elem_of_difference. tauto. }
  split; [| split].
  - rewrite Hm. etrans; [apply delete_subseteq | done].
  - intros prev. etrans; [apply Hshrink1 | apply Hshrink].
  - intros h' o' Ho' Hn' prev Hprev. rewrite Hm in Hn'.
    apply lookup_delete_None in Hn' as [<- | Hn'].
    + assert (o = o') as <-.
      { pose proof (lookup_weaken _ _ _ _ Ho Hsub). congruence. }
      rewrite Hs. rewrite bool_decide_eq_true_2 by done.
      rewrite elem_of_difference, elem_of_singleton. tauto.
    + intros Hin. apply Hshrink1 in Hin. by eapply Hgone.
Qed.

Lemma LimitOrphanTxSize_loop_spec fuel cap rnd i n g :
  (size (mapOrphanTransactions g) <= fuel)%nat ->
  0 <= n < UINT_MOD ->
  exists n' g',
    LimitOrphanTxSize_loop fuel cap rnd i n g = Some (n', g')
    /\ (N.of_nat (size (mapOrphanTransactions g')) <= cap)%N
    /\ (size (mapOrphanTransactions g') <= size (mapOrphanTransactions g))%nat
    /\ n' = (n + (Z.of_nat (size (mapOrphanTransactions g))
                  - Z.of_nat (size (mapOrphanTransactions g')))) mod UINT_MOD
    /\ evicted_from g g'
    /\ ((N.of_nat (size (mapOrphanTransactions g)) <= cap)%N -> g' = g).
Proof.
  revert i n g. induction fuel as [| fuel IH]; intros i n g Hfuel Hn; simpl.
  - destruct (N.ltb_spec cap (N.of_nat (size (mapOrphanTransactions g))));
      [lia |].
    exists n, g. split; [done |]. split; [done |]. split; [done |].
    split; [| split; [apply evicted_from_refl | done]].
    rewrite Z.sub_diag, Z.add_0_r, Z.mod_small; done.
  - destruct (N.ltb_spec cap (N.of_nat (size (mapOrphanTransactions g))))
      as [Hgt | Hle].
    + assert (exists it o,
                 match map_lower_bound (rnd i) (mapOrphanTransactions g) with
                 | Some k => Some k
                 | None => map_begin (mapOrphanTransactions g)
                 end = Some it
                 /\ mapOrphanTransactions g !! it = Some o) as (it & o & -> & Ho).
      { destruct (map_lower_bound (rnd i) (mapOrphanTransactions g)) as [k |] eqn:Hlb.
        - destruct (map_lower_bound_Some _ _ _ Hlb) as [o Ho]. by exists k, o.
        - destruct (map_begin_nonempty (mapOrphanTransactions g)) as [k Hk]; [lia |].
          destruct (map_begin_Some _ _ Hk) as [o Ho]. by exists k, o. }
      simpl.
      destruct (EraseOrphanTx_present it g o Ho) as [Hm Hs].
      assert (size (mapOrphanTransactions (EraseOrphanTx it g))
              = pred (size (mapOrphanTransactions g))) as Hsz.
      { rewrite Hm. by apply map_size_delete_Some. }
      assert (size (mapOrphanTransactions g) <> O) as Hpos by lia.
      destruct (IH (S i) ((n + 1) mod UINT_MOD) (EraseOrphanTx it g))
        as (n' & g' & Hrun & Hcap & Hle' & Hn' & Hev & _).
      { lia. }
      { apply Z.mod_pos_bound. done. }
      exists n', g'. split; [done |]. split; [done |]. split; [lia |].
      split; [| split].
      * rewrite Hn', Hsz. rewrite Z.add_mod_idemp_l by done.
        f_equal. lia.
      * destruct Hev as (Hsub & Hshrink & Hgone).
        destruct (evicted_from_step g g it o (evicted_from_refl g) Ho)
          as (Hsub1 & Hshrink1 & Hgone1).
        split; [etrans; [apply Hsub | apply Hsub1] |].
        split; [intros prev; etrans; [apply Hshrink | apply Hshrink1] |].
        intros h' o' Ho' Hn'' prev Hprev.
        destruct (mapOrphanTransactions (EraseOrphanTx it g) !! h')
          as [o1 |] eqn:Ho1.
        -- assert (o1 = o') as ->.
           { pose proof (lookup_weaken _ _ _ _ Ho1 Hsub1). congruence. }
           by eapply Hgone.
        -- intros Hin. apply Hshrink in Hin. by eapply Hgone1.
      * lia.
    + exists n, g. split; [done |]. split; [done |]. split; [done |].
      split; [| split; [apply evicted_from_refl | done]].
      rewrite Z.sub_diag, Z.add_0_r, Z.mod_small; done.
Qed.

(** C7: [LimitOrphanTxSize] terminates for every cap, leaves at most
    [nMaxOrphans] entries in the pool, returns the number of entries it
    erased (as an [unsigned int], hence exactly that number whenever the
    pool held fewer than 2^32 entries), and every entry it erased is
    gone from the reverse-index sets of all its inputs. *)
Theorem LimitOrphanTxSize_spec (nMaxOrphans : N) (rnd : nat -> uint256)
    (g : Globals) :
  exists nEvicted g',
    LimitOrphanTxSize nMaxOrphans rnd g = Some (nEvicted, g')
    /\ (N.of_nat (size (mapOrphanTransactions g')) <= nMaxOrphans)%N
    /\ nEvicted = (Z.of_nat (size (mapOrphanTransactions g))
                   - Z.of_nat (size (mapOrphanTransactions g'))) mod UINT_MOD
    /\ (Z.of_nat (size (mapOrphanTransactions g)) < UINT_MOD ->
        nEvicted = Z.of_nat (size (mapOrphanTransactions g))
                   - Z.of_nat (size (mapOrphanTransactions g')))
    /\ mapOrphanTransactions g' ⊆ mapOrphanTransactions g
    /\ (forall h o,
           mapOrphanTransactions g !! h = Some o ->
           mapOrphanTransactions g' !! h = None ->
           forall txin, txin ∈ vin (tx o) ->
             h ∉ spenders (mapOrphanTransactionsByPrev g')
                          (outpoint_hash (prevout txin))).
Proof.
  unfold LimitOrphanTxSize.
  destruct (LimitOrphanTxSize_loop_spec
              (size (mapOrphanTransactions g)) nMaxOrphans rnd O 0 g)
    as (n' & g' & Hrun & Hcap & Hle & Hn & (Hsub & _ & Hgone) & _).
  { done. }
  { unfold UINT_MOD. lia. }
  exists n', g'. split; [done |]. split; [done |].
  rewrite Z.add_0_l in Hn. split; [done |].
  split; [| split; [done |]].
  - intros Hsmall. rewrite Hn. apply Z.mod_small. lia.
  - intros h o Ho Hn' txin Hin. eapply Hgone; [done | done |].
    apply list_elem_of_fmap. by exists txin.
Qed.

End Eviction.

(** ** A second VERSION message *)

(** C8 (amended): when the peer's recorded version is already non-zero, a
    VERSION message that is not discarded by [-dropmessagestest] is
    answered with exactly one REJECT carrying the duplicate code, raises the
    misbehaviour score of the (registered) peer by exactly 1, and processes
    none of the fields of the message: the connection object, the other
    peers and all tables stay as they are, and of the peer's own state only
    [fShouldBan] may change besides the score, being set when this +1
    crosses [banscore]. *)
Theorem duplicate_version_rejected
    (ProcessVersionFields : CNode -> list byte -> Globals -> option Outcome)
    (ProcessOtherCommand :
       CNode -> string -> list byte -> Z -> Globals -> option Outcome)
    (env : Env) (pfrom : CNode) (vRecv : list byte) (nTimeReceived : Z)
    (drop_draw : Z) (g : Globals) (st : CNodeState) :
  nVersion pfrom <> 0 ->
  dropmessagestest env = None \/ drop_draw <> 0 ->
  mapNodeState g !! id pfrom = Some st ->
  INT_MIN <= nMisbehavior st ->
  nMisbehavior st + 1 <= INT_MAX ->
  let crossed :=
    banscore env <= nMisbehavior st + 1 /\ nMisbehavior st < banscore env in
  exists ban,
    ProcessMessage ProcessVersionFields ProcessOtherCommand env pfrom "version"
                   vRecv nTimeReceived drop_draw g
    = Some (false, pfrom,
            set_mapNodeState
              (<[id pfrom := set_misbehavior st (nMisbehavior st + 1) ban]>
                 (mapNodeState g)) g,
            [NetReject "version" REJECT_DUPLICATE "Duplicate version message"])
    /\ (crossed -> ban = true)
    /\ (~ crossed -> ban = fShouldBan st).
Proof.
  intros Hver Hdrop Hst Hlo Hhi crossed.
  eexists. split.
  - unfold ProcessMessage.
    assert (bool_decide (is_Some (dropmessagestest env)) && (drop_draw =? 0)
            = false) as ->.
    { destruct Hdrop as [-> | Hd].
      - rewrite bool_decide_eq_false_2; [done |]. by intros [? ?].
      - apply andb_false_iff. right. by apply Z.eqb_neq. }
    change (is_filter_command "version") with false.
    rewrite !andb_false_r. simpl.
    rewrite (proj2 (Z.eqb_neq _ _) Hver). simpl.
    rewrite (Misbehaving_registered (banscore env) (id pfrom) 1
               "multiple-version" g st Hst) by int_range.
    reflexivity.
  - subst crossed.
    destruct (Z.leb_spec (banscore env) (nMisbehavior st + 1));
      destruct (Z.ltb_spec (nMisbehavior st) (banscore env)); simpl;
      split; intros; try done; lia.
Qed.

(** ** PONG *)

(** The cases of the PONG handler, field by field. *)
Ltac pong_case pfrom :=
  repeat split; intros; simpl in *; try done; try lia; try tauto;
  try (destruct pfrom; unfold set_ping in *; simpl in *; congruence).

(** C9 (amended): the PONG handler records a round-trip time only when the
    received nonce equals the outstanding non-zero ping nonce (and then
    does so whenever the measured time is positive).  It clears the
    outstanding nonce when the nonce matches, and also when a ping is
    outstanding and the PONG carries nonce zero, and when the payload is
    shorter than eight bytes.  A PONG without an outstanding ping changes
    nothing, and no PONG changes anything but the outstanding nonce, the
    RTT and the minimum RTT. *)
Theorem ProcessPong_spec (pfrom : CNode) (vRecv : list byte) (nTimeReceived : Z) :
  let nonce := read_le 8 vRecv in
  let sent := nPingNonceSent pfrom in
  let full := 8 <=? Z.of_nat (length vRecv) in
  let rtt := nTimeReceived - nPingUsecStart pfrom in
  (INT64_MIN <= rtt <= INT64_MAX ->
   is_Some (ProcessPong pfrom vRecv nTimeReceived))
  /\ forall pfrom',
      ProcessPong pfrom vRecv nTimeReceived = Some pfrom' ->
      pfrom' = set_ping pfrom (fPingQueued pfrom) (nPingNonceSent pfrom')
                        (nPingUsecStart pfrom) (nPingUsecTime pfrom')
                        (nMinPingUsecTime pfrom')
      /\ (nPingUsecTime pfrom' <> nPingUsecTime pfrom
          \/ nMinPingUsecTime pfrom' <> nMinPingUsecTime pfrom ->
          full = true /\ sent <> 0 /\ nonce = sent)
      /\ (full = true -> sent <> 0 -> nonce = sent -> 0 < rtt ->
          nPingUsecTime pfrom' = rtt
          /\ nMinPingUsecTime pfrom' = Z.min (nMinPingUsecTime pfrom) rtt)
      /\ nPingNonceSent pfrom'
         = (if negb full
               || (negb (sent =? 0) && ((nonce =? sent) || (nonce =? 0)))
            then 0 else sent)
      /\ (sent = 0 -> pfrom' = pfrom).
Proof.
  intros nonce sent full rtt. unfold ProcessPong.
  fold nonce. fold full. fold rtt. subst sent. clearbody nonce full rtt.
  split.
  - intros Hr. destruct full; [| done].
    destruct (nPingNonceSent pfrom =? 0); simpl; [done |].
    destruct (nonce =? nPingNonceSent pfrom); [| by destruct (nonce =? 0)].
    destruct (int64_checked rtt) as [r |] eqn:Hc.
    + simpl. by destruct (0 <? r).
    + unfold int64_checked in Hc. by rewrite bool_decide_eq_true_2 in Hc.
  - intros pfrom' Hrun.
    destruct full; simpl in *.
    + destruct (Z.eqb_spec (nPingNonceSent pfrom) 0) as [Hs0 | Hs0]; simpl in *.
      * injection Hrun as <-. pong_case pfrom.
      * destruct (Z.eqb_spec nonce (nPingNonceSent pfrom)) as [Hm | Hm];
          simpl in *.
        -- destruct (int64_checked rtt) as [r |] eqn:Hc; simpl in Hrun; [| done].
           apply int64_checked_Some in Hc as [-> _].
           destruct (Z.ltb_spec 0 rtt); injection Hrun as <-; pong_case pfrom.
        -- destruct (Z.eqb_spec nonce 0); injection Hrun as <-; pong_case pfrom.
    + injection Hrun as <-. pong_case pfrom.
Qed.

(** ** The outbound tick before the handshake is complete *)

(** C10: for a peer whose handshake is not complete or that is marked for
    disconnection, [SendMessages] returns at once: it pushes no message and
    leaves the connection object and the global tables as they are. *)
Theorem SendMessages_not_connected
    (SendMessagesLocked : CNode -> Globals -> list NetMsg -> option Outcome)
    (env : Env) (pto : CNode) (now1 now2 : Z) (fuel : nat) (rand : nat -> Z)
    (lockMain : bool) (g : Globals) :
  fSuccessfullyConnected pto = false \/ fDisconnect pto = true ->
  SendMessages SendMessagesLocked env pto now1 now2 fuel rand lockMain g
  = Some (true, pto, g, []).
Proof.
  intros Hguard. unfold SendMessages.
  assert (negb (fSuccessfullyConnected pto) || fDisconnect pto = true) as ->.
  { destruct Hguard as [-> | ->]; [done | apply orb_true_r]. }
  done.
Qed.

(** * Worked examples *)


Lemma two_peers_reachable : reachable ex_two_peers.
Proof.
  unfold ex_two_peers.
  eapply reachable_step; [| apply step_InitializeNode].
  eapply reachable_step; [| apply step_InitializeNode].
  apply reachable_init.
Qed.

Lemma one_in_flight_run :
  MarkBlockAsInFlight 7 (ex_hash_of "a") (Some 1%nat) 10 10 ex_two_peers
  = Some ex_one_in_flight.
Proof. vm_compute. reflexivity. Qed.

Lemma one_in_flight_reachable : reachable ex_one_in_flight.
Proof.
  eapply reachable_step; [apply two_peers_reachable |].
  eapply step_MarkBlockAsInFlight. apply one_in_flight_run.
Qed.

Lemma last_peer_reachable : reachable ex_last_peer.
Proof.
  eapply reachable_step; [apply one_in_flight_reachable |].
  eapply (step_FinalizeNode _ 8 false). vm_compute. reflexivity.
Qed.

(** The pool keeps its index in step with its entries. *)
Example ex_three_orphans_index :
  size (mapOrphanTransactions ex_three_orphans) = 3%nat
  /\ size (spenders (mapOrphanTransactionsByPrev ex_three_orphans)
                    (ex_hash_of "p")) = 2%nat
  /\ bool_decide (ex_hash_of "b"
                  ∈ spenders (mapOrphanTransactionsByPrev ex_three_orphans)
                             (ex_hash_of "p")) = true
  /\ bool_decide (ex_hash_of "a"
                  ∈ spenders (mapOrphanTransactionsByPrev ex_three_orphans)
                             (ex_hash_of "p")) = false.
Proof. vm_compute. done. Qed.

(** ** Instances of the theorems *)

Lemma validated_counter_preserved_witness :
  validated_counter_ok ex_two_peers /\ validated_counter_ok ex_one_in_flight.
Proof.
  assert (validated_counter_ok ex_two_peers) as Hok by (vm_compute; reflexivity).
  split; [exact Hok |].
  apply (proj1 (validated_counter_preserved ex_two_peers Hok)
               7 (ex_hash_of "a") (Some 1%nat) 10 10).
  vm_compute. reflexivity.
Defined.

Lemma FinalizeNode_last_peer_consistent_witness :
  exists b g',
    FinalizeNode 7 ex_last_peer = Some (b, g')
    /\ mapNodeState g' = delete 7 (mapNodeState ex_last_peer)
    /\ (mapNodeState g' = ∅ ->
        mapBlocksInFlight g' = ∅
        /\ nPreferredDownload g' = 0
        /\ nPeersWithValidatedDownloads g' = 0).
Proof.
  apply FinalizeNode_last_peer_consistent.
  - apply last_peer_reachable.
  - eexists. vm_compute. reflexivity.
Defined.

(** The last peer leaves: the check passes on empty tables. *)
Example ex_last_peer_finalized :
  (fun r => (r.1, size (mapNodeState r.2), size (mapBlocksInFlight r.2),
             nPreferredDownload r.2, nPeersWithValidatedDownloads r.2))
    <$> FinalizeNode 7 ex_last_peer
  = Some (false, O, O, 0, 0).
Proof. vm_compute. reflexivity. Qed.

Lemma mark_in_flight_then_received_index_witness :
  exists g1 g2,
    MarkBlockAsInFlight 8 (ex_hash_of "b") None 20 20 ex_one_in_flight = Some g1
    /\ MarkBlockAsReceived (ex_hash_of "b") 30 g1 = Some (true, g2).
Proof.
  apply (proj2 (mark_in_flight_then_received_index
                  8 (ex_hash_of "b") None 20 20 30 ex_one_in_flight)
               CNodeState_new).
  - apply reachable_wf, one_in_flight_reachable.
  - vm_compute. reflexivity.
  - vm_compute. reflexivity.
  - vm_compute. reflexivity.
Defined.

(** C3 as stated fails when the block is already in flight: peer 7 holds
    block [aa..]; marking it in flight at peer 8 and then received leaves
    the index empty, not as it was. *)
Lemma mark_in_flight_then_received_counterexample :
  exists g1 g2,
    MarkBlockAsInFlight 8 (ex_hash_of "a") None 20 20 ex_one_in_flight = Some g1
    /\ MarkBlockAsReceived (ex_hash_of "a") 30 g1 = Some (true, g2)
    /\ mapBlocksInFlight ex_one_in_flight !! ex_hash_of "a" = Some (7, O)
    /\ mapBlocksInFlight g2 !! ex_hash_of "a" = None
    /\ mapBlocksInFlight g2 <> mapBlocksInFlight ex_one_in_flight.
Proof.
  eexists _, _. split; [vm_compute; reflexivity |].
  split; [vm_compute; reflexivity |].
  split; [vm_compute; reflexivity |].
  split; [vm_compute; reflexivity |].
  intros Heq. apply (f_equal (fun m => m !! ex_hash_of "a")) in Heq.
  vm_compute in Heq. discriminate Heq.
Qed.

Lemma Misbehaving_crosses_threshold_witness :
  exists ban,
    Misbehaving 100 7 1 "multiple-version" ex_almost_banned
    = Some (set_mapNodeState
              (<[7 := set_misbehavior (set_misbehavior CNodeState_new 99 false)
                                      (99 + 1) ban]>
                 (mapNodeState ex_almost_banned)) ex_almost_banned)
    /\ ban = true.
Proof.
  destruct (Misbehaving_crosses_threshold 100 7 1 "multiple-version"
              ex_almost_banned (set_misbehavior CNodeState_new 99 false))
    as (ban & Hrun & Hyes & _).
  - vm_compute. reflexivity.
  - reflexivity.
  - vm_compute. discriminate.
  - vm_compute. discriminate.
  - exists ban. split; [exact Hrun |]. apply Hyes. simpl. lia.
Defined.

Lemma AlreadyHave_tx_witness :
  exists b filter',
    AlreadyHave (mkCInv MSG_TX (ex_hash_of "t"))
                (mkChainView (ex_hash_of "2") (fun _ => false) (fun _ => false)
                             (fun _ => false) (fun _ => false))
                ex_two_peers
                (mkRejectsState (Some [ex_hash_of "t"]) (ex_hash_of "1"))
    = Some (b, mkRejectsState (Some filter') (ex_hash_of "2"))
    /\ filter' = [] /\ b = false.
Proof.
  destruct (AlreadyHave_tx (ex_hash_of "t")
              (mkChainView (ex_hash_of "2") (fun _ => false) (fun _ => false)
                           (fun _ => false) (fun _ => false))
              ex_two_peers [ex_hash_of "t"] (ex_hash_of "1"))
    as (b & filter' & Hrun & Hreset & _ & Hb).
  exists b, filter'. split; [exact Hrun |].
  assert (filter' = []) as ->.
  { apply Hreset. simpl. intros Heq. discriminate Heq. }
  split; [reflexivity |].
  destruct b; [| reflexivity].
  destruct (proj1 Hb eq_refl) as [Hc | [Hc | [Hc | [Hc | Hc]]]];
    try discriminate Hc.
  destruct Hc as [o Ho]. vm_compute in Ho. discriminate Ho.
Defined.

Lemma AddOrphanTx_spec_witness :
  AddOrphanTx (ex_spend "p" "b") 7 ex_three_orphans = (false, ex_three_orphans)
  /\ exists g',
      AddOrphanTx (ex_spend "p" "d") 8 ex_three_orphans = (true, g')
      /\ ex_hash_of "d" ∈ spenders (mapOrphanTransactionsByPrev g') (ex_hash_of "p").
Proof.
  split.
  - apply (proj1 (AddOrphanTx_spec (ex_spend "p" "b") 7 ex_three_orphans)).
    left. eexists. vm_compute. reflexivity.
  - destruct (proj2 (AddOrphanTx_spec (ex_spend "p" "d") 8 ex_three_orphans))
      as (g' & Hrun & _ & Hin & _).
    + vm_compute. reflexivity.
    + vm_compute. discriminate.
    + exists g'. split; [exact Hrun |].
      apply (Hin (mkCTxIn (mkCOutPoint (ex_hash_of "p") 0))). left.
Defined.

Lemma LimitOrphanTxSize_spec_witness :
  exists nEvicted g',
    LimitOrphanTxSize 1 (fun _ => ex_hash_of "b") ex_three_orphans
    = Some (nEvicted, g')
    /\ (N.of_nat (size (mapOrphanTransactions g')) <= 1)%N
    /\ nEvicted = Z.of_nat (size (mapOrphanTransactions ex_three_orphans))
                  - Z.of_nat (size (mapOrphanTransactions g')).
Proof.
  destruct (LimitOrphanTxSize_spec 1 (fun _ => ex_hash_of "b") ex_three_orphans)
    as (n & g' & Hrun & Hcap & _ & Hexact & _).
  exists n, g'. split; [exact Hrun |]. split; [exact Hcap |].
  apply Hexact. vm_compute. reflexivity.
Defined.

(** Eviction down to one entry: [lower_bound] of [bb..] picks [bb..], then
    [cc..]; two entries are erased and [aa..] stays. *)
Example ex_limit_orphans :
  (fun r => (r.1, map_keys (mapOrphanTransactions r.2),
             size (mapOrphanTransactionsByPrev r.2)))
    <$> LimitOrphanTxSize 1 (fun _ => ex_hash_of "b") ex_three_orphans
  = Some (2, [ex_hash_of "a"], 1%nat).
Proof. vm_compute. reflexivity. Qed.

Lemma duplicate_version_rejected_witness :
  exists ban,
    ProcessMessage ex_no_version_fields ex_no_other_command ex_env
                   (ex_peer 7 70015 true 0) "version" [] 0 0 ex_two_peers
    = Some (false, ex_peer 7 70015 true 0,
            set_mapNodeState
              (<[7 := set_misbehavior CNodeState_new (0 + 1) ban]>
                 (mapNodeState ex_two_peers)) ex_two_peers,
            [NetReject "version" REJECT_DUPLICATE "Duplicate version message"])
    /\ ban = false.
Proof.
  destruct (duplicate_version_rejected ex_no_version_fields ex_no_other_command
              ex_env (ex_peer 7 70015 true 0) [] 0 0 ex_two_peers CNodeState_new)
    as (ban & Hrun & _ & Hno).
  - vm_compute. discriminate.
  - left. reflexivity.
  - vm_compute. reflexivity.
  - vm_compute. discriminate.
  - vm_compute. discriminate.
  - exists ban. split; [exact Hrun |]. apply Hno. simpl. lia.
Defined.

(** C8 as stated fails in two ways.  At one point below the ban threshold
    the +1 of a duplicate VERSION also sets [fShouldBan], a change of peer
    state besides the score; and with [-dropmessagestest] set a message
    whose draw is zero is discarded before the VERSION test, so that no
    REJECT is sent and the score stays. *)
Lemma duplicate_version_counterexample :
  (fShouldBan <$> mapNodeState ex_almost_banned !! 7) = Some false
  /\ (fun r : Outcome => (r.2, fShouldBan <$> mapNodeState r.1.2 !! 7))
       <$> ProcessMessage ex_no_version_fields ex_no_other_command ex_env
                          (ex_peer 7 70015 true 0) "version" [] 0 0
                          ex_almost_banned
     = Some ([NetReject "version" REJECT_DUPLICATE "Duplicate version message"],
             Some true)
  /\ ProcessMessage ex_no_version_fields ex_no_other_command
                    {| banscore := 100; dropmessagestest := Some 1;
                       enforcenodebloom := false; NODE_BLOOM := 4;
                       NO_BLOOM_VERSION := 70011; PING_INTERVAL := 120 |}
                    (ex_peer 7 70015 true 0) "version" [] 0 0 ex_two_peers
     = Some (true, ex_peer 7 70015 true 0, ex_two_peers, []).
Proof. vm_compute. done. Qed.

Lemma ProcessPong_spec_witness :
  ProcessPong (ex_peer 7 70015 true 5) (ex_pong_payload x05) 4000
  = Some (set_ping (ex_peer 7 70015 true 5) false 0 1000 3000 3000).
Proof.
  destruct (ProcessPong_spec (ex_peer 7 70015 true 5) (ex_pong_payload x05) 4000)
    as [Htotal Hspec].
  destruct Htotal as [pfrom' Hrun].
  - vm_compute. split; discriminate.
  - destruct (Hspec pfrom' Hrun) as (Hshape & _ & Hrtt & Hnonce & _).
    assert (nPingNonceSent (ex_peer 7 70015 true 5) <> 0) as Hsent
      by (vm_compute; discriminate).
    destruct (Hrtt eq_refl Hsent eq_refl eq_refl) as [Htime Hmin].
    rewrite Hrun, Hshape, Htime, Hmin, Hnonce. reflexivity.
Defined.

(** C9 as stated fails for a PONG with nonce zero while a ping is
    outstanding: the handler cancels the ping, so the outstanding nonce
    (here 5) is cleared although the received nonce does not equal it.  A
    payload shorter than eight bytes does the same. *)
Lemma ProcessPong_counterexample :
  nPingNonceSent (ex_peer 7 70015 true 5) = 5
  /\ read_le 8 (ex_pong_payload x00) = 0
  /\ nPingNonceSent
       <$> ProcessPong (ex_peer 7 70015 true 5) (ex_pong_payload x00) 4000
     = Some 0
  /\ nPingNonceSent <$> ProcessPong (ex_peer 7 70015 true 5) [x05] 4000
     = Some 0.
Proof. vm_compute. done. Qed.

(** Through the dispatcher: a PONG is handled by [ProcessPong] and pushes
    no message. *)
Example ex_dispatch_pong :
  ProcessMessage ex_no_version_fields ex_no_other_command ex_env
                 (ex_peer 7 70015 true 5) "pong" (ex_pong_payload x05) 4000 0
                 ex_two_peers
  = Some (true, set_ping (ex_peer 7 70015 true 5) false 0 1000 3000 3000,
          ex_two_peers, []).
Proof. vm_compute. reflexivity. Qed.

Lemma SendMessages_not_connected_witness :
  SendMessages ex_no_locked_tick ex_env (ex_peer 7 70015 false 0)
               200000000 200000001 4 (fun _ => 9) true ex_two_peers
  = Some (true, ex_peer 7 70015 false 0, ex_two_peers, []).
Proof.
  apply SendMessages_not_connected. left. reflexivity.
Defined.

(** Once connected, the same tick sends a ping and records its nonce. *)
Example ex_tick_pings :
  SendMessages ex_no_locked_tick ex_env (ex_peer 7 70015 true 0)
               200000000 200000001 4 (fun _ => 9) false ex_two_peers
  = Some (true, set_ping (ex_peer 7 70015 true 0) false 9 200000001 0 5000,
          ex_two_peers, [NetPing 9]).
Proof. vm_compute. reflexivity. Qed.

(** * More of the orphan pool *)

Lemma byprev_insert_no_empty h mp txin :
  no_empty_sets mp -> no_empty_sets (byprev_insert h mp txin).
Proof.
  intros Hne prev s. unfold byprev_insert.
  destruct (decide (prev = outpoint_hash (prevout txin))) as [-> | Hd].
  - rewrite lookup_insert_eq. intros [= <-] He.
    assert (h ∈ (∅ : gset uint256)) as Hin.
    { rewrite <- He. apply elem_of_union. right. by apply elem_of_singleton. }
    by apply elem_of_empty in Hin.
  - rewrite lookup_insert_ne by done. apply Hne.
Qed.

Lemma byprev_erase_no_empty h mp txin :
  no_empty_sets mp -> no_empty_sets (byprev_erase h mp txin).
Proof.
  intros Hne prev s. unfold byprev_erase.
  destruct (mp !! outpoint_hash (prevout txin)) as [s0 |] eqn:Hs0; [| apply Hne].
  destruct (decide (s0 ∖ {[h]} = ∅)) as [He | He].
  - intros Hl. apply lookup_delete_Some in Hl as [_ Hl]. by eapply Hne.
  - destruct (decide (prev = outpoint_hash (prevout txin))) as [-> | Hd].
    + rewrite lookup_insert_eq. by intros [= <-].
    + rewrite lookup_insert_ne by done. apply Hne.
Qed.

Lemma foldl_no_empty (f : gmap uint256 (gset uint256) -> CTxIn ->
                          gmap uint256 (gset uint256)) l mp :
  (forall m txin, no_empty_sets m -> no_empty_sets (f m txin)) ->
  no_empty_sets mp -> no_empty_sets (foldl f mp l).
Proof.
  intros Hf. revert mp. induction l as [| a l IH]; intros mp Hne; simpl; auto.
Qed.

(** Two reverse indexes without empty sets that agree on every set are
    the same map. *)
Lemma byprev_ext mp mp' :
  no_empty_sets mp -> no_empty_sets mp' ->
  (forall prev, spenders mp prev = spenders mp' prev) -> mp = mp'.
Proof.
  intros Hne Hne' Heq. apply map_eq. intros prev.
  specialize (Heq prev). unfold spenders in Heq.
  destruct (mp !! prev) as [s |] eqn:Hs, (mp' !! prev) as [s' |] eqn:Hs';
    simpl in Heq.
  - by rewrite Heq.
  - subst s. by apply Hne in Hs.
  - subst s'. by apply Hne' in Hs'.
  - done.
Qed.

Section OrphanInvariant.
Context `{TxSerializer}.

Lemma orphan_pool_wf_init g :
  mapOrphanTransactions g = ∅ -> mapOrphanTransactionsByPrev g = ∅ ->
  orphan_pool_wf g.
Proof.
  intros Hm Hp. unfold orphan_pool_wf, spenders. rewrite Hm, Hp.
  split; [| split].
  - intros h o Ho. by rewrite lookup_empty in Ho.
  - intros prev h. rewrite lookup_empty. simpl. split.
    + intros Hin. by apply elem_of_empty in Hin.
    + intros (o & Ho & _). by rewrite lookup_empty in Ho.
  - intros prev s Hs. by rewrite lookup_empty in Hs.
Qed.

Lemma AddOrphanTx_wf t peer g :
  orphan_pool_wf g -> orphan_pool_wf (AddOrphanTx t peer g).2.
Proof.
  intros (Hkey & Hidx & Hne). unfold AddOrphanTx.
  destruct (mapOrphanTransactions g !! GetHash t) as [o0 |] eqn:Hh; [done |].
  destruct (5000 <? GetSerializeSize t); [done |].
  unfold orphan_pool_wf. simpl. split; [| split].
  - intros h o Ho. destruct (decide (h = GetHash t)) as [-> | Hd].
    + rewrite lookup_insert_eq in Ho. by injection Ho as <-.
    + rewrite lookup_insert_ne in Ho by done. by apply Hkey.
  - intros prev h. rewrite foldl_byprev_insert.
    fold (prev_hashes t). rewrite elem_of_union, Hidx.
    destruct (decide (h = GetHash t)) as [-> | Hd].
    + rewrite lookup_insert_eq. split.
      * intros [(o & Ho & _) | Hin]; [congruence |].
        case_bool_decide; [| by apply elem_of_empty in Hin].
        by eexists.
      * intros (o & [= <-] & Hin). right.
        rewrite bool_decide_eq_true_2 by done. by apply elem_of_singleton.
    + rewrite lookup_insert_ne by done. split; [| by left].
      intros [Hold | Hin]; [done |].
      case_bool_decide; [| by apply elem_of_empty in Hin].
      by apply elem_of_singleton in Hin.
  - apply foldl_no_empty; [| done].
    intros m txin. apply byprev_insert_no_empty.
Qed.

Lemma EraseOrphanTx_wf h g :
  orphan_pool_wf g -> orphan_pool_wf (EraseOrphanTx h g).
Proof.
  intros (Hkey & Hidx & Hne). unfold EraseOrphanTx.
  destruct (mapOrphanTransactions g !! h) as [o |] eqn:Hh; [| done].
  unfold orphan_pool_wf. simpl. split; [| split].
  - intros h' o' Ho'. apply lookup_delete_Some in Ho' as [_ Ho']. by apply Hkey.
  - intros prev h'. rewrite foldl_byprev_erase. fold (prev_hashes (tx o)).
    destruct (decide (h' = h)) as [-> | Hd].
    + rewrite lookup_delete_eq. split; [| by intros (? & ? & _)].
      case_bool_decide as Hp.
      * rewrite elem_of_difference, elem_of_singleton. tauto.
      * intros Hin. apply Hidx in Hin as (o' & Ho' & Hin). congruence.
    + rewrite lookup_delete_ne by done. rewrite <- Hidx.
      case_bool_decide; [| done].
      rewrite elem_of_difference, elem_of_singleton. tauto.
  - apply foldl_no_empty; [| done].
    intros m txin. apply byprev_erase_no_empty.
Qed.

Lemma foldl_EraseOrphanTx_wf l g :
  orphan_pool_wf g ->
  orphan_pool_wf (foldl (fun g h => EraseOrphanTx h g) g l).
Proof.
  revert g. induction l as [| h l IH]; intros g Hwf; simpl; [done |].
  apply IH. by apply EraseOrphanTx_wf.
Qed.

Lemma EraseOrphansFor_wf peer g :
  orphan_pool_wf g -> orphan_pool_wf (EraseOrphansFor peer g).
Proof.
  unfold EraseOrphansFor. generalize (map_keys (mapOrphanTransactions g)).
  intros l. revert g. induction l as [| k l IH]; intros g Hwf; simpl; [done |].
  apply IH. destruct (mapOrphanTransactions g !! k) as [o |]; [| done].
  case_bool_decide; [by apply EraseOrphanTx_wf | done].
Qed.

Lemma LimitOrphanTxSize_loop_wf fuel cap rnd i n g n' g' :
  orphan_pool_wf g ->
  LimitOrphanTxSize_loop fuel cap rnd i n g = Some (n', g') ->
  orphan_pool_wf g'.
Proof.
  revert i n g. induction fuel as [| fuel IH]; intros i n g Hwf; simpl.
  - destruct (cap <? _)%N; [done |]. by intros [= <- <-].
  - destruct (cap <? _)%N; [| by intros [= <- <-]].
    destruct (match map_lower_bound (rnd i) (mapOrphanTransactions g) with
              | Some k => Some k
              | None => map_begin (mapOrphanTransactions g)
              end) as [it |]; simpl; [| done].
    apply IH. by apply EraseOrphanTx_wf.
Qed.

(** X1: every function of messages.cpp that writes the orphan pool keeps
    it consistent: entries stay filed under the hash of their transaction,
    the reverse index stays exactly the set of (previous hash, orphan)
    pairs of the stored orphans, and no empty set is left behind. *)
Theorem orphan_pool_consistent (g : Globals) :
  orphan_pool_wf g ->
  (forall t peer, orphan_pool_wf (AddOrphanTx t peer g).2)
  /\ (forall h, orphan_pool_wf (EraseOrphanTx h g))
  /\ (forall peer, orphan_pool_wf (EraseOrphansFor peer g))
  /\ (forall cap rnd n g',
         LimitOrphanTxSize cap rnd g = Some (n, g') -> orphan_pool_wf g')
  /\ (forall vtx, orphan_pool_wf (BlockConnected vtx g))
  /\ (forall t peer maxorphantx rnd n g',
         StoreOrphanTx t peer maxorphantx rnd g = Some (n, g') ->
         orphan_pool_wf g').
Proof.
  intros Hwf. split; [| split; [| split; [| split; [| split]]]].
  - intros. by apply AddOrphanTx_wf.
  - intros. by apply EraseOrphanTx_wf.
  - intros. by apply EraseOrphansFor_wf.
  - intros cap rnd n g' Hrun. by eapply LimitOrphanTxSize_loop_wf.
  - intros. unfold BlockConnected. by apply foldl_EraseOrphanTx_wf.
  - intros t peer maxorphantx rnd n g' Hrun. unfold StoreOrphanTx in Hrun.
    eapply LimitOrphanTxSize_loop_wf; [| exact Hrun]. by apply AddOrphanTx_wf.
Qed.

(** X2: on a consistent pool, an orphan that [AddOrphanTx] accepts and
    that is then erased through [EraseOrphanTx] leaves all tables exactly
    as they were. *)
Theorem AddOrphanTx_EraseOrphanTx_roundtrip t peer g :
  orphan_pool_wf g ->
  mapOrphanTransactions g !! GetHash t = None ->
  GetSerializeSize t <= 5000 ->
  (AddOrphanTx t peer g).1 = true
  /\ EraseOrphanTx (GetHash t) (AddOrphanTx t peer g).2 = g.
Proof.
  intros Hwf Hnone Hsmall.
  pose proof (AddOrphanTx_wf t peer g Hwf) as Hwf1.
  pose proof (EraseOrphanTx_wf (GetHash t) _ Hwf1) as Hwf2.
  revert Hwf1 Hwf2. unfold AddOrphanTx. rewrite Hnone.
  destruct (Z.ltb_spec 5000 (GetSerializeSize t)); [lia |]. simpl.
  unfold EraseOrphanTx. simpl. rewrite lookup_insert_eq. simpl.
  intros _ (_ & _ & Hne2). simpl in Hne2.
  split; [done |]. destruct Hwf as (_ & Hidx & Hne).
  destruct g as [nodes inflight source nsync npref npeers orphans byprev next].
  unfold set_orphans. simpl in *. f_equal.
  - by apply delete_insert_id.
  - apply byprev_ext; [done | done |].
    intros prev. rewrite foldl_byprev_erase, foldl_byprev_insert.
    case_bool_decide; [| gset_members].
    apply set_eq. intros h.
    rewrite elem_of_difference, elem_of_union, !elem_of_singleton.
    split; [tauto |]. intros Hin. split; [by left |].
    intros ->. apply Hidx in Hin as (o & Ho & _). congruence.
Qed.

End OrphanInvariant.

Section OrphanEviction.
Context `{TxSerializer}.

Lemma EraseOrphanTx_orphans h g :
  mapOrphanTransactions (EraseOrphanTx h g) = delete h (mapOrphanTransactions g).
Proof.
  unfold EraseOrphanTx.
  destruct (mapOrphanTransactions g !! h) eqn:Hh; [done |].
  by rewrite delete_id.
Qed.

Lemma foldl_EraseOrphanTx_lookup l g h :
  mapOrphanTransactions (foldl (fun g k => EraseOrphanTx k g) g l) !! h
  = if bool_decide (h ∈ l) then None else mapOrphanTransactions g !! h.
Proof.
  revert g. induction l as [| k l IH]; intros g; simpl; [done |].
  rewrite IH, EraseOrphanTx_orphans.
  destruct (decide (h = k)) as [-> | Hd].
  - rewrite lookup_delete_eq. rewrite (bool_decide_eq_true_2 (k ∈ k :: l)) by left.
    by case_bool_decide.
  - rewrite lookup_delete_ne by done.
    destruct (decide (h ∈ l)).
    + rewrite !bool_decide_eq_true_2; [done | by right | done].
    + rewrite !bool_decide_eq_false_2; [done | | done].
      intros [? | ?]%elem_of_cons; done.
Qed.

Lemma elem_of_set_in_order s h : h ∈ set_in_order s <-> h ∈ s.
Proof.
  unfold set_in_order. by rewrite merge_sort_Permutation, elem_of_elements.
Qed.

Lemma elem_of_BlockConnected_collect vtx g h :
  h ∈ BlockConnected_collect vtx g
  <-> exists t txin, t ∈ vtx /\ txin ∈ vin t
                     /\ h ∈ spenders (mapOrphanTransactionsByPrev g)
                                     (outpoint_hash (prevout txin)).
Proof.
  unfold BlockConnected_collect, spenders. rewrite list_elem_of_bind. split.
  - intros (t & Hin & Ht). apply list_elem_of_bind in Hin as (txin & Hin & Htxin).
    exists t, txin. split; [done |]. split; [done |].
    destruct (mapOrphanTransactionsByPrev g !! _); simpl.
    + by apply elem_of_set_in_order.
    + by apply elem_of_nil in Hin.
  - intros (t & txin & Ht & Htxin & Hin). exists t. split; [| done].
    apply list_elem_of_bind. exists txin. split; [| done].
    destruct (mapOrphanTransactionsByPrev g !! _); simpl in *.
    + by apply elem_of_set_in_order.
    + by apply elem_of_empty in Hin.
Qed.

Lemma EraseOrphansFor_orphans peer g :
  orphan_pool_wf g ->
  mapOrphanTransactions (EraseOrphansFor peer g)
  = filter (fun kv => fromPeer kv.2 <> peer) (mapOrphanTransactions g).
Proof.
  intros Hwf.
  assert (forall l g,
             orphan_pool_wf g ->
             mapOrphanTransactions
               (foldl (fun g k =>
                         match mapOrphanTransactions g !! k with
                         | Some o => if bool_decide (fromPeer o = peer)
                                     then EraseOrphanTx (GetHash (tx o)) g else g
                         | None => g
                         end) g l)
             = filter (fun kv => ~ (kv.1 ∈ l /\ fromPeer kv.2 = peer))
                      (mapOrphanTransactions g)) as Hfold.
  { clear g Hwf. induction l as [| k l IH]; intros g Hwf; simpl.
    - symmetry. apply map_filter_id. intros i x _ [Hi _].
      by apply elem_of_nil in Hi.
    - rewrite IH.
      2:{ destruct (mapOrphanTransactions g !! k) as [o |]; [| done].
          case_bool_decide; [by apply EraseOrphanTx_wf | done]. }
      apply map_eq. intros i. apply option_eq. intros x.
      rewrite !map_lookup_filter_Some. simpl.
      destruct (mapOrphanTransactions g !! k) as [o |] eqn:Hk.
      + case_bool_decide as Hp.
        * destruct Hwf as (Hkey & _). rewrite (Hkey _ _ Hk).
          rewrite EraseOrphanTx_orphans, lookup_delete_Some.
          split.
          -- intros [[Hne Hi] Hn]. split; [done |].
             intros [[-> | Hil]%elem_of_cons Hfrom]; [done | tauto].
          -- intros [Hi Hn]. split; [split; [| done] |].
             ++ intros ->. apply Hn. split; [left | congruence].
             ++ intros [Hil Hfrom]. apply Hn. split; [by right | done].
        * split.
          -- intros [Hi Hn]. split; [done |].
             intros [[-> | Hil]%elem_of_cons Hfrom]; [congruence | tauto].
          -- intros [Hi Hn]. split; [done |].
             intros [Hil Hfrom]. apply Hn. split; [by right | done].
      + split.
        * intros [Hi Hn]. split; [done |].
          intros [[-> | Hil]%elem_of_cons Hfrom]; [congruence | tauto].
        * intros [Hi Hn]. split; [done |].
          intros [Hil Hfrom]. apply Hn. split; [by right | done]. }
  unfold EraseOrphansFor. rewrite Hfold by done.
  apply map_filter_ext. intros i x Hi. simpl. split.
  - intros Hn Hfrom. apply Hn. split; [| done].
    apply elem_of_map_keys. by eexists.
  - intros Hfrom [_ ?]. done.
Qed.

(** X3: on a consistent pool [EraseOrphansFor(peer)] removes exactly the
    orphans received from that peer, and keeps the pool consistent. *)
Theorem EraseOrphansFor_exact peer g :
  orphan_pool_wf g ->
  mapOrphanTransactions (EraseOrphansFor peer g)
  = filter (fun kv => fromPeer kv.2 <> peer) (mapOrphanTransactions g)
  /\ orphan_pool_wf (EraseOrphansFor peer g).
Proof.
  intros Hwf. split; [by apply EraseOrphansFor_orphans | by apply EraseOrphansFor_wf].
Qed.

(** X4: after [BlockConnected] on a consistent pool, no orphan is left
    that spends from a transaction one of the block's transactions spends
    from; every other orphan is still in the pool. *)
Theorem BlockConnected_evicts vtx g :
  orphan_pool_wf g ->
  (forall t txin h o,
      t ∈ vtx -> txin ∈ vin t ->
      mapOrphanTransactions (BlockConnected vtx g) !! h = Some o ->
      outpoint_hash (prevout txin) ∉ prev_hashes (tx o))
  /\ (forall h o,
         mapOrphanTransactions g !! h = Some o ->
         (forall t txin, t ∈ vtx -> txin ∈ vin t ->
                         outpoint_hash (prevout txin) ∉ prev_hashes (tx o)) ->
         mapOrphanTransactions (BlockConnected vtx g) !! h = Some o)
  /\ (forall t txin, t ∈ vtx -> txin ∈ vin t ->
        spenders (mapOrphanTransactionsByPrev (BlockConnected vtx g))
                 (outpoint_hash (prevout txin)) = ∅).
Proof.
  intros Hwf.
  pose proof (foldl_EraseOrphanTx_wf (BlockConnected_collect vtx g) g Hwf) as Hwf'.
  fold (BlockConnected vtx g) in Hwf'.
  assert (forall t txin h o,
             t ∈ vtx -> txin ∈ vin t ->
             mapOrphanTransactions (BlockConnected vtx g) !! h = Some o ->
             outpoint_hash (prevout txin) ∉ prev_hashes (tx o)) as Hgone.
  { intros t txin h o Ht Htxin Ho Hprev. unfold BlockConnected in Ho.
    rewrite foldl_EraseOrphanTx_lookup in Ho.
    case_bool_decide as Hc; [done |]. apply Hc.
    apply elem_of_BlockConnected_collect. exists t, txin.
    split; [done |]. split; [done |].
    destruct Hwf as (_ & Hidx & _). apply Hidx. by exists o. }
  split; [done |]. split.
  - intros h o Ho Hfree. unfold BlockConnected.
    rewrite foldl_EraseOrphanTx_lookup. rewrite bool_decide_eq_false_2; [done |].
    intros Hc. apply elem_of_BlockConnected_collect in Hc
      as (t & txin & Ht & Htxin & Hin).
    destruct Hwf as (_ & Hidx & _). apply Hidx in Hin as (o' & Ho' & Hprev).
    assert (o' = o) as -> by congruence. by eapply Hfree.
  - intros t txin Ht Htxin. apply set_eq. intros h.
    rewrite elem_of_empty. split; [| done].
    intros Hin. destruct Hwf' as (_ & Hidx' & _).
    apply Hidx' in Hin as (o & Ho & Hprev). by eapply Hgone.
Qed.

End OrphanEviction.

Section StoreOrphan.
Context `{TxSerializer}.

(** X5: storing an orphan as the TX handler does always returns, and
    leaves at most [max(0, -maxorphantx)] (as an [unsigned int]) entries in
    the pool; with a limit of zero or less the pool ends up empty. *)
Theorem StoreOrphanTx_bounded t peer maxorphantx rnd g :
  exists nEvicted g',
    StoreOrphanTx t peer maxorphantx rnd g = Some (nEvicted, g')
    /\ Z.of_nat (size (mapOrphanTransactions g'))
       <= Z.max 0 maxorphantx mod UINT_MOD
    /\ (maxorphantx <= 0 -> mapOrphanTransactions g' = ∅)
    /\ download_part g' = download_part g.
Proof.
  unfold StoreOrphanTx, LimitOrphanTxSize.
  destruct (LimitOrphanTxSize_loop_spec
              (size (mapOrphanTransactions (AddOrphanTx t peer g).2))
              (Z.to_N (Z.max 0 maxorphantx mod UINT_MOD)) rnd O 0
              (AddOrphanTx t peer g).2)
    as (n' & g' & Hrun & Hcap & _).
  { done. }
  { unfold UINT_MOD. lia. }
  exists n', g'. split; [done |].
  assert (0 <= Z.max 0 maxorphantx mod UINT_MOD) as Hpos
    by (apply Z.mod_pos_bound; unfold UINT_MOD; lia).
  split; [lia |]. split.
  - intros Hle. apply map_size_empty_iff.
    replace (Z.max 0 maxorphantx) with 0 in Hcap by lia.
    rewrite Z.mod_0_l in Hcap by (unfold UINT_MOD; lia). simpl in Hcap. lia.
  - apply LimitOrphanTxSize_loop_download in Hrun. rewrite Hrun.
    apply AddOrphanTx_download.
Qed.

End StoreOrphan.

(** * More of the download bookkeeping *)

(** ** What a successful call has done *)

Lemma MarkBlockAsReceived_untracked h now g :
  mapBlocksInFlight g !! h = None ->
  MarkBlockAsReceived h now g = Some (false, g).
Proof. intros Hh. unfold MarkBlockAsReceived. by rewrite Hh. Qed.

Lemma MarkBlockAsReceived_tracked h now g owner it b g' :
  mapBlocksInFlight g !! h = Some (owner, it) ->
  MarkBlockAsReceived h now g = Some (b, g') ->
  exists st qb since nPeers,
    mapNodeState g !! owner = Some st
    /\ find_node it (vBlocksInFlight st) = Some qb
    /\ b = true
    /\ nDownloadingSince st <= since
    /\ g' = set_download
              (<[owner := set_inflight st (erase_node it (vBlocksInFlight st))
                            since (nBlocksInFlight st - 1)
                            (nBlocksInFlightValidHeaders st
                             - b2z (fValidatedHeaders qb)) 0]>
                 (mapNodeState g))
              (delete h (mapBlocksInFlight g)) nPeers (heap_next g) g.
Proof.
  intros Hidx Hrun. unfold MarkBlockAsReceived in Hrun. rewrite Hidx in Hrun.
  destruct (mapNodeState g !! owner) as [st |] eqn:Hst; simpl in Hrun; [| done].
  destruct (find_node it (vBlocksInFlight st)) as [qb |] eqn:Hfind;
    simpl in Hrun; [| done].
  destruct (int_checked (nBlocksInFlightValidHeaders st - _)) as [nValid |] eqn:Hv;
    simpl in Hrun; [| done].
  apply int_checked_Some in Hv as [-> _].
  destruct (if _ && fValidatedHeaders qb
            then int_checked (nPeersWithValidatedDownloads g - 1)
            else Some (nPeersWithValidatedDownloads g)) as [nPeers |];
    simpl in Hrun; [| done].
  destruct (int_checked (nBlocksInFlight st - 1)) as [nIn |] eqn:Hn;
    simpl in Hrun; [| done].
  apply int_checked_Some in Hn as [-> _].
  injection Hrun as <- <-.
  exists st, qb,
    (if is_begin it (vBlocksInFlight st)
     then Z.max (nDownloadingSince st) now else nDownloadingSince st), nPeers.
  repeat split; try done.
  destruct (is_begin it (vBlocksInFlight st)); lia.
Qed.

Lemma MarkBlockAsInFlight_inv nodeid h pidx now_recv now g g' :
  MarkBlockAsInFlight nodeid h pidx now_recv now g = Some g' ->
  exists b g1 st since nPeers,
    MarkBlockAsReceived h now_recv g = Some (b, g1)
    /\ is_Some (mapNodeState g !! nodeid)
    /\ mapNodeState g1 !! nodeid = Some st
    /\ g' = set_download
              (<[nodeid := set_inflight st
                             (vBlocksInFlight st
                              ++ [(heap_next g1,
                                   mkQueuedBlock h pidx (bool_decide (pidx <> None)))])
                             since (nBlocksInFlight st + 1)
                             (nBlocksInFlightValidHeaders st
                              + b2z (bool_decide (pidx <> None)))
                             (nStallingSince st)]>
                 (mapNodeState g1))
              (<[h := (nodeid, heap_next g1)]> (mapBlocksInFlight g1))
              nPeers (S (heap_next g1)) g1.
Proof.
  unfold MarkBlockAsInFlight. intros Hrun.
  destruct (mapNodeState g !! nodeid) as [st0 |] eqn:Hst0; simpl in Hrun; [| done].
  destruct (MarkBlockAsReceived h now_recv g) as [[b g1] |] eqn:Hrecv;
    simpl in Hrun; [| done].
  destruct (mapNodeState g1 !! nodeid) as [st |] eqn:Hst; simpl in Hrun; [| done].
  destruct (int_checked (nBlocksInFlight st + 1)) as [nIn |] eqn:Hn;
    simpl in Hrun; [| done].
  apply int_checked_Some in Hn as [-> _].
  destruct (int_checked (nBlocksInFlightValidHeaders st + _)) as [nValid |] eqn:Hv;
    simpl in Hrun; [| done].
  apply int_checked_Some in Hv as [-> _].
  destruct (if _ && bool_decide (pidx <> None)
            then int_checked (nPeersWithValidatedDownloads g1 + 1)
            else Some (nPeersWithValidatedDownloads g1)) as [nPeers |];
    simpl in Hrun; [| done].
  injection Hrun as <-.
  eexists b, g1, st, _, nPeers. repeat split; done.
Qed.

Lemma FinalizeNode_inv `{TxSerializer} nodeid g b g' :
  FinalizeNode nodeid g = Some (b, g') ->
  exists st,
    mapNodeState g !! nodeid = Some st
    /\ b = (nMisbehavior st =? 0) && fCurrentlyConnected st
    /\ mapNodeState g' = delete nodeid (mapNodeState g)
    /\ mapBlocksInFlight g'
       = foldl (fun m entry => delete (hash entry.2) m)
               (mapBlocksInFlight g) (vBlocksInFlight st)
    /\ mapBlockSource g'
       = filter (fun kv => kv.2.1 <> nodeid) (mapBlockSource g)
    /\ mapOrphanTransactions g'
       = mapOrphanTransactions (EraseOrphansFor nodeid g)
    /\ mapOrphanTransactionsByPrev g'
       = mapOrphanTransactionsByPrev (EraseOrphansFor nodeid g)
    /\ heap_next g' = heap_next g
    /\ nSyncStarted g' = nSyncStarted g - b2z (fSyncStarted st)
    /\ nPreferredDownload g'
       = nPreferredDownload g - b2z (fPreferredDownload st)
    /\ nPeersWithValidatedDownloads g'
       = nPeersWithValidatedDownloads g
         - b2z (negb (nBlocksInFlightValidHeaders st =? 0)).
Proof.
  unfold FinalizeNode. intros Hrun.
  destruct (mapNodeState g !! nodeid) as [st |]; simpl in Hrun; [| done].
  destruct (if fSyncStarted st then int_checked (nSyncStarted g - 1)
            else Some (nSyncStarted g)) as [nSync |] eqn:HnSync;
    simpl in Hrun; [| done].
  destruct (int_checked (nPreferredDownload g - _)) as [nPref |] eqn:HnPref;
    simpl in Hrun; [| done].
  destruct (int_checked (nPeersWithValidatedDownloads g - _)) as [nPeers |]
    eqn:HnPeers; simpl in Hrun; [| done].
  apply int_checked_Some in HnPref as [-> _].
  apply int_checked_Some in HnPeers as [-> _].
  assert (nSync = nSyncStarted g - b2z (fSyncStarted st)) as ->.
  { destruct (fSyncStarted st); simpl.
    - by apply int_checked_Some in HnSync as [-> _].
    - injection HnSync as <-. lia. }
  destruct (_ <? 0); [done |].
  exists st. split; [done |].
  destruct (Nat.eqb _ 0).
  - destruct (_ && _); [| done]. by injection Hrun as <- <-.
  - by injection Hrun as <- <-.
Qed.

(** ** Sums over the registry *)

Lemma sum_peers_empty f : sum_peers f ∅ = 0.
Proof. unfold sum_peers. apply map_fold_empty. Qed.

Lemma sum_peers_insert_fresh f m k x :
  m !! k = None -> sum_peers f (<[k := x]> m) = f x + sum_peers f m.
Proof.
  intros Hk. unfold sum_peers.
  rewrite map_fold_insert_L; [done | | done].
  intros. lia.
Qed.

Lemma sum_peers_delete f m k v :
  m !! k = Some v -> sum_peers f (delete k m) = sum_peers f m - f v.
Proof.
  intros Hk. rewrite <- (insert_delete_id m k v) at 2 by done.
  rewrite sum_peers_insert_fresh by apply lookup_delete_eq. lia.
Qed.

Lemma sum_peers_insert f m k v v' :
  m !! k = Some v ->
  sum_peers f (<[k := v']> m) = sum_peers f m - f v + f v'.
Proof.
  intros Hk. rewrite <- insert_delete_eq.
  rewrite sum_peers_insert_fresh by apply lookup_delete_eq.
  rewrite (sum_peers_delete f m k v) by done. lia.
Qed.

(** ** Queues and the index *)

Lemma erase_node_absent it l qb :
  NoDup l.*1 -> (it, qb) ∉ erase_node it l.
Proof.
  induction l as [| [i q] l IH]; simpl; intros Hnd Hin.
  - by apply elem_of_nil in Hin.
  - apply NoDup_cons in Hnd as [Hni Hnd].
    destruct (Nat.eqb_spec i it) as [-> | Hne].
    + apply Hni. apply list_elem_of_fmap. by exists (it, qb).
    + apply elem_of_cons in Hin as [[= <- _] | Hin]; [done | by apply IH].
Qed.

Lemma foldl_delete_lookup_other (l : list (list_iter * QueuedBlock))
    (m : gmap uint256 (NodeId * list_iter)) h :
  (forall e, e ∈ l -> hash e.2 <> h) ->
  foldl (fun m entry => delete (hash entry.2) m) m l !! h = m !! h.
Proof.
  revert m. induction l as [| e l IH]; intros m Hl; simpl; [done |].
  rewrite IH by (intros e' He'; apply Hl; by right).
  apply lookup_delete_ne. apply Hl. left.
Qed.

Lemma queue_hashes_NoDup (l : list (list_iter * QueuedBlock))
    (m : gmap uint256 (NodeId * list_iter)) p :
  (forall it qb, (it, qb) ∈ l -> m !! hash qb = Some (p, it)) ->
  NoDup l.*1 -> NoDup ((fun e => hash e.2) <$> l).
Proof.
  induction l as [| [i q] l IH]; simpl; intros Hidx Hnd; [apply NoDup_nil; done |].
  apply NoDup_cons in Hnd as [Hni Hnd]. apply NoDup_cons. split.
  - intros Hin. apply list_elem_of_fmap in Hin as ([i' q'] & Heq & Hin').
    simpl in Heq. apply Hni.
    pose proof (Hidx i q ltac:(left)) as H1.
    pose proof (Hidx i' q' ltac:(by right)) as H2.
    rewrite Heq in H1. rewrite H1 in H2. injection H2 as ->.
    apply list_elem_of_fmap. by exists (i', q').
  - apply IH; [| done]. intros it qb Hin. apply Hidx. by right.
Qed.

Lemma foldl_delete_size (l : list (list_iter * QueuedBlock))
    (m : gmap uint256 (NodeId * list_iter)) :
  NoDup ((fun e => hash e.2) <$> l) ->
  (forall e, e ∈ l -> is_Some (m !! hash e.2)) ->
  Z.of_nat (size (foldl (fun m entry => delete (hash entry.2) m) m l))
  = Z.of_nat (size m) - Z.of_nat (length l).
Proof.
  revert m. induction l as [| e l IH]; intros m Hnd Hall; simpl; [lia |].
  apply NoDup_cons in Hnd as [Hni Hnd].
  destruct (Hall e ltac:(left)) as [x Hx].
  rewrite IH; [| done |].
  - rewrite map_size_delete_Some by (by eexists).
    pose proof (map_size_ne_0_lookup_2 m (hash e.2) ltac:(by eexists)). lia.
  - intros e' He'. rewrite lookup_delete_ne; [apply Hall; by right |].
    intros Heq. apply Hni. apply list_elem_of_fmap. by exists e'.
Qed.

(** ** The second invariant of the download bookkeeping *)

Lemma inflight_wf_init : inflight_wf Globals_init.
Proof.
  split.
  - intros p st it qb Hp. simpl in Hp. by rewrite lookup_empty in Hp.
  - intros p st it qb Hp. simpl in Hp. by rewrite lookup_empty in Hp.
  - simpl. by rewrite sum_peers_empty, map_size_empty.
Qed.

Lemma inflight_wf_untouched g g' :
  queues_untouched g g' -> inflight_wf g -> inflight_wf g'.
Proof.
  intros [Hidx Hnodes] [Hc Hb Ht].
  destruct Hnodes as [Hn | (p & st & st' & Hst & Hl & Hn1 & Hn)].
  - split; unfold index_complete, validated_bits; rewrite ?Hn, ?Hidx; done.
  - split; unfold index_complete, validated_bits; rewrite ?Hn, ?Hidx.
    + intros q sq it qb Hq Hin. destruct (decide (q = p)) as [-> | Hd].
      * rewrite lookup_insert_eq in Hq. injection Hq as <-.
        rewrite Hl in Hin. by eapply Hc.
      * rewrite lookup_insert_ne in Hq by done. by eapply Hc.
    + intros q sq it qb Hq Hin. destruct (decide (q = p)) as [-> | Hd].
      * rewrite lookup_insert_eq in Hq. injection Hq as <-.
        rewrite Hl in Hin. by eapply Hb.
      * rewrite lookup_insert_ne in Hq by done. by eapply Hb.
    + rewrite (sum_peers_insert _ _ _ _ _ Hst), Hn1, Ht. lia.
Qed.

Lemma download_part_untouched g g' :
  download_part g' = download_part g -> queues_untouched g g'.
Proof. unfold download_part. intros [= Hn Hi _ _ _ _]. split; [done | by left]. Qed.

Lemma frame_untouched g g' p st st' :
  mapNodeState g !! p = Some st ->
  same_download_fields st st' ->
  download_part g'
  = (<[p := st']> (mapNodeState g), mapBlocksInFlight g, nSyncStarted g,
     nPreferredDownload g, nPeersWithValidatedDownloads g, heap_next g) ->
  queues_untouched g g'.
Proof.
  unfold download_part. intros Hst (_ & Hl & Hn & _) [= Hnodes Hidx _ _ _ _].
  split; [done |]. right. by exists p, st, st'.
Qed.

Ltac untouched_at p st Hst :=
  split; [done |]; right; exists p, st; eexists;
  split; [exact Hst |]; split; [| split; [| reflexivity]]; reflexivity.

Lemma Misbehaving_untouched bs pnode howmuch reason g g' :
  Misbehaving bs pnode howmuch reason g = Some g' -> queues_untouched g g'.
Proof.
  unfold Misbehaving. intros Hrun.
  destruct (howmuch =? 0); [injection Hrun as <-; split; [done | by left] |].
  destruct (mapNodeState g !! pnode) as [st |] eqn:Hst;
    [| injection Hrun as <-; split; [done | by left]].
  destruct (int_checked (nMisbehavior st + howmuch)) as [n |]; simpl in Hrun; [| done].
  destruct (int_checked (n - howmuch)) as [before |]; simpl in Hrun; [| done].
  injection Hrun as <-. untouched_at pnode st Hst.
Qed.

Lemma UpdatePreferredDownload_untouched node g g' :
  UpdatePreferredDownload node g = Some g' -> queues_untouched g g'.
Proof.
  unfold UpdatePreferredDownload. intros Hrun.
  destruct (mapNodeState g !! id node) as [st |] eqn:Hst; simpl in Hrun; [| done].
  destruct (int_checked (nPreferredDownload g - _)) as [n1 |]; simpl in Hrun; [| done].
  destruct (int_checked (n1 + _)) as [n2 |]; simpl in Hrun; [| done].
  injection Hrun as <-. untouched_at (id node) st Hst.
Qed.

Lemma StartBlockSync_untouched pto fetchable g g' :
  StartBlockSync pto fetchable g = Some g' -> queues_untouched g g'.
Proof.
  unfold StartBlockSync. intros Hrun.
  destruct (mapNodeState g !! id pto) as [st |] eqn:Hst; simpl in Hrun; [| done].
  destruct (negb (fSyncStarted st) && fetchable);
    [| injection Hrun as <-; split; [done | by left]].
  destruct (int_checked (nSyncStarted g + 1)) as [n |]; simpl in Hrun; [| done].
  injection Hrun as <-. untouched_at (id pto) st Hst.
Qed.

Lemma InitializeNode_inflight_wf pnode nTime g :
  inflight_wf g -> inflight_wf (InitializeNode pnode nTime g).1.
Proof.
  intros [Hc Hb Ht]. unfold InitializeNode. simpl.
  destruct (mapNodeState g !! id pnode) as [st |] eqn:Hst; [by split |].
  split; unfold index_complete, validated_bits; simpl.
  - intros q sq it qb Hq Hin. destruct (decide (q = id pnode)) as [-> | Hd].
    + rewrite lookup_insert_eq in Hq. injection Hq as <-.
      by apply elem_of_nil in Hin.
    + rewrite lookup_insert_ne in Hq by done. by eapply Hc.
  - intros q sq it qb Hq Hin. destruct (decide (q = id pnode)) as [-> | Hd].
    + rewrite lookup_insert_eq in Hq. injection Hq as <-.
      by apply elem_of_nil in Hin.
    + rewrite lookup_insert_ne in Hq by done. by eapply Hb.
  - rewrite sum_peers_insert_fresh by done. simpl. lia.
Qed.

Lemma MarkBlockAsReceived_inflight_wf h now g b g' :
  globals_wf g -> inflight_wf g ->
  MarkBlockAsReceived h now g = Some (b, g') ->
  inflight_wf g'.
Proof.
  intros Hwf [Hc Hb Ht] Hrun.
  destruct (mapBlocksInFlight g !! h) as [[owner it] |] eqn:Hidx.
  2:{ rewrite (MarkBlockAsReceived_untracked h now g Hidx) in Hrun.
      injection Hrun as <- <-. by split. }
  destruct (MarkBlockAsReceived_tracked _ _ _ _ _ _ _ Hidx Hrun)
    as (st & qb & since & nPeers & Hst & Hfind & -> & _ & ->).
  pose proof (wf_nodup _ _ (wf_peers g Hwf _ _ Hst)) as Hnd.
  split; unfold index_complete, validated_bits; simpl.
  - intros p st' it' qb' Hp Hin. destruct (decide (p = owner)) as [-> | Hd].
    + rewrite lookup_insert_eq in Hp. injection Hp as <-. simpl in Hin.
      pose proof (Hc _ _ _ _ Hst (erase_node_subseteq _ _ _ Hin)) as Hl.
      rewrite lookup_delete_ne; [done |].
      intros Heq. rewrite <- Heq, Hidx in Hl. injection Hl as <-.
      by apply erase_node_absent in Hin.
    + rewrite lookup_insert_ne in Hp by done.
      pose proof (Hc _ _ _ _ Hp Hin) as Hl.
      rewrite lookup_delete_ne; [done |].
      intros Heq. rewrite <- Heq, Hidx in Hl. by injection Hl as <-.
  - intros p st' it' qb' Hp Hin. destruct (decide (p = owner)) as [-> | Hd].
    + rewrite lookup_insert_eq in Hp. injection Hp as <-. simpl in Hin.
      eapply Hb; [done |]. by eapply erase_node_subseteq.
    + rewrite lookup_insert_ne in Hp by done. by eapply Hb.
  - rewrite (sum_peers_insert _ _ _ _ _ Hst). simpl.
    rewrite map_size_delete_Some by (by eexists).
    pose proof (map_size_ne_0_lookup_2 (mapBlocksInFlight g) h ltac:(by eexists)).
    lia.
Qed.

Lemma MarkBlockAsInFlight_inflight_wf nodeid h pidx now_recv now g g' :
  globals_wf g -> inflight_wf g ->
  MarkBlockAsInFlight nodeid h pidx now_recv now g = Some g' ->
  inflight_wf g'.
Proof.
  intros Hwf Hiw Hrun.
  destruct (MarkBlockAsInFlight_inv _ _ _ _ _ _ _ Hrun)
    as (b & g1 & st & since & nPeers & Hrecv & _ & Hst & ->).
  pose proof (MarkBlockAsReceived_inflight_wf _ _ _ _ _ Hwf Hiw Hrecv)
    as [Hc Hb Ht].
  apply MarkBlockAsReceived_index in Hrecv as [Hidx1 _].
  assert (mapBlocksInFlight g1 !! h = None) as Hnone
    by (rewrite Hidx1; apply lookup_delete_eq).
  split; unfold index_complete, validated_bits; simpl.
  - intros p st' it' qb' Hp Hin. destruct (decide (p = nodeid)) as [-> | Hd].
    + rewrite lookup_insert_eq in Hp. injection Hp as <-. simpl in Hin.
      apply elem_of_app in Hin as [Hin | Hin].
      * pose proof (Hc _ _ _ _ Hst Hin) as Hl.
        rewrite lookup_insert_ne; [done |]. intros Heq. congruence.
      * apply list_elem_of_singleton in Hin. injection Hin as -> ->. simpl.
        apply lookup_insert_eq.
    + rewrite lookup_insert_ne in Hp by done.
      pose proof (Hc _ _ _ _ Hp Hin) as Hl.
      rewrite lookup_insert_ne; [done |]. intros Heq. congruence.
  - intros p st' it' qb' Hp Hin. destruct (decide (p = nodeid)) as [-> | Hd].
    + rewrite lookup_insert_eq in Hp. injection Hp as <-. simpl in Hin.
      apply elem_of_app in Hin as [Hin | Hin]; [by eapply Hb |].
      apply list_elem_of_singleton in Hin. by injection Hin as -> ->.
    + rewrite lookup_insert_ne in Hp by done. by eapply Hb.
  - rewrite (sum_peers_insert _ _ _ _ _ Hst). simpl.
    rewrite map_size_insert_None by done. lia.
Qed.

Lemma FinalizeNode_inflight_wf `{TxSerializer} nodeid g b g' :
  globals_wf g -> inflight_wf g ->
  FinalizeNode nodeid g = Some (b, g') ->
  inflight_wf g'.
Proof.
  intros Hwf [Hc Hb Ht] Hrun.
  destruct (FinalizeNode_inv _ _ _ _ Hrun)
    as (st & Hst & _ & Hnodes & Hidx & _).
  pose proof (wf_peers g Hwf _ _ Hst) as [HnIn _ _ Hnd _].
  split; unfold index_complete, validated_bits; rewrite Hnodes, ?Hidx.
  - intros p sp it qb Hp Hin. apply lookup_delete_Some in Hp as [Hne Hp].
    pose proof (Hc _ _ _ _ Hp Hin) as Hl.
    rewrite foldl_delete_lookup_other; [done |].
    intros [i q] He Heq. simpl in Heq.
    pose proof (Hc _ _ _ _ Hst He) as Hl'. rewrite Heq, Hl in Hl'. congruence.
  - intros p sp it qb Hp Hin. apply lookup_delete_Some in Hp as [Hne Hp].
    by eapply Hb.
  - rewrite (sum_peers_delete _ _ _ _ Hst), Ht, HnIn.
    rewrite foldl_delete_size; [done | |].
    + eapply queue_hashes_NoDup; [| done]. intros it qb Hin. by eapply Hc.
    + intros [i q] He. eexists. by eapply Hc.
Qed.

Section ReachableQueues.
Context `{TxSerializer}.

Lemma step_inflight_wf g g' :
  globals_wf g -> inflight_wf g -> step g g' -> inflight_wf g'.
Proof.
  intros Hwf Hiw Hstep. destruct Hstep.
  - by apply InitializeNode_inflight_wf.
  - by eapply FinalizeNode_inflight_wf.
  - eapply inflight_wf_untouched; [by eapply Misbehaving_untouched | done].
  - by eapply MarkBlockAsReceived_inflight_wf.
  - by eapply MarkBlockAsInFlight_inflight_wf.
  - eapply inflight_wf_untouched; [by eapply UpdatePreferredDownload_untouched | done].
  - eapply inflight_wf_untouched; [by eapply StartBlockSync_untouched | done].
  - eapply inflight_wf_untouched; [| done].
    apply download_part_untouched, AddOrphanTx_download.
  - eapply inflight_wf_untouched; [| done].
    apply download_part_untouched, EraseOrphanTx_download.
  - eapply inflight_wf_untouched; [| done].
    apply download_part_untouched. by eapply LimitOrphanTxSize_loop_download.
  - eapply inflight_wf_untouched; [by eapply frame_untouched | done].
Qed.

Lemma reachable_inflight_wf g : reachable g -> inflight_wf g.
Proof.
  induction 1 as [| g g' Hreach IH Hstep].
  - apply inflight_wf_init.
  - eapply step_inflight_wf; [by apply reachable_wf | done | done].
Qed.

End ReachableQueues.

Lemma queue_entry_unique (l : list (list_iter * QueuedBlock)) it qb1 qb2 :
  NoDup l.*1 -> (it, qb1) ∈ l -> (it, qb2) ∈ l -> qb1 = qb2.
Proof.
  induction l as [| [i q] l IH]; simpl; intros Hnd H1 H2.
  - by apply elem_of_nil in H1.
  - apply NoDup_cons in Hnd as [Hni Hnd].
    apply elem_of_cons in H1 as [H1 | H1];
      apply elem_of_cons in H2 as [H2 | H2]; simplify_eq.
    + done.
    + exfalso. apply Hni, list_elem_of_fmap. by eexists (_, qb2).
    + exfalso. apply Hni, list_elem_of_fmap. by eexists (_, qb1).
    + by apply IH.
Qed.

Lemma count_validated_known (l : list (list_iter * QueuedBlock)) :
  (forall it qb, (it, qb) ∈ l ->
                 fValidatedHeaders qb = bool_decide (pindex qb <> None)) ->
  count_validated l
  = Z.of_nat (length (filter (fun e => pindex e.2 <> None) l)).
Proof.
  unfold count_validated. induction l as [| [i q] l IH]; intros Hbits; [done |].
  rewrite !filter_cons. simpl.
  pose proof (Hbits i q ltac:(left)) as Hq.
  assert (forall it qb, (it, qb) ∈ l ->
            fValidatedHeaders qb = bool_decide (pindex qb <> None)) as Hl
    by (intros it' qb' Hin; apply (Hbits it' qb'); by right).
  specialize (IH Hl).
  destruct (decide (fValidatedHeaders q = true)) as [Ht | Hf];
    destruct (decide (pindex q <> None)) as [Hk | Hu]; simpl.
  - lia.
  - rewrite Hq, bool_decide_eq_true in Ht. done.
  - rewrite Hq, bool_decide_eq_true in Hf. done.
  - done.
Qed.

Lemma has_known_block_filter (l : list (list_iter * QueuedBlock)) :
  existsb (fun e => bool_decide (pindex e.2 <> None)) l
  = (0 <? Z.of_nat (length (filter (fun e => pindex e.2 <> None) l))).
Proof.
  induction l as [| [i q] l IH]; [done |].
  rewrite filter_cons. simpl.
  destruct (decide (pindex q <> None)) as [Hk | Hu].
  - rewrite bool_decide_eq_true_2 by done. simpl. symmetry.
    apply Z.ltb_lt. lia.
  - rewrite bool_decide_eq_false_2 by done. simpl. apply IH.
Qed.

Section ReachableTables.
Context `{TxSerializer}.

(** X6: in every state the functions of messages.cpp can reach, the
    in-flight index and the peers' queues describe the same set of blocks:
    a hash is indexed under a peer and a list position exactly when that
    peer is registered and holds the block at that position, and no block
    is queued twice, neither with two peers nor twice with one. *)
Theorem reachable_index_matches_queues (g : Globals) :
  reachable g ->
  (forall h p it,
      mapBlocksInFlight g !! h = Some (p, it)
      <-> exists st qb, mapNodeState g !! p = Some st
                        /\ (it, qb) ∈ vBlocksInFlight st /\ hash qb = h)
  /\ (forall p1 st1 it1 qb1 p2 st2 it2 qb2,
         mapNodeState g !! p1 = Some st1 -> (it1, qb1) ∈ vBlocksInFlight st1 ->
         mapNodeState g !! p2 = Some st2 -> (it2, qb2) ∈ vBlocksInFlight st2 ->
         hash qb1 = hash qb2 ->
         p1 = p2 /\ it1 = it2 /\ qb1 = qb2).
Proof.
  intros Hreach.
  pose proof (reachable_wf g Hreach) as Hwf.
  pose proof (reachable_inflight_wf g Hreach) as [Hc _ _].
  split.
  - intros h p it. split.
    + apply (wf_index g Hwf).
    + intros (st & qb & Hst & Hin & <-). by eapply Hc.
  - intros p1 st1 it1 qb1 p2 st2 it2 qb2 Hp1 Hin1 Hp2 Hin2 Hhash.
    pose proof (Hc _ _ _ _ Hp1 Hin1) as H1.
    pose proof (Hc _ _ _ _ Hp2 Hin2) as H2.
    rewrite Hhash, H2 in H1. injection H1 as -> ->.
    rewrite Hp1 in Hp2. injection Hp2 as ->.
    repeat split.
    eapply queue_entry_unique; [| done | done].
    apply (wf_nodup _ _ (wf_peers g Hwf _ _ Hp1)).
Qed.

(** X7: in every reachable state each peer's [nBlocksInFlight] is the
    length of its queue, and the counters of all peers add up to the
    number of entries of [mapBlocksInFlight]. *)
Theorem reachable_inflight_counts (g : Globals) :
  reachable g ->
  sum_peers nBlocksInFlight (mapNodeState g)
  = Z.of_nat (size (mapBlocksInFlight g))
  /\ forall p st, mapNodeState g !! p = Some st ->
       nBlocksInFlight st = Z.of_nat (length (vBlocksInFlight st)).
Proof.
  intros Hreach. split.
  - apply (wf_total g (reachable_inflight_wf g Hreach)).
  - intros p st Hst.
    apply (wf_nInFlight _ _ (wf_peers g (reachable_wf g Hreach) _ _ Hst)).
Qed.

(** X8: in every reachable state a queued block counts as having
    validated headers exactly when its block index entry is known; a
    peer's [nBlocksInFlightValidHeaders] is the number of such blocks in
    its queue, and [nPeersWithValidatedDownloads] is the number of peers
    that hold at least one. *)
Theorem reachable_validated_counts (g : Globals) :
  reachable g ->
  (forall p st it qb,
      mapNodeState g !! p = Some st -> (it, qb) ∈ vBlocksInFlight st ->
      fValidatedHeaders qb = true <-> pindex qb <> None)
  /\ (forall p st, mapNodeState g !! p = Some st ->
        nBlocksInFlightValidHeaders st
        = Z.of_nat (length (filter (fun e => pindex e.2 <> None)
                                   (vBlocksInFlight st))))
  /\ nPeersWithValidatedDownloads g
     = count_peers has_known_block (mapNodeState g).
Proof.
  intros Hreach.
  pose proof (reachable_wf g Hreach) as Hwf.
  pose proof (reachable_inflight_wf g Hreach) as [_ Hb _].
  assert (forall p st, mapNodeState g !! p = Some st ->
            nBlocksInFlightValidHeaders st
            = Z.of_nat (length (filter (fun e => pindex e.2 <> None)
                                       (vBlocksInFlight st)))) as Hcount.
  { intros p st Hst.
    rewrite (wf_nValid _ _ (wf_peers g Hwf _ _ Hst)).
    apply count_validated_known. intros it qb Hin. by eapply Hb. }
  split; [| split; [done |]].
  - intros p st it qb Hst Hin. rewrite (Hb _ _ _ _ Hst Hin).
    apply bool_decide_eq_true.
  - rewrite (wf_validated g Hwf). unfold count_peers. f_equal. f_equal.
    apply map_filter_ext. intros p st Hst. simpl.
    unfold has_validated, has_known_block.
    by rewrite has_known_block_filter, (Hcount _ _ Hst).
Qed.

End ReachableTables.

Lemma reachable_index_matches_queues_witness :
  (forall h p it,
      mapBlocksInFlight ex_one_in_flight !! h = Some (p, it)
      <-> exists st qb, mapNodeState ex_one_in_flight !! p = Some st
                        /\ (it, qb) ∈ vBlocksInFlight st /\ hash qb = h)
  /\ (forall p1 st1 it1 qb1 p2 st2 it2 qb2,
         mapNodeState ex_one_in_flight !! p1 = Some st1 ->
         (it1, qb1) ∈ vBlocksInFlight st1 ->
         mapNodeState ex_one_in_flight !! p2 = Some st2 ->
         (it2, qb2) ∈ vBlocksInFlight st2 ->
         hash qb1 = hash qb2 ->
         p1 = p2 /\ it1 = it2 /\ qb1 = qb2).
Proof.
  apply reachable_index_matches_queues, one_in_flight_reachable.
Defined.

Lemma reachable_inflight_counts_witness :
  sum_peers nBlocksInFlight (mapNodeState ex_one_in_flight)
  = Z.of_nat (size (mapBlocksInFlight ex_one_in_flight))
  /\ forall p st, mapNodeState ex_one_in_flight !! p = Some st ->
       nBlocksInFlight st = Z.of_nat (length (vBlocksInFlight st)).
Proof.
  apply reachable_inflight_counts, one_in_flight_reachable.
Defined.

Lemma reachable_validated_counts_witness :
  (forall p st it qb,
      mapNodeState ex_one_in_flight !! p = Some st ->
      (it, qb) ∈ vBlocksInFlight st ->
      fValidatedHeaders qb = true <-> pindex qb <> None)
  /\ (forall p st, mapNodeState ex_one_in_flight !! p = Some st ->
        nBlocksInFlightValidHeaders st
        = Z.of_nat (length (filter (fun e => pindex e.2 <> None)
                                   (vBlocksInFlight st))))
  /\ nPeersWithValidatedDownloads ex_one_in_flight
     = count_peers has_known_block (mapNodeState ex_one_in_flight).
Proof.
  apply reachable_validated_counts, one_in_flight_reachable.
Defined.

(** One block in flight with peer 7: the counters of the two peers add up
    to the one entry of the index. *)
Example ex_one_in_flight_counts :
  (sum_peers nBlocksInFlight (mapNodeState ex_one_in_flight),
   size (mapBlocksInFlight ex_one_in_flight),
   count_peers has_known_block (mapNodeState ex_one_in_flight),
   nPeersWithValidatedDownloads ex_one_in_flight)
  = (1, 1%nat, 1, 1).
Proof. vm_compute. reflexivity. Qed.

(** ** What the three writers of the index do to a single block *)

Lemma filter_all {A} (P : A -> Prop) `{forall x, Decision (P x)} (l : list A) :
  (forall x, x ∈ l -> P x) -> filter P l = l.
Proof.
  induction l as [| a l IH]; intros Hall; [done |].
  rewrite filter_cons, decide_True by (apply Hall; left).
  f_equal. apply IH. intros x Hx. apply Hall. by right.
Qed.

Lemma erase_node_filter_hash (l : list (list_iter * QueuedBlock)) it h :
  NoDup l.*1 ->
  (forall e, e ∈ l -> e.1 = it <-> hash e.2 = h) ->
  erase_node it l = filter (fun e => hash e.2 <> h) l.
Proof.
  induction l as [| [i q] l IH]; simpl; intros Hnd Hiff; [done |].
  apply NoDup_cons in Hnd as [Hni Hnd].
  pose proof (Hiff (i, q) ltac:(left)) as Hhead. simpl in Hhead.
  rewrite filter_cons. simpl.
  destruct (Nat.eqb_spec i it) as [-> | Hne].
  - rewrite decide_False by (intros Hn; apply Hn; by apply Hhead).
    symmetry. apply filter_all. intros [i' q'] Hin Hh. simpl in Hh.
    apply (Hiff (i', q') ltac:(by right)) in Hh. simpl in Hh. subst i'.
    apply Hni, list_elem_of_fmap. by exists (it, q').
  - rewrite decide_True by (intros Hh; by apply Hhead in Hh).
    f_equal. apply IH; [done |]. intros e He. apply Hiff. by right.
Qed.

Lemma MarkBlockAsReceived_heap_next h now g b g' :
  MarkBlockAsReceived h now g = Some (b, g') -> heap_next g' = heap_next g.
Proof.
  intros Hrun.
  destruct (mapBlocksInFlight g !! h) as [[owner it] |] eqn:Hidx.
  - destruct (MarkBlockAsReceived_tracked _ _ _ _ _ _ _ Hidx Hrun)
      as (st & qb & since & nPeers & _ & _ & _ & _ & ->). done.
  - rewrite (MarkBlockAsReceived_untracked h now g Hidx) in Hrun.
    by injection Hrun as <- <-.
Qed.

(** X9: a block is received at most once.  Whatever the first call of
    [MarkBlockAsReceived(hash)] returned, the hash is not in flight
    afterwards and a second call returns false and changes nothing; a
    first call that returns false has changed nothing either. *)
Theorem MarkBlockAsReceived_at_most_once h now now' g b g' :
  MarkBlockAsReceived h now g = Some (b, g') ->
  mapBlocksInFlight g' !! h = None
  /\ MarkBlockAsReceived h now' g' = Some (false, g')
  /\ (b = false -> g' = g).
Proof.
  intros Hrun.
  pose proof (MarkBlockAsReceived_index _ _ _ _ _ Hrun) as [Hidx Hb].
  assert (mapBlocksInFlight g' !! h = None) as Hnone
    by (rewrite Hidx; apply lookup_delete_eq).
  split; [done |]. split; [by apply MarkBlockAsReceived_untracked |].
  intros ->. symmetry in Hb. apply bool_decide_eq_false in Hb.
  assert (mapBlocksInFlight g !! h = None) as Hg
    by (by apply eq_None_not_Some).
  rewrite (MarkBlockAsReceived_untracked h now g Hg) in Hrun.
  by injection Hrun as <-.
Qed.

Section SingleBlock.
Context `{TxSerializer}.

(** X10: in a reachable state, [MarkBlockAsReceived] of a block that is
    in flight returns true, takes exactly that block out of the queue of
    the peer it was requested from (the other blocks keep their order),
    lowers that peer's counter by one, clears its stalling time, never
    moves its download start backwards, and leaves every other peer and
    every other index entry alone. *)
Theorem MarkBlockAsReceived_removes_one g h now owner it :
  reachable g ->
  mapBlocksInFlight g !! h = Some (owner, it) ->
  exists st st' g',
    MarkBlockAsReceived h now g = Some (true, g')
    /\ mapNodeState g !! owner = Some st
    /\ mapNodeState g' !! owner = Some st'
    /\ vBlocksInFlight st'
       = filter (fun e => hash e.2 <> h) (vBlocksInFlight st)
    /\ nBlocksInFlight st' = nBlocksInFlight st - 1
    /\ nStallingSince st' = 0
    /\ nDownloadingSince st <= nDownloadingSince st'
    /\ (forall p, p <> owner -> mapNodeState g' !! p = mapNodeState g !! p)
    /\ (forall h', h' <> h ->
          mapBlocksInFlight g' !! h' = mapBlocksInFlight g !! h').
Proof.
  intros Hreach Hidx.
  pose proof (reachable_wf g Hreach) as Hwf.
  pose proof (reachable_inflight_wf g Hreach) as [Hc _ _].
  destruct (MarkBlockAsReceived_total h now g Hwf) as [[b g'] Hrun].
  destruct (MarkBlockAsReceived_tracked _ _ _ _ _ _ _ Hidx Hrun)
    as (st & qb & since & nPeers & Hst & Hfind & -> & Hsince & ->).
  eexists st, _, _. split; [done |]. split; [done |]. simpl.
  split; [apply lookup_insert_eq |]. simpl.
  split; [| split; [done | split; [done | split; [done | split]]]].
  - apply erase_node_filter_hash.
    + apply (wf_nodup _ _ (wf_peers g Hwf _ _ Hst)).
    + intros [i q] Hin. simpl. split.
      * intros ->. apply find_node_elem in Hfind.
        destruct (wf_index g Hwf _ _ _ Hidx) as (st0 & qb0 & Hst0 & Hin0 & Hh0).
        rewrite Hst in Hst0. injection Hst0 as <-.
        assert (q = qb0) as ->; [| done].
        eapply queue_entry_unique; [| done | done].
        apply (wf_nodup _ _ (wf_peers g Hwf _ _ Hst)).
      * intros Hh. pose proof (Hc _ _ _ _ Hst Hin) as Hl. simpl in Hl.
        rewrite Hh, Hidx in Hl. by injection Hl.
  - intros p Hp. by apply lookup_insert_ne.
  - intros h' Hh'. by apply lookup_delete_ne.
Qed.

(** X11: in a reachable state, after [MarkBlockAsInFlight(nodeid, hash)]
    the index files the block under [nodeid], the block is the last entry
    of that peer's queue, validated exactly when a block index entry was
    given, no other queue entry of any peer carries the hash, and every
    other index entry is as before. *)
Theorem MarkBlockAsInFlight_owner g nodeid h pidx now_recv now g' :
  reachable g ->
  MarkBlockAsInFlight nodeid h pidx now_recv now g = Some g' ->
  let entry := (heap_next g, mkQueuedBlock h pidx (bool_decide (pidx <> None))) in
  mapBlocksInFlight g' !! h = Some (nodeid, heap_next g)
  /\ (exists st', mapNodeState g' !! nodeid = Some st'
                  /\ last (vBlocksInFlight st') = Some entry)
  /\ (forall p st it qb,
         mapNodeState g' !! p = Some st -> (it, qb) ∈ vBlocksInFlight st ->
         hash qb = h -> p = nodeid /\ (it, qb) = entry)
  /\ (forall h', h' <> h ->
         mapBlocksInFlight g' !! h' = mapBlocksInFlight g !! h').
Proof.
  intros Hreach Hrun entry.
  pose proof (reachable_wf g Hreach) as Hwf.
  pose proof (reachable_inflight_wf g Hreach) as Hiw.
  pose proof (MarkBlockAsInFlight_wf _ _ _ _ _ _ _ Hwf Hrun) as Hwf'.
  pose proof (MarkBlockAsInFlight_inflight_wf _ _ _ _ _ _ _ Hwf Hiw Hrun)
    as [Hc' _ _].
  destruct (MarkBlockAsInFlight_inv _ _ _ _ _ _ _ Hrun)
    as (b & g1 & st & since & nPeers & Hrecv & _ & Hst & Hg').
  pose proof (MarkBlockAsReceived_heap_next _ _ _ _ _ Hrecv) as Hnext.
  pose proof (MarkBlockAsReceived_index _ _ _ _ _ Hrecv) as [Hidx1 _].
  rewrite Hnext in Hg'.
  assert (mapBlocksInFlight g' !! h = Some (nodeid, heap_next g)) as Hh.
  { rewrite Hg'. simpl. apply lookup_insert_eq. }
  assert (exists st', mapNodeState g' !! nodeid = Some st'
                      /\ last (vBlocksInFlight st') = Some entry)
    as (st' & Hst' & Hlast).
  { rewrite Hg'. simpl. eexists. split; [apply lookup_insert_eq |].
    simpl. apply last_snoc. }
  split; [done |]. split; [by exists st' |]. split.
  - intros p sp it qb Hp Hin Hhash.
    pose proof (Hc' _ _ _ _ Hp Hin) as Hl. rewrite Hhash, Hh in Hl.
    injection Hl as <- <-. split; [done |].
    rewrite Hst' in Hp. injection Hp as <-.
    unfold entry. f_equal.
    eapply queue_entry_unique; [| exact Hin |].
    + apply (wf_nodup _ _ (wf_peers g' Hwf' _ _ Hst')).
    + apply last_Some_elem_of in Hlast. exact Hlast.
  - intros h' Hh'. rewrite Hg'. simpl.
    rewrite lookup_insert_ne by done. rewrite Hidx1.
    by apply lookup_delete_ne.
Qed.

(** X12: in a reachable state with a consistent orphan pool,
    [FinalizeNode(nodeid)] removes the peer and with it exactly the index
    entries of the blocks requested from it, the block-source entries that
    name it and the orphans received from it; all other peers, index
    entries, block sources and orphans stay. *)
Theorem FinalizeNode_removes_peer g nodeid b g' :
  reachable g -> orphan_pool_wf g ->
  FinalizeNode nodeid g = Some (b, g') ->
  mapNodeState g' = delete nodeid (mapNodeState g)
  /\ mapBlocksInFlight g'
     = filter (fun kv => kv.2.1 <> nodeid) (mapBlocksInFlight g)
  /\ mapBlockSource g'
     = filter (fun kv => kv.2.1 <> nodeid) (mapBlockSource g)
  /\ mapOrphanTransactions g'
     = filter (fun kv => fromPeer kv.2 <> nodeid) (mapOrphanTransactions g)
  /\ orphan_pool_wf g'.
Proof.
  intros Hreach Hpool Hrun.
  pose proof (reachable_wf g Hreach) as Hwf.
  pose proof (reachable_inflight_wf g Hreach) as [Hc _ _].
  destruct (FinalizeNode_inv _ _ _ _ Hrun)
    as (st & Hst & _ & Hnodes & Hidx & Hsrc & Horph & Hprev & _).
  split; [done |]. split; [| split; [done | split]].
  - rewrite Hidx. apply map_eq. intros h. apply option_eq. intros [p it].
    rewrite map_lookup_filter_Some. simpl. split.
    + intros Hl. apply foldl_delete_lookup_Some in Hl as [Hl Hnot].
      split; [done |]. intros ->.
      destruct (wf_index g Hwf _ _ _ Hl) as (st0 & qb & Hst0 & Hin & Hh).
      rewrite Hst in Hst0. injection Hst0 as <-.
      by apply (Hnot (it, qb)).
    + intros [Hl Hp]. rewrite foldl_delete_lookup_other; [done |].
      intros [i q] Hin Hh. simpl in Hh.
      pose proof (Hc _ _ _ _ Hst Hin) as Hl'. rewrite Hh, Hl in Hl'.
      by injection Hl'.
  - rewrite Horph. by apply EraseOrphansFor_orphans.
  - pose proof (EraseOrphansFor_wf nodeid g Hpool) as Hw.
    unfold orphan_pool_wf in *. by rewrite Horph, Hprev.
Qed.

(** X13: in a reachable state, registering a peer under an unused id and
    finalizing it at once passes all assertions, reports that the
    connection time is not to be updated, and gives back the registry, the
    index and the three counters as they were. *)
Theorem InitializeNode_FinalizeNode_roundtrip g pnode nTime :
  reachable g ->
  mapNodeState g !! id pnode = None ->
  exists g',
    FinalizeNode (id pnode) (InitializeNode pnode nTime g).1 = Some (false, g')
    /\ download_part g' = download_part g.
Proof.
  intros Hreach Hfresh.
  pose proof (reachable_wf g Hreach) as Hwf.
  pose proof (InitializeNode_wf pnode nTime g Hwf) as Hwf1.
  assert (mapNodeState (InitializeNode pnode nTime g).1
          = <[id pnode := CNodeState_new]> (mapNodeState g)) as Hnodes1.
  { unfold InitializeNode. simpl. by rewrite Hfresh. }
  assert (mapNodeState (InitializeNode pnode nTime g).1 !! id pnode
          = Some CNodeState_new) as Hst1
    by (rewrite Hnodes1; apply lookup_insert_eq).
  destruct (FinalizeNode_wf _ _ _ Hwf1 Hst1) as (b & g' & Hrun & _ & _).
  destruct (FinalizeNode_inv _ _ _ _ Hrun)
    as (st & Hst & Hb & Hnodes & Hidx & _ & _ & _ & Hnext & Hs & Hp & Hv).
  rewrite Hst1 in Hst. injection Hst as <-. simpl in *.
  exists g'. subst b. split; [done |].
  unfold download_part. rewrite Hnodes, Hidx, Hnext, Hs, Hp, Hv, Hnodes1.
  rewrite delete_insert_id by done.
  repeat f_equal; lia.
Qed.

End SingleBlock.

(** * Worked examples, continued *)

Lemma two_peers_pool_wf : orphan_pool_wf ex_two_peers.
Proof. by apply orphan_pool_wf_init. Qed.

Lemma three_orphans_pool_wf : orphan_pool_wf ex_three_orphans.
Proof.
  unfold ex_three_orphans.
  do 3 apply AddOrphanTx_wf. apply two_peers_pool_wf.
Qed.

Lemma one_in_flight_pool_wf : orphan_pool_wf ex_one_in_flight.
Proof. by apply orphan_pool_wf_init. Qed.

Lemma orphan_pool_consistent_witness :
  (forall t peer, orphan_pool_wf (AddOrphanTx t peer ex_three_orphans).2)
  /\ (forall h, orphan_pool_wf (EraseOrphanTx h ex_three_orphans))
  /\ (forall peer, orphan_pool_wf (EraseOrphansFor peer ex_three_orphans))
  /\ (forall cap rnd n g',
         LimitOrphanTxSize cap rnd ex_three_orphans = Some (n, g') ->
         orphan_pool_wf g')
  /\ (forall vtx, orphan_pool_wf (BlockConnected vtx ex_three_orphans))
  /\ (forall t peer maxorphantx rnd n g',
         StoreOrphanTx t peer maxorphantx rnd ex_three_orphans = Some (n, g') ->
         orphan_pool_wf g').
Proof.
  apply orphan_pool_consistent, three_orphans_pool_wf.
Defined.

Lemma AddOrphanTx_EraseOrphanTx_roundtrip_witness :
  (AddOrphanTx (ex_spend "q" "a") 7 ex_two_peers).1 = true
  /\ EraseOrphanTx (GetHash (ex_spend "q" "a"))
                   (AddOrphanTx (ex_spend "q" "a") 7 ex_two_peers).2
     = ex_two_peers.
Proof.
  apply AddOrphanTx_EraseOrphanTx_roundtrip.
  - apply two_peers_pool_wf.
  - vm_compute. reflexivity.
  - vm_compute. discriminate.
Defined.

Lemma EraseOrphansFor_exact_witness :
  mapOrphanTransactions (EraseOrphansFor 7 ex_three_orphans)
  = filter (fun kv => fromPeer kv.2 <> 7) (mapOrphanTransactions ex_three_orphans)
  /\ orphan_pool_wf (EraseOrphansFor 7 ex_three_orphans).
Proof.
  apply EraseOrphansFor_exact, three_orphans_pool_wf.
Defined.

(** All three orphans came from peer 7: nothing is left once it goes. *)
Example ex_erase_orphans_for :
  (size (mapOrphanTransactions (EraseOrphansFor 7 ex_three_orphans)),
   size (mapOrphanTransactionsByPrev (EraseOrphansFor 7 ex_three_orphans)),
   size (mapOrphanTransactions (EraseOrphansFor 8 ex_three_orphans)))
  = (0%nat, 0%nat, 3%nat).
Proof. vm_compute. reflexivity. Qed.

Lemma BlockConnected_evicts_witness :
  let vtx := [ex_spend "p" "z"] in
  (forall t txin h o,
      t ∈ vtx -> txin ∈ vin t ->
      mapOrphanTransactions (BlockConnected vtx ex_three_orphans) !! h = Some o ->
      outpoint_hash (prevout txin) ∉ prev_hashes (tx o))
  /\ (forall h o,
         mapOrphanTransactions ex_three_orphans !! h = Some o ->
         (forall t txin, t ∈ vtx -> txin ∈ vin t ->
                         outpoint_hash (prevout txin) ∉ prev_hashes (tx o)) ->
         mapOrphanTransactions (BlockConnected vtx ex_three_orphans) !! h = Some o)
  /\ (forall t txin, t ∈ vtx -> txin ∈ vin t ->
        spenders (mapOrphanTransactionsByPrev (BlockConnected vtx ex_three_orphans))
                 (outpoint_hash (prevout txin)) = ∅).
Proof.
  apply BlockConnected_evicts, three_orphans_pool_wf.
Defined.

(** A block spends an output of [pp..]: the two orphans that spend from
    [pp..] go, the one that spends from [qq..] stays. *)
Example ex_block_connected :
  let g' := BlockConnected [ex_spend "p" "z"] ex_three_orphans in
  (size (mapOrphanTransactions g'),
   bool_decide (is_Some (mapOrphanTransactions g' !! ex_hash_of "a")),
   size (mapOrphanTransactionsByPrev g'))
  = (1%nat, true, 1%nat).
Proof. vm_compute. reflexivity. Qed.

(** With [-maxorphantx=2] a fourth orphan pushes two others out. *)
Example ex_store_orphan :
  (fun r => (r.1, size (mapOrphanTransactions r.2)))
    <$> StoreOrphanTx (ex_spend "q" "d") 8 2 (fun _ => ex_hash_of "b")
                      ex_three_orphans
  = Some (2, 2%nat).
Proof. vm_compute. reflexivity. Qed.

Lemma MarkBlockAsReceived_at_most_once_witness :
  mapBlocksInFlight ex_block_received !! ex_hash_of "a" = None
  /\ MarkBlockAsReceived (ex_hash_of "a") 30 ex_block_received
     = Some (false, ex_block_received)
  /\ (true = false -> ex_block_received = ex_one_in_flight).
Proof.
  apply (MarkBlockAsReceived_at_most_once (ex_hash_of "a") 20 30
                                          ex_one_in_flight true).
  vm_compute. reflexivity.
Defined.

Lemma MarkBlockAsReceived_removes_one_witness :
  exists st st' g',
    MarkBlockAsReceived (ex_hash_of "a") 20 ex_one_in_flight = Some (true, g')
    /\ mapNodeState ex_one_in_flight !! 7 = Some st
    /\ mapNodeState g' !! 7 = Some st'
    /\ vBlocksInFlight st'
       = filter (fun e => hash e.2 <> ex_hash_of "a") (vBlocksInFlight st)
    /\ nBlocksInFlight st' = nBlocksInFlight st - 1
    /\ nStallingSince st' = 0
    /\ nDownloadingSince st <= nDownloadingSince st'
    /\ (forall p, p <> 7 ->
          mapNodeState g' !! p = mapNodeState ex_one_in_flight !! p)
    /\ (forall h', h' <> ex_hash_of "a" ->
          mapBlocksInFlight g' !! h' = mapBlocksInFlight ex_one_in_flight !! h').
Proof.
  apply (MarkBlockAsReceived_removes_one ex_one_in_flight (ex_hash_of "a") 20 7 O).
  - apply one_in_flight_reachable.
  - vm_compute. reflexivity.
Defined.

Lemma MarkBlockAsInFlight_owner_witness :
  let entry := (heap_next ex_two_peers,
                mkQueuedBlock (ex_hash_of "a") (Some 1%nat) true) in
  mapBlocksInFlight ex_one_in_flight !! ex_hash_of "a"
  = Some (7, heap_next ex_two_peers)
  /\ (exists st', mapNodeState ex_one_in_flight !! 7 = Some st'
                  /\ last (vBlocksInFlight st') = Some entry)
  /\ (forall p st it qb,
         mapNodeState ex_one_in_flight !! p = Some st ->
         (it, qb) ∈ vBlocksInFlight st ->
         hash qb = ex_hash_of "a" -> p = 7 /\ (it, qb) = entry)
  /\ (forall h', h' <> ex_hash_of "a" ->
         mapBlocksInFlight ex_one_in_flight !! h'
         = mapBlocksInFlight ex_two_peers !! h').
Proof.
  apply (MarkBlockAsInFlight_owner ex_two_peers 7 (ex_hash_of "a") (Some 1%nat)
                                   10 10 ex_one_in_flight).
  - apply two_peers_reachable.
  - apply one_in_flight_run.
Defined.

Lemma FinalizeNode_removes_peer_witness :
  exists g',
    FinalizeNode 7 ex_one_in_flight = Some (false, g')
    /\ mapNodeState g' = delete 7 (mapNodeState ex_one_in_flight)
    /\ mapBlocksInFlight g'
       = filter (fun kv => kv.2.1 <> 7) (mapBlocksInFlight ex_one_in_flight)
    /\ mapBlockSource g'
       = filter (fun kv => kv.2.1 <> 7) (mapBlockSource ex_one_in_flight)
    /\ mapOrphanTransactions g'
       = filter (fun kv => fromPeer kv.2 <> 7)
                (mapOrphanTransactions ex_one_in_flight)
    /\ orphan_pool_wf g'.
Proof.
  eexists. split; [vm_compute; reflexivity |].
  apply (FinalizeNode_removes_peer ex_one_in_flight 7 false).
  - apply one_in_flight_reachable.
  - apply one_in_flight_pool_wf.
  - vm_compute. reflexivity.
Defined.

(** Peer 7 leaves with its block: the index is empty afterwards. *)
Example ex_finalize_owner :
  (fun r => (r.1, size (mapNodeState r.2), size (mapBlocksInFlight r.2),
             nPeersWithValidatedDownloads r.2))
    <$> FinalizeNode 7 ex_one_in_flight
  = Some (false, 1%nat, 0%nat, 0).
Proof. vm_compute. reflexivity. Qed.

Lemma InitializeNode_FinalizeNode_roundtrip_witness :
  exists g',
    FinalizeNode 9 (InitializeNode (ex_peer 9 0 false 0) 5 ex_one_in_flight).1
    = Some (false, g')
    /\ download_part g' = download_part ex_one_in_flight.
Proof.
  apply (InitializeNode_FinalizeNode_roundtrip ex_one_in_flight
                                               (ex_peer 9 0 false 0) 5).
  - apply one_in_flight_reachable.
  - vm_compute. reflexivity.
Defined.

(** * More of uint256.h *)

Lemma byte_val_range b : 0 <= Blob.byte_val b < 256.
Proof.
  unfold Blob.byte_val. pose proof (Byte.to_N_bounded b). lia.
Qed.

Lemma IsNull_replicate (data : list byte) :
  Blob.IsNull data = true <-> data = replicate (length data) x00.
Proof.
  unfold Blob.IsNull. induction data as [| b data IH]; simpl; [done |].
  rewrite andb_true_iff, IH, Z.eqb_eq. split.
  - intros [Hb <-]. f_equal. by apply byte_val_inj.
  - intros [= -> Hd]. split; [done |]. by rewrite <- Hd.
Qed.

Lemma lor_shiftl_32 a b :
  0 <= a < 2 ^ 32 -> 0 <= b ->
  Z.lor a (Z.shiftl b 32) = a + 2 ^ 32 * b.
Proof.
  intros Ha Hb.
  assert (Z.land a (Z.shiftl b 32) = 0) as Hdisjoint.
  { apply Z.bits_inj'. intros n Hn. rewrite Z.land_spec, Z.bits_0.
    destruct (Z.lt_ge_cases n 32) as [Hlow | Hhigh].
    - rewrite (Z.shiftl_spec_low b 32 n) by done. apply andb_false_r.
    - assert (Z.testbit a n = false) as ->; [| done].
      destruct (Z.eq_dec a 0) as [-> | Hnz]; [apply Z.bits_0 |].
      apply Z.bits_above_log2; [lia |].
      apply Z.log2_lt_pow2; [lia |].
      apply Z.lt_le_trans with (2 ^ 32); [lia |].
      apply Z.pow_le_mono_r; lia. }
  rewrite <- Z.lxor_lor by done.
  rewrite <- Z.add_nocarry_lxor by done.
  rewrite Z.shiftl_mul_pow2 by lia. lia.
Qed.

(** X14: the comparison operators of [base_blob] agree with each other:
    [operator==] holds exactly for equal arrays, [operator!=] is its
    negation, and [operator<] is a strict total order, so that of
    [a < b], [a == b] and [b < a] exactly one holds, as a key type of
    [std::map] needs. *)
Theorem blob_operators_order (a b c : list byte) :
  (Blob.operator_eq a b = true <-> a = b)
  /\ Blob.operator_ne a b = negb (Blob.operator_eq a b)
  /\ Blob.operator_lt a a = false
  /\ (Blob.operator_lt a b = true -> Blob.operator_lt b c = true ->
      Blob.operator_lt a c = true)
  /\ (Blob.operator_lt a b = true -> Blob.operator_lt b a = false)
  /\ (Blob.operator_lt a b = false -> Blob.operator_lt b a = false ->
      Blob.operator_eq a b = true).
Proof.
  split; [apply operator_eq_spec |].
  split; [unfold Blob.operator_ne, Blob.operator_eq; by destruct (Blob.memcmp a b) |].
  split; [apply operator_lt_irrefl |].
  unfold Blob.operator_lt, Blob.operator_eq.
  rewrite (memcmp_antisym a b).
  split; [| split].
  - intros Hab Hbc.
    destruct (Blob.memcmp a b) eqn:Eab; try done.
    destruct (Blob.memcmp b c) eqn:Ebc; try done.
    by rewrite (memcmp_Lt_trans a b c Eab Ebc).
  - by destruct (Blob.memcmp a b).
  - by destruct (Blob.memcmp a b).
Qed.

(** X15: [IsNull] holds exactly for the array of zero bytes, that is for
    the value the default constructor and [SetNull] produce; in
    particular a [uint256] is null if and only if it equals the default
    one. *)
Theorem IsNull_iff_SetNull (BITS : Z) (data : list byte) :
  Blob.size data = Blob.WIDTH BITS ->
  (Blob.IsNull data = true <-> data = Blob.SetNull BITS)
  /\ (Blob.IsNull data = true <-> Blob.operator_eq data (Blob.SetNull BITS) = true).
Proof.
  unfold Blob.size, Blob.SetNull. intros Hsize.
  assert (Blob.IsNull data = true
          <-> data = replicate (Z.to_nat (Blob.WIDTH BITS)) x00) as Hiff.
  { rewrite IsNull_replicate, <- Hsize, Nat2Z.id. done. }
  split; [done |]. by rewrite operator_eq_spec.
Qed.

(** X16: [Get64(n)] does not return the n-th 64-bit word of the blob: it
    combines the two bytes [data[2n]] (low) and [data[2n+1]] (shifted by
    32 bits), so its value is below 2^40 and bits 8 to 31 are zero. *)
Theorem Get64_two_bytes (data : uint256) (n : nat) :
  Blob.size data = 32 -> (n < 16)%nat ->
  exists lo hi,
    data !! (2 * n)%nat = Some lo /\ data !! (2 * n + 1)%nat = Some hi
    /\ Blob.Get64 data n = Blob.byte_val lo + 2 ^ 32 * Blob.byte_val hi
    /\ 0 <= Blob.Get64 data n < 2 ^ 40
    /\ Blob.Get64 data n mod 2 ^ 32 < 2 ^ 8.
Proof.
  unfold Blob.size. intros Hsize Hn.
  destruct (lookup_lt_is_Some_2 data (2 * n)%nat ltac:(lia)) as [lo Hlo].
  destruct (lookup_lt_is_Some_2 data (2 * n + 1)%nat ltac:(lia)) as [hi Hhi].
  exists lo, hi. split; [done |]. split; [done |].
  pose proof (byte_val_range lo) as Hrlo.
  pose proof (byte_val_range hi) as Hrhi.
  assert (Blob.Get64 data n = Blob.byte_val lo + 2 ^ 32 * Blob.byte_val hi)
    as ->.
  { unfold Blob.Get64.
    rewrite (nth_lookup_Some _ _ _ _ Hlo), (nth_lookup_Some _ _ _ _ Hhi).
    apply lor_shiftl_32; lia. }
  split; [done |]. split; [lia |].
  replace (Blob.byte_val lo + 2 ^ 32 * Blob.byte_val hi)
    with (Blob.byte_val lo + Blob.byte_val hi * 2 ^ 32) by lia.
  rewrite Z_mod_plus_full. rewrite Z.mod_small; lia.
Qed.

Lemma IsNull_iff_SetNull_witness :
  (Blob.IsNull uint256_null = true <-> uint256_null = Blob.SetNull 256)
  /\ (Blob.IsNull uint256_null = true
      <-> Blob.operator_eq uint256_null (Blob.SetNull 256) = true).
Proof.
  apply (IsNull_iff_SetNull 256 uint256_null). reflexivity.
Defined.

Lemma Get64_two_bytes_witness :
  exists lo hi,
    ex_hash_of "a" !! (2 * 3)%nat = Some lo
    /\ ex_hash_of "a" !! (2 * 3 + 1)%nat = Some hi
    /\ Blob.Get64 (ex_hash_of "a") 3 = Blob.byte_val lo + 2 ^ 32 * Blob.byte_val hi
    /\ 0 <= Blob.Get64 (ex_hash_of "a") 3 < 2 ^ 40
    /\ Blob.Get64 (ex_hash_of "a") 3 mod 2 ^ 32 < 2 ^ 8.
Proof.
  apply (Get64_two_bytes (ex_hash_of "a") 3).
  - reflexivity.
  - lia.
Defined.

(** The blob of 32 bytes [0x61]: every [Get64(n)] is [0x61 + 0x61 * 2^32]. *)
Example ex_Get64 :
  (Blob.Get64 (ex_hash_of "a") 0, Blob.Get64 (ex_hash_of "a") 3)
  = (416611827809, 416611827809).
Proof. vm_compute. reflexivity. Qed.

(** * More of the misbehaviour score *)

(** X17: penalties add up.  Two calls of [Misbehaving] for the same peer
    with positive scores [a] and [b] end in the state that a single call
    with [a + b] ends in: the same score and the same ban flag. *)
Theorem Misbehaving_adds_up bs pnode a b r1 r2 r3 g g1 g2 :
  0 < a -> 0 < b ->
  Misbehaving bs pnode a r1 g = Some g1 ->
  Misbehaving bs pnode b r2 g1 = Some g2 ->
  Misbehaving bs pnode (a + b) r3 g = Some g2.
Proof.
  intros Ha Hb H1 H2. unfold Misbehaving in *.
  rewrite (proj2 (Z.eqb_neq a 0)) in H1 by lia.
  rewrite (proj2 (Z.eqb_neq b 0)) in H2 by lia.
  rewrite (proj2 (Z.eqb_neq (a + b) 0)) by lia.
  destruct (mapNodeState g !! pnode) as [st |] eqn:Hst.
  2:{ injection H1 as <-. rewrite Hst in H2. done. }
  destruct (int_checked (nMisbehavior st + a)) as [n1 |] eqn:Hn1;
    simpl in H1; [| done].
  apply int_checked_Some in Hn1 as [-> Hr1].
  destruct (int_checked (nMisbehavior st + a - a)) as [before1 |] eqn:Hb1;
    simpl in H1; [| done].
  apply int_checked_Some in Hb1 as [-> Hr0].
  injection H1 as <-. simpl in H2. rewrite lookup_insert_eq in H2. simpl in H2.
  destruct (int_checked (nMisbehavior st + a + b)) as [n2 |] eqn:Hn2;
    simpl in H2; [| done].
  apply int_checked_Some in Hn2 as [-> Hr2].
  destruct (int_checked (nMisbehavior st + a + b - b)) as [before2 |] eqn:Hb2;
    simpl in H2; [| done].
  apply int_checked_Some in Hb2 as [-> _].
  injection H2 as <-.
  rewrite (int_checked_in_range (nMisbehavior st + (a + b))) by lia. simpl.
  rewrite (int_checked_in_range (nMisbehavior st + (a + b) - (a + b))) by lia.
  simpl. f_equal. unfold set_mapNodeState. simpl. f_equal.
  rewrite insert_insert_eq. f_equal.
  unfold set_misbehavior. simpl. f_equal; [lia |].
  repeat match goal with
         | |- context [?x <=? ?y] => destruct (Z.leb_spec x y)
         | |- context [?x <? ?y] => destruct (Z.ltb_spec x y)
         end; simpl; try done; lia.
Qed.

(** X18: [Misbehaving] never clears a ban flag and never touches another
    peer: every registered peer stays registered, a flag that was set
    stays set, a score of zero or an unregistered target changes nothing
    at all, and a negative score can lower the target's score but cannot
    set its flag. *)
Theorem Misbehaving_only_raises_ban bs pnode howmuch reason g g' :
  Misbehaving bs pnode howmuch reason g = Some g' ->
  (howmuch = 0 \/ mapNodeState g !! pnode = None -> g' = g)
  /\ forall q st,
       mapNodeState g !! q = Some st ->
       exists st',
         mapNodeState g' !! q = Some st'
         /\ (fShouldBan st = true -> fShouldBan st' = true)
         /\ (howmuch <= 0 -> fShouldBan st' = fShouldBan st)
         /\ (q <> pnode -> st' = st)
         /\ same_download_fields st st'.
Proof.
  unfold Misbehaving. intros Hrun.
  destruct (Z.eqb_spec howmuch 0) as [-> | Hnz].
  { injection Hrun as <-. split; [done |].
    intros q st Hq. exists st. by repeat split. }
  destruct (mapNodeState g !! pnode) as [stp |] eqn:Hp.
  2:{ injection Hrun as <-. split; [done |].
      intros q st Hq. exists st. by repeat split. }
  destruct (int_checked (nMisbehavior stp + howmuch)) as [n |] eqn:Hn;
    simpl in Hrun; [| done].
  apply int_checked_Some in Hn as [-> _].
  destruct (int_checked (nMisbehavior stp + howmuch - howmuch)) as [before |]
    eqn:Hb; simpl in Hrun; [| done].
  apply int_checked_Some in Hb as [-> _].
  injection Hrun as <-. split; [intros [? | ?]; done |].
  intros q st Hq. simpl. destruct (decide (q = pnode)) as [-> | Hne].
  - rewrite Hp in Hq. injection Hq as <-.
    eexists. split; [apply lookup_insert_eq |]. simpl.
    split; [| split; [| split; [done | by repeat split]]].
    + intros ->. by destruct (_ && _).
    + intros Hneg.
      destruct (Z.leb_spec bs (nMisbehavior stp + howmuch));
        destruct (Z.ltb_spec (nMisbehavior stp + howmuch - howmuch) bs);
        simpl; try done; lia.
  - exists st. rewrite lookup_insert_ne by done. by repeat split.
Qed.

(** * More of the dispatcher *)

Lemma not_dropped env drop_draw :
  dropmessagestest env = None \/ drop_draw <> 0 ->
  bool_decide (is_Some (dropmessagestest env)) && (drop_draw =? 0) = false.
Proof.
  intros [-> | Hd].
  - rewrite bool_decide_eq_false_2; [done |]. by intros [? ?].
  - apply andb_false_iff. right. by apply Z.eqb_neq.
Qed.

Section Refusals.
Variable ProcessVersionFields : CNode -> list byte -> Globals -> option Outcome.
Variable ProcessOtherCommand :
  CNode -> string -> list byte -> Z -> Globals -> option Outcome.

(** X19: before the peer's version is known every message other than
    VERSION is refused: [ProcessMessage] returns false, pushes nothing,
    leaves the connection object alone, runs no handler, and raises the
    score of the (registered) peer by exactly 1, setting [fShouldBan] only
    when this crosses [banscore]. *)
Theorem ProcessMessage_before_version
    (env : Env) (pfrom : CNode) (strCommand : string) (vRecv : list byte)
    (nTimeReceived drop_draw : Z) (g : Globals) (st : CNodeState) :
  nVersion pfrom = 0 ->
  strCommand <> "version"%string ->
  dropmessagestest env = None \/ drop_draw <> 0 ->
  is_filter_command strCommand = false
    \/ Z.land (nLocalServices pfrom) (NODE_BLOOM env) <> 0 ->
  mapNodeState g !! id pfrom = Some st ->
  INT_MIN <= nMisbehavior st ->
  nMisbehavior st + 1 <= INT_MAX ->
  let crossed :=
    banscore env <= nMisbehavior st + 1 /\ nMisbehavior st < banscore env in
  exists ban,
    ProcessMessage ProcessVersionFields ProcessOtherCommand env pfrom strCommand
                   vRecv nTimeReceived drop_draw g
    = Some (false, pfrom,
            set_mapNodeState
              (<[id pfrom := set_misbehavior st (nMisbehavior st + 1) ban]>
                 (mapNodeState g)) g,
            [])
    /\ (crossed -> ban = true)
    /\ (~ crossed -> ban = fShouldBan st).
Proof.
  intros Hver Hcmd Hdrop Hbloom Hst Hlo Hhi crossed.
  eexists. split.
  - unfold ProcessMessage. rewrite (not_dropped env drop_draw Hdrop).
    assert ((Z.land (nLocalServices pfrom) (NODE_BLOOM env) =? 0)
            && is_filter_command strCommand = false) as ->.
    { destruct Hbloom as [-> | Hb]; [apply andb_false_r |].
      by rewrite (proj2 (Z.eqb_neq _ _) Hb). }
    simpl. rewrite bool_decide_eq_false_2 by done.
    rewrite Hver. simpl.
    rewrite (Misbehaving_registered (banscore env) (id pfrom) 1
               "missing-version" g st Hst) by int_range.
    reflexivity.
  - subst crossed.
    destruct (Z.leb_spec (banscore env) (nMisbehavior st + 1));
      destruct (Z.ltb_spec (nMisbehavior st) (banscore env)); simpl;
      split; intros; try done; lia.
Qed.


End Refusals.

(** * More of the ping bookkeeping *)

Lemma draw_nonce_Some fuel rand i nonce :
  draw_nonce fuel rand i = Some nonce ->
  0 < nonce < UINT64_MOD /\ exists j, nonce = rand j mod UINT64_MOD.
Proof.
  revert i. induction fuel as [| fuel IH]; intros i; simpl; [done |].
  destruct (Z.eqb_spec (rand i mod UINT64_MOD) 0) as [Hz | Hnz].
  - apply IH.
  - intros [= <-].
    pose proof (Z.mod_pos_bound (rand i) UINT64_MOD ltac:(unfold UINT64_MOD; lia)).
    split; [lia | by exists i].
Qed.

Lemma draw_nonce_total fuel rand i j :
  (i <= j < i + fuel)%nat -> rand j mod UINT64_MOD <> 0 ->
  is_Some (draw_nonce fuel rand i).
Proof.
  revert i. induction fuel as [| fuel IH]; intros i Hj Hnz; [lia |].
  simpl. destruct (Z.eqb_spec (rand i mod UINT64_MOD) 0) as [Hz | ?]; [| done].
  apply IH; [| done]. destruct (decide (i = j)) as [-> | ?]; [done | lia].
Qed.

Section PingTick.
Variable ProcessVersionFields : CNode -> list byte -> Globals -> option Outcome.
Variable ProcessOtherCommand :
  CNode -> string -> list byte -> Z -> Globals -> option Outcome.
Variable SendMessagesLocked : CNode -> Globals -> list NetMsg -> option Outcome.

(** X21: the ping block of [SendMessages], on a connection whose
    handshake is complete, when [cs_main] is busy.  A tick sends at most
    one PING; it sends one exactly when a ping was requested by the user
    or none is outstanding and more than [PING_INTERVAL] seconds have
    passed since the last one started.  The nonce sent is never zero, it
    is recorded as outstanding together with the start time, and the
    user's request is cleared.  While a ping is outstanding and none is
    requested, nothing is sent and nothing changes.  The tick returns as
    soon as the random source delivers a non-zero value. *)
Theorem SendMessages_ping (env : Env) (pto : CNode) (now1 now2 : Z)
    (fuel : nat) (rand : nat -> Z) (g : Globals) :
  fSuccessfullyConnected pto = true -> fDisconnect pto = false ->
  INT_MIN <= PING_INTERVAL env * 1000000 <= INT_MAX ->
  INT64_MIN <= nPingUsecStart pto + PING_INTERVAL env * 1000000 <= INT64_MAX ->
  let run := SendMessages SendMessagesLocked env pto now1 now2 fuel rand false g in
  let due := fPingQueued pto = true
             \/ (nPingNonceSent pto = 0
                 /\ nPingUsecStart pto + PING_INTERVAL env * 1000000 < now1) in
  (~ due -> run = Some (true, pto, g, []))
  /\ (due -> forall r, run = Some r ->
        exists nonce,
          r = (true,
               set_ping pto false nonce now2 (nPingUsecTime pto)
                        (nMinPingUsecTime pto),
               g, [NetPing nonce])
          /\ 0 < nonce < UINT64_MOD)
  /\ ((exists j, (j < fuel)%nat /\ rand j mod UINT64_MOD <> 0) -> is_Some run).
Proof.
  intros Hconn Hdisc Hint Hsum run due. subst run. unfold SendMessages.
  rewrite Hconn, Hdisc. simpl.
  assert ((if nPingNonceSent pto =? 0
           then limit ← int_checked (PING_INTERVAL env * 1000000);
                deadline ← int64_checked (nPingUsecStart pto + limit);
                Some (deadline <? now1)
           else Some false)
          = Some ((nPingNonceSent pto =? 0)
                  && (nPingUsecStart pto + PING_INTERVAL env * 1000000 <? now1)))
    as ->.
  { destruct (nPingNonceSent pto =? 0); [| done].
    rewrite int_checked_in_range by done. simpl.
    unfold int64_checked. by rewrite bool_decide_eq_true_2. }
  simpl.
  assert (fPingQueued pto
          || (nPingNonceSent pto =? 0)
             && (nPingUsecStart pto + PING_INTERVAL env * 1000000 <? now1) = true
          <-> due) as Hdue.
  { subst due. rewrite orb_true_iff, andb_true_iff, Z.eqb_eq, Z.ltb_lt. done. }
  destruct (fPingQueued pto
            || (nPingNonceSent pto =? 0)
               && (nPingUsecStart pto + PING_INTERVAL env * 1000000 <? now1))
    eqn:Hsend.
  - split; [intros Hn; destruct Hn; by apply Hdue |]. split.
    + intros _ r Hr.
      destruct (draw_nonce fuel rand O) as [nonce |] eqn:Hdraw;
        simpl in Hr; [| done].
      injection Hr as <-. exists nonce. split; [done |].
      by apply draw_nonce_Some in Hdraw as [? _].
    + intros (j & Hj & Hnz).
      destruct (draw_nonce_total fuel rand O j ltac:(lia) Hnz) as [nonce ->].
      done.
  - split; [done |]. split; [| done].
    intros Hd. apply Hdue in Hd. done.
Qed.

(** X22: a ping and its echo.  When the tick has sent PING with some
    nonce, and a PONG whose payload starts with the same eight bytes
    arrives later (and is not dropped), [ProcessMessage] accepts it:
    the outstanding nonce is cleared, the round-trip time is the time
    between the start of the ping and the receipt, and the minimum is
    lowered to it if it was larger.  Nothing else changes. *)
Theorem ping_then_pong (env : Env) (pto pto1 : CNode) (now1 now2 : Z)
    (fuel : nat) (rand : nat -> Z) (g g1 : Globals) (nonce : Z)
    (vRecv : list byte) (nTimeReceived drop_draw : Z) :
  SendMessages SendMessagesLocked env pto now1 now2 fuel rand false g
  = Some (true, pto1, g, [NetPing nonce]) ->
  nVersion pto <> 0 ->
  dropmessagestest env = None \/ drop_draw <> 0 ->
  (8 <= length vRecv)%nat ->
  read_le 8 vRecv = nonce ->
  now2 < nTimeReceived ->
  nTimeReceived - now2 <= INT64_MAX ->
  ProcessMessage ProcessVersionFields ProcessOtherCommand env pto1 "pong"
                 vRecv nTimeReceived drop_draw g1
  = Some (true,
          set_ping pto false 0 now2 (nTimeReceived - now2)
                   (Z.min (nMinPingUsecTime pto) (nTimeReceived - now2)),
          g1, []).
Proof.
  intros Hsend Hver Hdrop Hlen Hnonce Hlater Hmax.
  assert (pto1 = set_ping pto false nonce now2 (nPingUsecTime pto)
                          (nMinPingUsecTime pto)
          /\ 0 < nonce) as [-> Hpos].
  { unfold SendMessages in Hsend.
    destruct (negb (fSuccessfullyConnected pto) || fDisconnect pto);
      [done |].
    destruct (if nPingNonceSent pto =? 0 then _ else _) as [due |];
      simpl in Hsend; [| done].
    destruct (fPingQueued pto || due); simpl in Hsend; [| done].
    destruct (draw_nonce fuel rand O) as [n |] eqn:Hdraw; simpl in Hsend; [| done].
    injection Hsend as <- <-.
    by apply draw_nonce_Some in Hdraw as [[? _] _]. }
  unfold ProcessMessage. rewrite (not_dropped env drop_draw Hdrop).
  change (is_filter_command "pong") with false.
  rewrite !andb_false_r. simpl.
  rewrite (proj2 (Z.eqb_neq _ _) Hver). simpl.
  unfold ProcessPong. cbn -[read_le Z.sub Z.min].
  rewrite (proj2 (Z.leb_le 8 (Z.of_nat (length vRecv)))) by lia.
  rewrite Hnonce, (proj2 (Z.eqb_neq nonce 0)) by lia.
  rewrite Z.eqb_refl. cbn -[read_le Z.sub Z.min].
  unfold int64_checked.
  rewrite bool_decide_eq_true_2 by (unfold INT64_MIN; lia).
  cbn -[read_le Z.sub Z.min].
  rewrite (proj2 (Z.ltb_lt 0 (nTimeReceived - now2))) by lia.
  reflexivity.
Qed.

End PingTick.

(** * More of the inventory test *)

Lemma operator_ne_refl a : Blob.operator_ne a a = false.
Proof.
  destruct (Blob.operator_ne a a) eqn:Hne; [| done].
  by apply operator_ne_spec in Hne.
Qed.

(** X23: asking again changes nothing.  Once [AlreadyHave] has answered a
    query, the same query against the same chain state gets the same
    answer and leaves the rejects filter and the recorded tip as they are;
    after a transaction query every further query under the same tip
    leaves them alone, so the filter is reset at most once per tip.
    Queries for anything but a transaction never touch the filter. *)
Theorem AlreadyHave_settles `{RollingBloom F} (inv : CInv) (view : ChainView)
    (g : Globals) (r r' : RejectsState F) (b : bool) :
  AlreadyHave inv view g r = Some (b, r') ->
  AlreadyHave inv view g r' = Some (b, r')
  /\ (inv_type inv <> MSG_TX -> r' = r)
  /\ (inv_type inv = MSG_TX ->
      hashRecentRejectsChainTip r' = tip_hash view
      /\ forall inv2 g2, exists b2, AlreadyHave inv2 view g2 r' = Some (b2, r')).
Proof.
  unfold AlreadyHave. intros Hrun.
  destruct (inv_type inv) eqn:Htype;
    try (injection Hrun as <- <-; repeat split; done).
  destruct (recentRejects r) as [filter |] eqn:Hfilter; simpl in Hrun; [| done].
  assert (exists filter',
             refresh_rejects view filter (hashRecentRejectsChainTip r)
             = mkRejectsState (Some filter') (tip_hash view))
    as (filter' & Hrefresh).
  { unfold refresh_rejects.
    destruct (Blob.operator_ne (tip_hash view) (hashRecentRejectsChainTip r))
      eqn:Hne.
    - by eexists.
    - exists filter. f_equal.
      destruct (decide (tip_hash view = hashRecentRejectsChainTip r))
        as [| Hd]; [done |].
      apply operator_ne_spec in Hd. congruence. }
  rewrite Hrefresh in Hrun. simpl in Hrun. injection Hrun as <- <-.
  assert (refresh_rejects view filter' (tip_hash view)
          = mkRejectsState (Some filter') (tip_hash view)) as Hagain.
  { unfold refresh_rejects. by rewrite operator_ne_refl. }
  simpl. rewrite Hagain. simpl.
  split; [done |]. split; [done |]. intros _. split; [done |].
  intros inv2 g2. destruct (inv_type inv2); simpl; rewrite ?Hagain; simpl;
    by eexists.
Qed.

(** * Worked examples for the dispatcher and the filter *)

Lemma Misbehaving_adds_up_witness :
  exists g1 g2,
    Misbehaving 100 7 60 "a" ex_two_peers = Some g1
    /\ Misbehaving 100 7 40 "b" g1 = Some g2
    /\ Misbehaving 100 7 (60 + 40) "c" ex_two_peers = Some g2.
Proof.
  eexists _, _. split; [vm_compute; reflexivity |].
  split; [vm_compute; reflexivity |].
  eapply (Misbehaving_adds_up 100 7 60 40 "a" "b" "c" ex_two_peers).
  - lia.
  - lia.
  - vm_compute. reflexivity.
  - vm_compute. reflexivity.
Defined.

Lemma Misbehaving_only_raises_ban_witness :
  (99 = 0 \/ mapNodeState ex_two_peers !! 7 = None
   -> ex_almost_banned = ex_two_peers)
  /\ forall q st,
       mapNodeState ex_two_peers !! q = Some st ->
       exists st',
         mapNodeState ex_almost_banned !! q = Some st'
         /\ (fShouldBan st = true -> fShouldBan st' = true)
         /\ (99 <= 0 -> fShouldBan st' = fShouldBan st)
         /\ (q <> 7 -> st' = st)
         /\ same_download_fields st st'.
Proof.
  apply (Misbehaving_only_raises_ban 100 7 99 "invalid" ex_two_peers).
  vm_compute. reflexivity.
Defined.

Lemma ProcessMessage_before_version_witness :
  exists ban,
    ProcessMessage ex_no_version_fields ex_no_other_command ex_env
                   (ex_peer 7 0 false 0) "ping" [] 0 0 ex_two_peers
    = Some (false, ex_peer 7 0 false 0,
            set_mapNodeState
              (<[7 := set_misbehavior CNodeState_new (0 + 1) ban]>
                 (mapNodeState ex_two_peers)) ex_two_peers,
            [])
    /\ ban = false.
Proof.
  destruct (ProcessMessage_before_version ex_no_version_fields
              ex_no_other_command ex_env (ex_peer 7 0 false 0) "ping" [] 0 0
              ex_two_peers CNodeState_new)
    as (ban & Hrun & _ & Hno).
  - reflexivity.
  - discriminate.
  - left. reflexivity.
  - left. reflexivity.
  - vm_compute. reflexivity.
  - vm_compute. discriminate.
  - vm_compute. discriminate.
  - exists ban. split; [exact Hrun |]. apply Hno. simpl. lia.
Defined.


Lemma SendMessages_ping_witness :
  exists nonce,
    SendMessages ex_no_locked_tick ex_env (ex_peer 7 70015 true 0)
                 200000000 200000001 4 (fun _ => 9) false ex_two_peers
    = Some (true,
            set_ping (ex_peer 7 70015 true 0) false nonce 200000001 0 5000,
            ex_two_peers, [NetPing nonce])
    /\ 0 < nonce < UINT64_MOD.
Proof.
  destruct (SendMessages_ping ex_no_locked_tick ex_env (ex_peer 7 70015 true 0)
              200000000 200000001 4 (fun _ => 9) ex_two_peers)
    as (_ & Hsent & Htotal).
  - reflexivity.
  - reflexivity.
  - vm_compute. split; discriminate.
  - vm_compute. split; discriminate.
  - destruct Htotal as [r Hr].
    + exists O. split; [lia | vm_compute; discriminate].
    + destruct (Hsent (or_intror (conj eq_refl eq_refl)) r Hr)
        as (nonce & -> & Hrange).
      exists nonce. split; [exact Hr | exact Hrange].
Defined.

Lemma ping_then_pong_witness :
  ProcessMessage ex_no_version_fields ex_no_other_command ex_env
                 (set_ping (ex_peer 7 70015 true 0) false 9 200000001 0 5000)
                 "pong" (ex_pong_payload x09) 200000301 0 ex_one_in_flight
  = Some (true,
          set_ping (ex_peer 7 70015 true 0) false 0 200000001
                   (200000301 - 200000001)
                   (Z.min 5000 (200000301 - 200000001)),
          ex_one_in_flight, []).
Proof.
  apply (ping_then_pong ex_no_version_fields ex_no_other_command
           ex_no_locked_tick ex_env (ex_peer 7 70015 true 0) _
           200000000 200000001 4 (fun _ => 9) ex_two_peers ex_one_in_flight 9).
  - vm_compute. reflexivity.
  - vm_compute. discriminate.
  - left. reflexivity.
  - simpl. lia.
  - vm_compute. reflexivity.
  - lia.
  - vm_compute. discriminate.
Defined.

Lemma AlreadyHave_settles_witness :
  let view := {| tip_hash := ex_hash_of "t";
                 mempool_exists := fun _ => false;
                 HaveCoinInCache := fun _ => false;
                 mapBlockIndex_count := fun _ => false;
                 stxmempool_exists := fun _ => false |} in
  let r' := mkRejectsState (Some []) (ex_hash_of "t") in
  AlreadyHave (mkCInv MSG_TX (ex_hash_of "a")) view ex_three_orphans r'
  = Some (true, r')
  /\ (MSG_TX <> MSG_TX -> r' = mkRejectsState (Some [ex_hash_of "a"]) uint256_null)
  /\ (MSG_TX = MSG_TX ->
      hashRecentRejectsChainTip r' = tip_hash view
      /\ forall inv2 g2, exists b2, AlreadyHave inv2 view g2 r' = Some (b2, r')).
Proof.
  intros view r'.
  apply (AlreadyHave_settles (mkCInv MSG_TX (ex_hash_of "a")) view
                             ex_three_orphans
                             (mkRejectsState (Some [ex_hash_of "a"]) uint256_null)).
  vm_compute. reflexivity.
Defined.

(** * The block index: [LastCommonAncestor] *)

Lemma parent_fun heap a b b' : parent heap a b -> parent heap a b' -> b = b'.
Proof. intros (ia & Ha & Hb) (ia' & Ha' & Hb'). congruence. Qed.

Lemma ancestor_inv heap a c :
  ancestor heap a c -> a = c \/ exists a', parent heap a a' /\ ancestor heap a' c.
Proof. apply rtc_inv. Qed.

Lemma ancestor_height heap a c ia :
  heap_wf heap -> ancestor heap a c -> heap !! a = Some ia ->
  exists ic, heap !! c = Some ic /\ nHeight ic <= nHeight ia.
Proof.
  intros Hwf Hanc. revert ia.
  induction Hanc as [a | a a' c Hpar Hanc IH]; intros ia Ha.
  - exists ia. split; [done | lia].
  - destruct Hpar as (ia0 & Ha0 & Hprev).
    rewrite Ha in Ha0. injection Ha0 as <-.
    destruct (wf_pprev heap Hwf _ _ _ Ha Hprev) as (ia' & Ha' & Hh).
    destruct (IH ia' Ha') as (ic & Hc & Hle).
    exists ic. split; [done | lia].
Qed.

Lemma ancestor_same_height heap a c ia ic :
  heap_wf heap -> ancestor heap a c ->
  heap !! a = Some ia -> heap !! c = Some ic -> nHeight ia <= nHeight ic ->
  a = c.
Proof.
  intros Hwf Hanc Ha Hc Hh.
  destruct (ancestor_inv heap a c Hanc) as [| (a' & (ia0 & Ha0 & Hprev) & Hanc')];
    [done |].
  rewrite Ha in Ha0. injection Ha0 as <-.
  destruct (wf_pprev heap Hwf _ _ _ Ha Hprev) as (ia' & Ha' & Hh').
  destruct (ancestor_height heap a' c ia' Hwf Hanc' Ha') as (ic' & Hc' & Hle).
  rewrite Hc in Hc'. injection Hc' as <-. lia.
Qed.

(** The ancestors of a block form a chain. *)
Lemma ancestors_linear heap a q c iq ic :
  heap_wf heap -> ancestor heap a q -> ancestor heap a c ->
  heap !! q = Some iq -> heap !! c = Some ic -> nHeight ic <= nHeight iq ->
  ancestor heap q c.
Proof.
  intros Hwf Hq. revert c ic.
  induction Hq as [a | a a' q Hpar Hq IH]; intros c ic Hc Hiq Hic Hh; [done |].
  destruct (ancestor_inv heap a c Hc) as [<- | (a'' & Hpar' & Hc')].
  - destruct Hpar as (ia & Ha & Hprev).
    rewrite Hic in Ha. injection Ha as <-.
    destruct (wf_pprev heap Hwf _ _ _ Hic Hprev) as (ia' & Ha' & Hh').
    destruct (ancestor_height heap a' q ia' Hwf Hq Ha') as (iq' & Hiq' & Hle).
    rewrite Hiq in Hiq'. injection Hiq' as <-. lia.
  - rewrite <- (parent_fun heap a a' a'' Hpar Hpar') in Hc'.
    by eapply IH.
Qed.

Lemma LastCommonAncestor_loop_sym heap fuel pa pb :
  LastCommonAncestor_loop heap fuel pa pb
  = LastCommonAncestor_loop heap fuel pb pa.
Proof.
  revert pa pb. induction fuel as [| fuel IH]; intros pa pb; simpl.
  - destruct (decide (pa = pb)) as [-> | Hne]; [done |].
    rewrite (bool_decide_eq_true_2 (pa <> pb)) by done.
    rewrite (bool_decide_eq_true_2 (pb <> pa)) by done.
    rewrite (bool_decide_eq_false_2 (pa = pb)) by done.
    rewrite (bool_decide_eq_false_2 (pb = pa)) by done.
    simpl. destruct pa, pb; simpl; done.
  - destruct (decide (pa = pb)) as [-> | Hne]; [done |].
    rewrite (bool_decide_eq_true_2 (pa <> pb)) by done.
    rewrite (bool_decide_eq_true_2 (pb <> pa)) by done.
    rewrite (bool_decide_eq_false_2 (pa = pb)) by done.
    rewrite (bool_decide_eq_false_2 (pb = pa)) by done.
    simpl. destruct pa as [a |], pb as [b |]; simpl; try done.
    destruct (heap !! a) as [ia |], (heap !! b) as [ib |]; simpl;
      first [done | apply IH].
Qed.

Lemma LastCommonAncestor_loop_level heap fuel a b ia ib :
  heap_wf heap ->
  heap !! a = Some ia -> heap !! b = Some ib ->
  nHeight ia = nHeight ib ->
  (Z.to_nat (nHeight ia) < fuel)%nat ->
  exists r,
    LastCommonAncestor_loop heap fuel (Some a) (Some b) = Some r
    /\ forall c, ancestor heap a c /\ ancestor heap b c
                 <-> exists q, r = Some q /\ ancestor heap q c.
Proof.
  intros Hwf. revert a b ia ib.
  induction fuel as [| fuel IH]; intros a b ia ib Ha Hb Hlevel Hfuel; [lia |].
  destruct (decide (a = b)) as [-> | Hne].
  - exists (Some b). split.
    + simpl. rewrite bool_decide_eq_false_2 by (intros Hn; by apply Hn).
      simpl. by rewrite bool_decide_eq_true_2.
    + intros c. split.
      * intros [Hc _]. by exists b.
      * intros (q & [= <-] & Hc). done.
  - simpl. rewrite !bool_decide_eq_true_2 by congruence. simpl.
    rewrite Ha, Hb. simpl.
    pose proof (wf_height heap Hwf _ _ Ha) as Hha.
    destruct (pprev ia) as [a' |] eqn:Hpa; destruct (pprev ib) as [b' |] eqn:Hpb.
    + destruct (wf_pprev heap Hwf _ _ _ Ha Hpa) as (ia' & Ha' & Hh').
      destruct (wf_pprev heap Hwf _ _ _ Hb Hpb) as (ib' & Hb' & Hh'').
      pose proof (wf_height heap Hwf _ _ Ha') as Hha'.
      destruct (IH a' b' ia' ib' Ha' Hb' ltac:(lia) ltac:(lia))
        as (r & Hrun & Hchar).
      exists r. split; [done |]. intros c. rewrite <- Hchar. split.
      * intros [Hca Hcb]. split.
        -- destruct (ancestor_inv heap a c Hca) as [<- | (x & Hpar & Hx)].
           ++ exfalso. apply Hne. symmetry.
              eapply ancestor_same_height; [done | exact Hcb | done | done | lia].
           ++ assert (parent heap a a') as Hpar' by (by exists ia).
              by rewrite (parent_fun heap a a' x Hpar' Hpar).
        -- destruct (ancestor_inv heap b c Hcb) as [<- | (x & Hpar & Hx)].
           ++ exfalso. apply Hne.
              eapply ancestor_same_height; [done | exact Hca | done | done | lia].
           ++ assert (parent heap b b') as Hpar' by (by exists ib).
              by rewrite (parent_fun heap b b' x Hpar' Hpar).
      * intros [Hca Hcb]. split.
        -- eapply rtc_l; [| exact Hca]. by exists ia.
        -- eapply rtc_l; [| exact Hcb]. by exists ib.
    + destruct (wf_pprev heap Hwf _ _ _ Ha Hpa) as (ia' & Ha' & Hh').
      pose proof (wf_height heap Hwf _ _ Ha').
      pose proof (wf_genesis heap Hwf _ _ Hb Hpb). lia.
    + destruct (wf_pprev heap Hwf _ _ _ Hb Hpb) as (ib' & Hb' & Hh').
      pose proof (wf_height heap Hwf _ _ Hb').
      pose proof (wf_genesis heap Hwf _ _ Ha Hpa). lia.
    + exists None. split; [by destruct fuel |].
      intros c. split; [| by intros (q & [=] & _)].
      intros [Hca Hcb]. exfalso. apply Hne.
      destruct (ancestor_inv heap a c Hca) as [-> | (x & (i & Hi & Hp) & _)];
        [| congruence].
      destruct (ancestor_inv heap b c Hcb) as [-> | (x & (i & Hi & Hp) & _)];
        [done | congruence].
Qed.

(** X24: on a block index as the chain manager builds it, and with a
    [GetAncestor] that keeps its contract, [LastCommonAncestor] of two
    blocks returns (its assertion holds and its loop ends within as many
    rounds as the lower of the two heights plus one), and what it returns
    is the last common ancestor: a block is an ancestor of both arguments
    exactly when it is an ancestor of the result; a null result means the
    two blocks have no common ancestor.  The order of the arguments does
    not matter. *)
Theorem LastCommonAncestor_spec (heap : BlockHeap)
    (GetAncestor : nat -> Z -> CBlockIndexPtr) (fuel : nat)
    (a b : nat) (ia ib : CBlockIndex) :
  heap_wf heap -> GetAncestor_ok heap GetAncestor ->
  heap !! a = Some ia -> heap !! b = Some ib ->
  (Z.to_nat (Z.min (nHeight ia) (nHeight ib)) < fuel)%nat ->
  exists r,
    LastCommonAncestor heap GetAncestor fuel (Some a) (Some b) = Some r
    /\ LastCommonAncestor heap GetAncestor fuel (Some b) (Some a) = Some r
    /\ forall c, ancestor heap a c /\ ancestor heap b c
                 <-> exists q, r = Some q /\ ancestor heap q c.
Proof.
  intros Hwf Hget Ha Hb Hfuel.
  pose proof (wf_height heap Hwf _ _ Ha) as Hha.
  pose proof (wf_height heap Hwf _ _ Hb) as Hhb.
  assert (forall a b ia ib,
             heap !! a = Some ia -> heap !! b = Some ib ->
             nHeight ib < nHeight ia ->
             (Z.to_nat (nHeight ib) < fuel)%nat ->
             exists q iq,
               GetAncestor a (nHeight ib) = Some q
               /\ heap !! q = Some iq /\ nHeight iq = nHeight ib
               /\ forall c, ancestor heap a c /\ ancestor heap b c
                            <-> ancestor heap q c /\ ancestor heap b c) as Hlower.
  { clear a b ia ib Ha Hb Hfuel Hha Hhb. intros a b ia ib Ha Hb Hlt Hfuel.
    pose proof (wf_height heap Hwf _ _ Hb) as Hhb.
    destruct (Hget a ia (nHeight ib) Ha ltac:(lia)) as (q & iq & Hq & Haq & Hiq & Hh).
    exists q, iq. split; [done |]. split; [done |]. split; [done |].
    intros c. split.
    - intros [Hca Hcb]. split; [| done].
      destruct (ancestor_height heap b c ib Hwf Hcb Hb) as (ic & Hic & Hle).
      eapply ancestors_linear; [done | exact Haq | exact Hca | done | done | lia].
    - intros [Hcq Hcb]. split; [| done]. unfold ancestor in *. by etrans. }
  unfold LastCommonAncestor. simpl. rewrite Ha, Hb. simpl.
  destruct (Z.ltb_spec (nHeight ib) (nHeight ia)) as [Hlt | Hge].
  - rewrite (proj2 (Z.ltb_ge (nHeight ia) (nHeight ib))) by lia.
    destruct (Hlower a b ia ib Ha Hb Hlt ltac:(lia))
      as (q & iq & -> & Hiq & Hh & Hsame).
    destruct (LastCommonAncestor_loop_level heap fuel q b iq ib Hwf Hiq Hb
                ltac:(lia) ltac:(lia)) as (r & Hrun & Hchar).
    exists r. split; [done |].
    split; [by rewrite LastCommonAncestor_loop_sym |].
    intros c. by rewrite Hsame, Hchar.
  - destruct (Z.ltb_spec (nHeight ia) (nHeight ib)) as [Hlt | Hge'].
    + destruct (Hlower b a ib ia Hb Ha Hlt ltac:(lia))
        as (q & iq & -> & Hiq & Hh & Hsame).
      destruct (LastCommonAncestor_loop_level heap fuel a q ia iq Hwf Ha Hiq
                  ltac:(lia) ltac:(lia)) as (r & Hrun & Hchar).
      exists r. split; [done |].
      split; [by rewrite LastCommonAncestor_loop_sym |].
      intros c. rewrite <- Hchar. specialize (Hsame c). tauto.
    + destruct (LastCommonAncestor_loop_level heap fuel a b ia ib Hwf Ha Hb
                  ltac:(lia) ltac:(lia)) as (r & Hrun & Hchar).
      exists r. split; [done |].
      split; [by rewrite LastCommonAncestor_loop_sym |]. done.
Qed.

(** ** A block index to try it on *)

Lemma ex_walk_ok heap fuel a ia h :
  heap_wf heap -> heap !! a = Some ia -> 0 <= h <= nHeight ia ->
  (Z.to_nat (nHeight ia - h) <= fuel)%nat ->
  exists q iq, ex_walk heap fuel a h = Some q /\ ancestor heap a q
               /\ heap !! q = Some iq /\ nHeight iq = h.
Proof.
  intros Hwf. revert a ia.
  induction fuel as [| fuel IH]; intros a ia Ha Hh Hfuel.
  - exists a, ia. simpl. rewrite Ha.
    rewrite (proj2 (Z.eqb_eq (nHeight ia) h)) by lia.
    split; [done |]. split; [apply rtc_refl |]. split; [done | lia].
  - simpl. rewrite Ha. destruct (Z.eqb_spec (nHeight ia) h) as [Heq | Hne].
    + exists a, ia. split; [done |]. split; [apply rtc_refl | done].
    + destruct (pprev ia) as [b |] eqn:Hprev.
      * destruct (wf_pprev heap Hwf _ _ _ Ha Hprev) as (ib & Hb & Hhb).
        destruct (IH b ib Hb ltac:(lia) ltac:(lia)) as (q & iq & Hrun & Hanc & Hq).
        exists q, iq. split; [done |]. split; [| done].
        eapply rtc_l; [| exact Hanc]. by exists ia.
      * pose proof (wf_genesis heap Hwf _ _ Ha Hprev). lia.
Qed.

Lemma ex_GetAncestor_ok heap :
  heap_wf heap -> GetAncestor_ok heap (ex_GetAncestor heap).
Proof.
  intros Hwf a ia h Ha Hh. unfold ex_GetAncestor. rewrite Ha.
  apply (ex_walk_ok heap _ a ia h Hwf Ha Hh). lia.
Qed.

Ltac ex_block_cases H :=
  apply elem_of_list_to_map_2 in H; unfold ex_blocks in H;
  repeat (apply elem_of_cons in H as [H | H]);
  [injection H as -> ->.. | by apply elem_of_nil in H].

Lemma ex_heap_wf : heap_wf ex_heap.
Proof.
  split.
  - intros a ia Ha. ex_block_cases Ha; simpl; lia.
  - intros a ia b Ha Hprev.
    ex_block_cases Ha; simpl in Hprev; try discriminate Hprev;
      injection Hprev as <-; eexists; (split; [reflexivity | reflexivity]).
  - intros a ia Ha Hprev.
    ex_block_cases Ha; simpl in Hprev; try discriminate Hprev; reflexivity.
Qed.

Lemma LastCommonAncestor_spec_witness :
  LastCommonAncestor ex_heap (ex_GetAncestor ex_heap) 4 (Some 3%nat) (Some 4%nat)
  = Some (Some 1%nat)
  /\ LastCommonAncestor ex_heap (ex_GetAncestor ex_heap) 4 (Some 4%nat) (Some 3%nat)
     = Some (Some 1%nat)
  /\ forall c, ancestor ex_heap 3%nat c /\ ancestor ex_heap 4%nat c
               <-> ancestor ex_heap 1%nat c.
Proof.
  destruct (LastCommonAncestor_spec ex_heap (ex_GetAncestor ex_heap) 4
              3%nat 4%nat (ex_block "j" (Some 2%nat) 3 4)
              (ex_block "k" (Some 1%nat) 2 3))
    as (r & Hrun & Hrun' & Hchar).
  - apply ex_heap_wf.
  - apply ex_GetAncestor_ok, ex_heap_wf.
  - reflexivity.
  - reflexivity.
  - simpl. lia.
  - assert (r = Some 1%nat) as ->.
    { vm_compute in Hrun. by injection Hrun as <-. }
    split; [exact Hrun |]. split; [exact Hrun' |].
    intros c. rewrite Hchar. split.
    + intros (q & [= <-] & Hq). exact Hq.
    + intros Hq. by exists 1%nat.
Defined.

(** The two tips of the fork meet at block 1, whatever the order. *)
Example ex_fork_point :
  (LastCommonAncestor ex_heap (ex_GetAncestor ex_heap) 4 (Some 3%nat) (Some 5%nat),
   LastCommonAncestor ex_heap (ex_GetAncestor ex_heap) 4 (Some 5%nat) (Some 2%nat),
   LastCommonAncestor ex_heap (ex_GetAncestor ex_heap) 4 (Some 3%nat) (Some 1%nat))
  = (Some (Some 1%nat), Some (Some 1%nat), Some (Some 1%nat)).
Proof. vm_compute. reflexivity. Qed.

(** * Which blocks a peer has *)

Lemma better_known_spec heap best p ip best' :
  heap !! p = Some ip ->
  better_known heap best p ip = Some best' ->
  (known_work heap best <= known_work heap best')%N
  /\ (nChainWork ip <= known_work heap best')%N
  /\ (best' = best \/ best' = Some p).
Proof.
  intros Hp. unfold better_known, known_work.
  destruct best as [q |]; simpl.
  - destruct (heap !! q) as [iq |] eqn:Hq; simpl; [| done].
    destruct (N.leb_spec (nChainWork iq) (nChainWork ip)); intros [= <-]; simpl.
    + rewrite Hp. split; [lia |]. split; [lia | by right].
    + rewrite Hq. split; [lia |]. split; [lia | by left].
  - intros [= <-]. simpl. rewrite Hp. split; [lia |]. split; [lia | by right].
Qed.

Lemma availability_grows_refl heap nodeid nodes st :
  nodes !! nodeid = Some st -> availability_grows heap nodeid nodes nodes.
Proof. intros Hst. exists st, st. split; [done |]. split; [done |]. split; [lia | done]. Qed.

Lemma availability_grows_trans heap nodeid n1 n2 n3 :
  availability_grows heap nodeid n1 n2 -> availability_grows heap nodeid n2 n3 ->
  availability_grows heap nodeid n1 n3.
Proof.
  intros (s1 & s2 & H1 & H2 & Hle & Ho) (s2' & s3 & H2' & H3 & Hle' & Ho').
  rewrite H2 in H2'. injection H2' as <-.
  exists s1, s3. split; [done |]. split; [done |]. split; [lia |].
  intros q Hq. by rewrite Ho', Ho.
Qed.

Lemma ProcessBlockAvailability_grows idx heap nodeid nodes nodes' :
  ProcessBlockAvailability idx heap nodeid nodes = Some nodes' ->
  availability_grows heap nodeid nodes nodes'.
Proof.
  unfold ProcessBlockAvailability. intros Hrun.
  destruct (nodes !! nodeid) as [st |] eqn:Hst; simpl in Hrun; [| done].
  destruct (negb (Blob.IsNull (hashLastUnknownBlock st)));
    [| injection Hrun as <-; by eapply availability_grows_refl].
  destruct (idx !! hashLastUnknownBlock st) as [p |];
    [| injection Hrun as <-; by eapply availability_grows_refl].
  destruct (heap !! p) as [ip |] eqn:Hp; simpl in Hrun; [| done].
  destruct (0 <? nChainWork ip)%N;
    [| injection Hrun as <-; by eapply availability_grows_refl].
  destruct (better_known heap (pindexBestKnownBlock st) p ip) as [best |] eqn:Hbest;
    simpl in Hrun; [| done].
  injection Hrun as <-.
  destruct (better_known_spec heap _ p ip best Hp Hbest) as (Hle & _ & _).
  eexists st, _. split; [done |]. split; [apply lookup_insert_eq |].
  split; [done |]. intros q Hq. by apply lookup_insert_ne.
Qed.

(** X25: the availability tracking only moves forward.  Whenever
    [ProcessBlockAvailability] or [UpdateBlockAvailability] returns, the
    peer is still registered, the chain work of its best known block has
    not gone down, and no other peer has changed; and after
    [UpdateBlockAvailability] with a hash that the block index knows with
    positive work, the best known block has at least that work. *)
Theorem block_availability_monotone (mapBlockIndex : gmap uint256 nat)
    (heap : BlockHeap) (nodeid : NodeId) (nodes : gmap NodeId CNodeAvail) :
  (forall nodes',
      ProcessBlockAvailability mapBlockIndex heap nodeid nodes = Some nodes' ->
      availability_grows heap nodeid nodes nodes')
  /\ (forall h nodes',
         UpdateBlockAvailability mapBlockIndex heap nodeid h nodes = Some nodes' ->
         availability_grows heap nodeid nodes nodes'
         /\ forall p ip,
              mapBlockIndex !! h = Some p -> heap !! p = Some ip ->
              (0 < nChainWork ip)%N ->
              exists st', nodes' !! nodeid = Some st'
                          /\ (nChainWork ip
                              <= known_work heap (pindexBestKnownBlock st'))%N).
Proof.
  split; [apply ProcessBlockAvailability_grows |].
  intros h nodes' Hrun. unfold UpdateBlockAvailability in Hrun.
  destruct (nodes !! nodeid) as [st0 |] eqn:Hst0; simpl in Hrun; [| done].
  destruct (ProcessBlockAvailability mapBlockIndex heap nodeid nodes)
    as [nodes1 |] eqn:Hproc; simpl in Hrun; [| done].
  apply ProcessBlockAvailability_grows in Hproc.
  destruct (nodes1 !! nodeid) as [st1 |] eqn:Hst1; simpl in Hrun; [| done].
  assert (forall hlast,
             availability_grows heap nodeid nodes1
               (<[nodeid := {| pindexBestKnownBlock := pindexBestKnownBlock st1;
                               hashLastUnknownBlock := hlast |}]> nodes1))
    as Hsame.
  { intros hlast. eexists st1, _. split; [done |].
    split; [apply lookup_insert_eq |]. simpl. split; [lia |].
    intros q Hq. by apply lookup_insert_ne. }
  destruct (mapBlockIndex !! h) as [p |] eqn:Hidx.
  2:{ injection Hrun as <-. split; [| done].
      eapply availability_grows_trans; [exact Hproc | apply Hsame]. }
  destruct (heap !! p) as [ip |] eqn:Hp; simpl in Hrun; [| done].
  destruct (N.ltb_spec 0 (nChainWork ip)) as [Hpos | Hzero].
  2:{ injection Hrun as <-. split.
      - eapply availability_grows_trans; [exact Hproc | apply Hsame].
      - intros p' ip' [= <-] Hp'. rewrite Hp in Hp'. injection Hp' as <-. lia. }
  destruct (better_known heap (pindexBestKnownBlock st1) p ip) as [best |] eqn:Hbest;
    simpl in Hrun; [| done].
  injection Hrun as <-.
  destruct (better_known_spec heap _ p ip best Hp Hbest) as (Hle & Hwork & _).
  split.
  - eapply availability_grows_trans; [exact Hproc |].
    eexists st1, _. split; [done |]. split; [apply lookup_insert_eq |].
    split; [done |]. intros q Hq. by apply lookup_insert_ne.
  - intros p' ip' [= <-] Hp'. rewrite Hp in Hp'. injection Hp' as <-.
    eexists. split; [apply lookup_insert_eq | done].
Qed.

(** X26: an announcement that comes too early is not lost.  When a peer
    announces a (non-null) hash the block index does not know yet,
    [UpdateBlockAvailability] remembers it; once the block index knows the
    hash with positive work, the next [ProcessBlockAvailability] for the
    peer raises its best known block to at least that work and forgets the
    remembered hash. *)
Theorem unknown_block_resolved (mapBlockIndex mapBlockIndex' : gmap uint256 nat)
    (heap heap' : BlockHeap) (nodeid : NodeId) (h : uint256)
    (nodes nodes1 : gmap NodeId CNodeAvail) (p : nat) (ip : CBlockIndex) :
  UpdateBlockAvailability mapBlockIndex heap nodeid h nodes = Some nodes1 ->
  mapBlockIndex !! h = None -> Blob.IsNull h = false ->
  mapBlockIndex' !! h = Some p -> heap' !! p = Some ip ->
  (0 < nChainWork ip)%N ->
  (forall q iq, heap !! q = Some iq -> heap' !! q = Some iq) ->
  (forall st, nodes !! nodeid = Some st ->
              pindexBestKnownBlock st = None
              \/ is_Some (deref heap (pindexBestKnownBlock st))) ->
  exists st1 nodes2 st2,
    nodes1 !! nodeid = Some st1 /\ hashLastUnknownBlock st1 = h
    /\ ProcessBlockAvailability mapBlockIndex' heap' nodeid nodes1 = Some nodes2
    /\ nodes2 !! nodeid = Some st2
    /\ Blob.IsNull (hashLastUnknownBlock st2) = true
    /\ (nChainWork ip <= known_work heap' (pindexBestKnownBlock st2))%N.
Proof.
  intros Hrun Hunknown Hnonnull Hidx' Hp Hpos Hkeep Hvalid.
  unfold UpdateBlockAvailability in Hrun.
  destruct (nodes !! nodeid) as [st0 |] eqn:Hst0; simpl in Hrun; [| done].
  destruct (ProcessBlockAvailability mapBlockIndex heap nodeid nodes)
    as [nodes0 |] eqn:Hproc; simpl in Hrun; [| done].
  destruct (nodes0 !! nodeid) as [st |] eqn:Hst; simpl in Hrun; [| done].
  rewrite Hunknown in Hrun. injection Hrun as <-.
  (* the best known block of the peer is still valid *)
  assert (pindexBestKnownBlock st = None
          \/ is_Some (deref heap' (pindexBestKnownBlock st))) as Hbest.
  { assert (forall bp, is_Some (deref heap bp) -> is_Some (deref heap' bp))
      as Hup.
    { intros [q |]; simpl; [| by intros [? ?]].
      intros [iq Hq]. exists iq. by apply Hkeep. }
    unfold ProcessBlockAvailability in Hproc. rewrite Hst0 in Hproc.
    simpl in Hproc.
    assert (nodes0 = nodes ->
            pindexBestKnownBlock st = None
            \/ is_Some (deref heap' (pindexBestKnownBlock st))) as Hsame.
    { intros ->. rewrite Hst0 in Hst. injection Hst as <-.
      destruct (Hvalid st0 eq_refl) as [? | ?]; [by left | right; by apply Hup]. }
    destruct (negb (Blob.IsNull (hashLastUnknownBlock st0)));
      [| injection Hproc as <-; by apply Hsame].
    destruct (mapBlockIndex !! hashLastUnknownBlock st0) as [p0 |];
      [| injection Hproc as <-; by apply Hsame].
    destruct (heap !! p0) as [ip0 |] eqn:Hp0; simpl in Hproc; [| done].
    destruct (0 <? nChainWork ip0)%N;
      [| injection Hproc as <-; by apply Hsame].
    destruct (better_known heap (pindexBestKnownBlock st0) p0 ip0)
      as [best |] eqn:Hbk; simpl in Hproc; [| done].
    injection Hproc as <-. rewrite lookup_insert_eq in Hst.
    injection Hst as <-. simpl. right. apply Hup.
    destruct (better_known_spec heap _ p0 ip0 best Hp0 Hbk) as (_ & _ & [-> | ->]).
    - destruct (Hvalid st0 eq_refl) as [Hn | ?]; [| done].
      unfold better_known in Hbk. rewrite Hn in Hbk. done.
    - simpl. by rewrite Hp0. }
  eexists _. rewrite lookup_insert_eq.
  unfold ProcessBlockAvailability. rewrite lookup_insert_eq. simpl.
  rewrite Hnonnull, Hidx'. simpl. rewrite Hp. simpl.
  rewrite (proj2 (N.ltb_lt _ _) Hpos).
  assert (exists best, better_known heap' (pindexBestKnownBlock st) p ip = Some best)
    as [best Hbk].
  { unfold better_known. destruct (pindexBestKnownBlock st) as [q |]; [| by eexists].
    destruct Hbest as [? | [iq Hq]]; [done |]. simpl in Hq. rewrite Hq. simpl.
    by eexists. }
  rewrite Hbk. simpl.
  destruct (better_known_spec heap' _ p ip best Hp Hbk) as (_ & Hwork & _).
  eexists _, _. split; [done |]. split; [done |]. split; [done |].
  split; [apply lookup_insert_eq |]. simpl.
  split; [reflexivity | done].
Qed.

Lemma block_availability_monotone_witness :
  availability_grows ex_heap 7 ex_avail ex_avail_announced
  /\ exists st', ex_avail_announced !! 7 = Some st'
                 /\ (5 <= known_work ex_heap (pindexBestKnownBlock st'))%N.
Proof.
  destruct (proj2 (block_availability_monotone ex_mapBlockIndex ex_heap 7 ex_avail)
              (ex_hash_of "l") ex_avail_announced)
    as [Hgrows Hwork].
  - vm_compute. reflexivity.
  - split; [exact Hgrows |].
    apply (Hwork 5%nat (ex_block "l" (Some 4%nat) 3 5)).
    + vm_compute. reflexivity.
    + vm_compute. reflexivity.
    + reflexivity.
Defined.

Lemma unknown_block_resolved_witness :
  exists st1 nodes2 st2,
    ex_avail_parked !! 7 = Some st1 /\ hashLastUnknownBlock st1 = ex_hash_of "l"
    /\ ProcessBlockAvailability ex_mapBlockIndex ex_heap 7 ex_avail_parked
       = Some nodes2
    /\ nodes2 !! 7 = Some st2
    /\ Blob.IsNull (hashLastUnknownBlock st2) = true
    /\ (5 <= known_work ex_heap (pindexBestKnownBlock st2))%N.
Proof.
  apply (unknown_block_resolved ex_mapBlockIndex_before ex_mapBlockIndex
           ex_heap_before ex_heap 7 (ex_hash_of "l") ex_avail ex_avail_parked
           5%nat (ex_block "l" (Some 4%nat) 3 5)).
  - vm_compute. reflexivity.
  - vm_compute. reflexivity.
  - vm_compute. reflexivity.
  - vm_compute. reflexivity.
  - vm_compute. reflexivity.
  - reflexivity.
  - intros q iq Hq. unfold ex_heap_before in Hq.
    by apply lookup_delete_Some in Hq as [_ Hq].
  - intros st Hst. right. vm_compute in Hst. injection Hst as <-.
    vm_compute. by eexists.
Defined.

(** Block 5 is announced before its header is known: the hash is parked,
    and picked up once the block index has it. *)
Example ex_parked_announcement :
  (fun nodes1 =>
     (hashLastUnknownBlock <$> nodes1 !! 7,
      (fun nodes2 => pindexBestKnownBlock <$> nodes2 !! 7)
        <$> ProcessBlockAvailability ex_mapBlockIndex ex_heap 7 nodes1))
    <$> UpdateBlockAvailability ex_mapBlockIndex_before ex_heap_before 7
                                (ex_hash_of "l") ex_avail
  = Some (Some (ex_hash_of "l"), Some (Some (Some 5%nat))).
Proof. vm_compute. reflexivity. Qed.

(** * Rejected blocks and bans *)

Lemma Misbehaving_inv bs pnode howmuch reason g g' :
  Misbehaving bs pnode howmuch reason g = Some g' ->
  g' = g
  \/ exists st ban,
       mapNodeState g !! pnode = Some st
       /\ g' = set_mapNodeState
                 (<[pnode := set_misbehavior st (nMisbehavior st + howmuch) ban]>
                    (mapNodeState g)) g.
Proof.
  unfold Misbehaving. intros Hrun.
  destruct (howmuch =? 0); [left; by injection Hrun as <- |].
  destruct (mapNodeState g !! pnode) as [st |] eqn:Hst;
    [| left; by injection Hrun as <-].
  destruct (int_checked (nMisbehavior st + howmuch)) as [n |] eqn:Hn;
    simpl in Hrun; [| done].
  apply int_checked_Some in Hn as [-> _].
  destruct (int_checked _) as [before |]; simpl in Hrun; [| done].
  injection Hrun as <-. right. by eexists st, _.
Qed.

Section Bans.
Context `{TxSerializer}.


End Bans.

Lemma BlockChecked_no_source bs REJECT_INTERNAL MAX_REJECT_MESSAGE_LENGTH h
    state g :
  mapBlockSource g !! h = None ->
  BlockChecked bs REJECT_INTERNAL MAX_REJECT_MESSAGE_LENGTH h state g
  = Some (g, None).
Proof.
  intros Hnone. unfold BlockChecked. rewrite Hnone.
  assert (set_mapBlockSource (delete h (mapBlockSource g)) g = g) as Hid.
  { destruct g. unfold set_mapBlockSource. simpl in *.
    f_equal. by apply delete_id. }
  destruct (IsInvalid state); simpl; by rewrite Hid.
Qed.

(** X29: [BlockChecked] settles the account of a block once.  Afterwards
    the block has no source entry left (all other entries are as
    before), the in-flight index and the counters are untouched, and the
    only peer whose state can have changed is the recorded source, which
    happens only for an invalid block with a positive DoS score, a source
    marked for punishment and a reject code strictly between 0 and
    [REJECT_INTERNAL].  A second [BlockChecked] for the same block,
    whatever its verdict, changes nothing and queues no reject. *)
Theorem BlockChecked_once (bs REJECT_INTERNAL : Z) (MAX_REJECT_MESSAGE_LENGTH : nat)
    (h : uint256) (state state2 : CValidationState) (g g' : Globals)
    (rej : option (NodeId * CBlockReject)) :
  BlockChecked bs REJECT_INTERNAL MAX_REJECT_MESSAGE_LENGTH h state g
  = Some (g', rej) ->
  mapBlockSource g' = delete h (mapBlockSource g)
  /\ mapBlocksInFlight g' = mapBlocksInFlight g
  /\ (nSyncStarted g', nPreferredDownload g', nPeersWithValidatedDownloads g')
     = (nSyncStarted g, nPreferredDownload g, nPeersWithValidatedDownloads g)
  /\ (forall q, (forall punish, mapBlockSource g !! h <> Some (q, punish)) ->
                mapNodeState g' !! q = mapNodeState g !! q)
  /\ (mapNodeState g' <> mapNodeState g ->
      exists source nDoS,
        mapBlockSource g !! h = Some (source, true)
        /\ IsInvalid state = Some nDoS /\ 0 < nDoS
        /\ 0 < GetRejectCode state < REJECT_INTERNAL)
  /\ (forall source reject, rej = Some (source, reject) ->
        (exists punish, mapBlockSource g !! h = Some (source, punish))
        /\ is_Some (mapNodeState g !! source)
        /\ is_Some (IsInvalid state)
        /\ hashBlock reject = h
        /\ 0 <= chRejectCode reject < 256)
  /\ BlockChecked bs REJECT_INTERNAL MAX_REJECT_MESSAGE_LENGTH h state2 g'
     = Some (g', None).
Proof.
  intros Hrun.
  assert (mapBlockSource g' = delete h (mapBlockSource g)
          -> BlockChecked bs REJECT_INTERNAL MAX_REJECT_MESSAGE_LENGTH h state2 g'
             = Some (g', None)) as Hsecond.
  { intros Hsrc. apply BlockChecked_no_source. rewrite Hsrc.
    apply lookup_delete_eq. }
  unfold BlockChecked in Hrun.
  destruct (IsInvalid state) as [nDoS |] eqn:Hinv.
  2:{ simpl in Hrun. injection Hrun as <- <-. simpl in Hsecond.
      repeat (split; [done |]). by apply Hsecond. }
  destruct (mapBlockSource g !! h) as [[source punish] |] eqn:Hsrc.
  2:{ simpl in Hrun. injection Hrun as <- <-. simpl in Hsecond.
      repeat (split; [done |]). by apply Hsecond. }
  destruct (bool_decide (is_Some (mapNodeState g !! source))) eqn:Hreg;
    simpl in Hrun.
  2:{ injection Hrun as <- <-. simpl in Hsecond.
      repeat (split; [done |]). by apply Hsecond. }
  apply bool_decide_eq_true in Hreg.
  destruct (Z.ltb_spec 0 (GetRejectCode state)) as [Hc0 | Hc0]; simpl in Hrun.
  2:{ injection Hrun as <- <-. simpl in Hsecond.
      repeat (split; [done |]). by apply Hsecond. }
  destruct (Z.ltb_spec (GetRejectCode state) REJECT_INTERNAL) as [Hc1 | Hc1];
    simpl in Hrun.
  2:{ injection Hrun as <- <-. simpl in Hsecond.
      repeat (split; [done |]). by apply Hsecond. }
  assert (forall source' reject,
             Some (source,
                   {| chRejectCode := GetRejectCode state `mod` 256;
                      strRejectReason :=
                        String.substring 0 MAX_REJECT_MESSAGE_LENGTH
                                         (GetRejectReason state);
                      hashBlock := h |}) = Some (source', reject) ->
             (exists punish0, Some (source, punish) = Some (source', punish0))
             /\ is_Some (mapNodeState g !! source')
             /\ is_Some (Some nDoS)
             /\ hashBlock reject = h
             /\ 0 <= chRejectCode reject < 256) as Hrej.
  { intros source' reject [= <- <-]. simpl.
    split; [by eexists |]. split; [done |]. split; [by eexists |].
    split; [done |]. apply Z.mod_pos_bound. lia. }
  destruct ((0 <? nDoS) && punish) eqn:Hpunish; simpl in Hrun.
  - destruct (Misbehaving bs source nDoS (GetRejectReason state) g)
      as [g1 |] eqn:Hmis; simpl in Hrun; [| done].
    injection Hrun as <- <-. simpl in Hsecond.
    apply andb_true_iff in Hpunish as [Hdos ->]. apply Z.ltb_lt in Hdos.
    assert (mapBlockSource g1 = mapBlockSource g
            /\ mapBlocksInFlight g1 = mapBlocksInFlight g
            /\ (nSyncStarted g1, nPreferredDownload g1,
                nPeersWithValidatedDownloads g1)
               = (nSyncStarted g, nPreferredDownload g,
                  nPeersWithValidatedDownloads g)
            /\ forall q, q <> source ->
                         mapNodeState g1 !! q = mapNodeState g !! q)
      as (Hs1 & Hi1 & Hc & Ho).
    { destruct (Misbehaving_inv _ _ _ _ _ _ Hmis) as [-> | (st & ban & _ & ->)];
        [done |]. simpl. repeat split; try done.
      intros q Hq. by apply lookup_insert_ne. }
    simpl. split; [by rewrite Hs1 |]. split; [done |]. split; [done |].
    split.
    { intros q Hq. apply Ho. intros ->. by apply (Hq true). }
    split.
    { intros _. exists source, nDoS. by repeat split. }
    split; [exact Hrej |].
    apply Hsecond. by rewrite Hs1.
  - injection Hrun as <- <-. simpl in Hsecond. simpl.
    do 4 (split; [done |]). split; [intros Hn; by destruct Hn |].
    split; [exact Hrej |]. by apply Hsecond.
Qed.

(** * Address relay *)

Section RelayProofs.
Variable hashKey : NodeId -> Z.
Hypothesis hashKey_unsigned : forall i, 0 <= hashKey i.

Lemma relay_candidates_snoc l x :
  length (relay_candidates hashKey (l ++ [x]))
  = (length (relay_candidates hashKey l)
     + if decide (0 < hashKey (id x))%Z then 1 else 0)%nat.
Proof.
  unfold relay_candidates. rewrite filter_app, length_app.
  rewrite filter_cons, filter_nil. by destruct (decide _).
Qed.

Lemma relay_best_ok_init two :
  relay_best_ok hashKey two [] ((0, None), (0, None)).
Proof.
  unfold relay_best_ok. simpl.
  split; [lia |]. split; [lia |]. split; [lia |].
  split; [intros n Hn; by apply elem_of_nil in Hn |].
  split; [lia |].
  destruct two; [| done].
  split; [intros n Hn; by apply elem_of_nil in Hn | lia].
Qed.

Lemma relay_best_ok_step two l best x :
  relay_best_ok hashKey two l best ->
  relay_best_ok hashKey two (l ++ [x])
    (RelayAddress_sortfunc hashKey (if two then 2%nat else 1%nat) best x).
Proof.
  destruct best as [[k0 p0] [k1 p1]].
  unfold relay_best_ok, RelayAddress_sortfunc. simpl.
  intros (Hord & H0 & H1 & Hmax & Hc1 & Htwo).
  pose proof (hashKey_unsigned (id x)) as Hkx.
  rewrite relay_candidates_snoc.
  assert ((0 <? (if two then 2 else 1))%nat = true) as -> by (by destruct two).
  assert ((1 <? (if two then 2 else 1))%nat = two) as -> by (by destruct two).
  simpl.
  destruct (Z.ltb_spec k0 (hashKey (id x))) as [Hbeat0 | Hkeep0]; simpl.
  - (* the new node takes the first place *)
    rewrite decide_True by lia.
    destruct two; simpl.
    + destruct Htwo as [Hrest Hc2].
      split; [lia |].
      split; [intros _; exists x; split; [done |]; split; [| done];
              apply elem_of_app; right; by left |].
      split.
      { intros Hk0. destruct (H0 Hk0) as (n0 & -> & Hin & Hkey).
        exists n0. split; [done |]. split; [| done].
        apply elem_of_app. by left. }
      split.
      { intros n [Hn | Hn%list_elem_of_singleton]%elem_of_app.
        - specialize (Hmax n Hn). lia.
        - subst n. lia. }
      split; [split; [lia | lia] |].
      split.
      { intros n [Hn | Hn%list_elem_of_singleton]%elem_of_app Hne.
        - by apply Hmax.
        - by subst n. }
      split; [intros Hk0; apply Hc1 in Hk0; lia | intros Hc; apply Hc1; lia].
    + subst k1.
      split; [lia |].
      split; [intros _; exists x; split; [done |]; split; [| done];
              apply elem_of_app; right; by left |].
      split; [lia |].
      split.
      { intros n [Hn | Hn%list_elem_of_singleton]%elem_of_app.
        - specialize (Hmax n Hn). lia.
        - subst n. lia. }
      split; [split; [lia | lia] | done].
  - destruct two; simpl.
    + destruct Htwo as [Hrest Hc2].
      destruct (Z.ltb_spec k1 (hashKey (id x))) as [Hbeat1 | Hkeep1]; simpl.
      * (* the new node takes the second place *)
        rewrite decide_True by lia.
        split; [lia |].
        split.
        { intros Hk0. destruct (H0 Hk0) as (n0 & -> & Hin & Hkey).
          exists n0. split; [done |]. split; [| done].
          apply elem_of_app. by left. }
        split; [intros _; exists x; split; [done |]; split; [| done];
                apply elem_of_app; right; by left |].
        split.
        { intros n [Hn | Hn%list_elem_of_singleton]%elem_of_app.
          - by apply Hmax.
          - by subst n. }
        split; [split; [lia | intros _; lia] |].
        split.
        { intros n [Hn | Hn%list_elem_of_singleton]%elem_of_app Hne.
          - specialize (Hrest n Hn Hne). lia.
          - subst n. lia. }
        split; [intros _ | lia].
        assert (0 < k0) as Hk0 by lia. apply Hc1 in Hk0. lia.
      * (* the new node is not among the best two *)
        split; [lia |].
        split.
        { intros Hk0. destruct (H0 Hk0) as (n0 & -> & Hin & Hkey).
          exists n0. split; [done |]. split; [| done].
          apply elem_of_app. by left. }
        split.
        { intros Hk1. destruct (H1 Hk1) as (n1 & -> & Hin & Hkey).
          exists n1. split; [done |]. split; [| done].
          apply elem_of_app. by left. }
        split.
        { intros n [Hn | Hn%list_elem_of_singleton]%elem_of_app.
          - by apply Hmax.
          - by subst n. }
        destruct (decide (0 < hashKey (id x))) as [Hpos | Hzero].
        -- assert (0 < k1) as Hk1 by lia. apply Hc2 in Hk1 as Hge2.
           split; [split; [lia | lia] |].
           split.
           { intros n [Hn | Hn%list_elem_of_singleton]%elem_of_app Hne.
             - by apply Hrest.
             - by subst n. }
           split; [lia | lia].
        -- rewrite Nat.add_0_r.
           split; [done |].
           split; [| done].
           intros n [Hn | Hn%list_elem_of_singleton]%elem_of_app Hne.
           ++ by apply Hrest.
           ++ subst n. lia.
    + subst k1.
      split; [lia |].
      split.
      { intros Hk0. destruct (H0 Hk0) as (n0 & -> & Hin & Hkey).
        exists n0. split; [done |]. split; [| done].
        apply elem_of_app. by left. }
      split; [lia |].
      split.
      { intros n [Hn | Hn%list_elem_of_singleton]%elem_of_app.
        - by apply Hmax.
        - by subst n. }
      split; [| done].
      destruct (decide (0 < hashKey (id x))); [| by rewrite Nat.add_0_r].
      split; [lia | intros _; lia].
Qed.

Lemma relay_best_ok_foldl two nodes :
  relay_best_ok hashKey two nodes
    (foldl (RelayAddress_sortfunc hashKey (if two then 2%nat else 1%nat))
           ((0, None), (0, None)) nodes).
Proof.
  induction nodes as [| x l IH] using rev_ind.
  - apply relay_best_ok_init.
  - rewrite foldl_app. simpl. by apply relay_best_ok_step.
Qed.

(** X28: [RelayAddress] passes the address to the nodes with the highest
    hash keys: to two of them for a reachable address and to one
    otherwise, or to fewer if fewer nodes have a non-zero key.  The first
    node it pushes to has the highest key of all, the second the highest
    among the others, and a node whose key is zero is never chosen. *)
Theorem RelayAddress_picks_best (fReachable : bool) (nodes : list CNode) :
  exists pushes,
    RelayAddress hashKey fReachable nodes = Some pushes
    /\ length pushes
       = Nat.min (if fReachable then 2 else 1)
                 (length (relay_candidates hashKey nodes))
    /\ (forall p, p ∈ pushes -> p ∈ nodes /\ 0 < hashKey (id p))
    /\ (forall p0 n, head pushes = Some p0 -> n ∈ nodes ->
                     hashKey (id n) <= hashKey (id p0))
    /\ (forall p0 p1, pushes = [p0; p1] ->
          hashKey (id p1) <= hashKey (id p0)
          /\ forall n, n ∈ nodes -> n <> p0 -> hashKey (id n) <= hashKey (id p1)).
Proof.
  unfold RelayAddress.
  pose proof (relay_best_ok_foldl fReachable nodes) as Hinv.
  destruct (foldl _ _ nodes) as [[k0 p0] [k1 p1]].
  unfold relay_best_ok in Hinv. simpl in Hinv.
  destruct Hinv as (Hord & H0 & H1 & Hmax & Hc1 & Htwo).
  unfold RelayAddress_pushfunc. simpl.
  assert ((0 <? (if fReachable then 2 else 1))%nat = true) as ->
    by (by destruct fReachable).
  assert ((1 <? (if fReachable then 2 else 1))%nat = fReachable) as ->
    by (by destruct fReachable).
  simpl.
  destruct (Z.eqb_spec k0 0) as [Hz0 | Hnz0]; simpl.
  { exists []. split; [done |]. split.
    - assert (length (relay_candidates hashKey nodes) = 0%nat) as ->.
      { destruct (length (relay_candidates hashKey nodes)); [done |].
        assert (0 < k0) by (apply Hc1; lia). lia. }
      by destruct fReachable.
    - split; [intros p Hp; by apply elem_of_nil in Hp |]. by split. }
  destruct (H0 ltac:(lia)) as (n0 & -> & Hin0 & Hkey0). simpl.
  destruct fReachable; simpl.
  - destruct Htwo as [Hrest Hc2].
    destruct (Z.eqb_spec k1 0) as [Hz1 | Hnz1]; simpl.
    + exists [n0]. split; [done |]. split.
      { assert (length (relay_candidates hashKey nodes) = 1%nat) as ->; [| done].
        assert (1 <= length (relay_candidates hashKey nodes))%nat
          by (apply Hc1; lia).
        destruct (decide (2 <= length (relay_candidates hashKey nodes))%nat)
          as [Hge | ?]; [| lia].
        apply Hc2 in Hge. lia. }
      split.
      { intros p Hp%list_elem_of_singleton. subst p. split; [done | lia]. }
      split; [| done].
      intros p n [= <-] Hn. rewrite Hkey0. by apply Hmax.
    + destruct (H1 ltac:(lia)) as (n1 & -> & Hin1 & Hkey1). simpl.
      exists [n0; n1]. split; [done |]. split.
      { assert (2 <= length (relay_candidates hashKey nodes))%nat
          by (apply Hc2; lia).
        destruct (length (relay_candidates hashKey nodes)) as [| [| m]];
          simpl; lia. }
      split.
      { intros p [-> | Hp%list_elem_of_singleton]%elem_of_cons.
        - split; [done | lia].
        - subst p. split; [done | lia]. }
      split.
      { intros p n [= <-] Hn. rewrite Hkey0. by apply Hmax. }
      intros q0 q1 [= <- <-]. split; [lia |].
      intros n Hn Hne. rewrite Hkey1. apply Hrest; [done | congruence].
  - exists [n0]. split; [done |]. split.
    { assert (1 <= length (relay_candidates hashKey nodes))%nat
        by (apply Hc1; lia).
      destruct (length (relay_candidates hashKey nodes)) as [| m];
        simpl; lia. }
    split.
    { intros p Hp%list_elem_of_singleton. subst p. split; [done | lia]. }
    split; [| done].
    intros p n [= <-] Hn. rewrite Hkey0. by apply Hmax.
Qed.

End RelayProofs.

(** * Worked examples for bans and relay *)


Lemma RelayAddress_picks_best_witness :
  let nodes := [ex_peer 7 70015 true 0; ex_peer 9 70015 true 0;
                ex_peer 8 70015 true 0] in
  exists pushes,
    RelayAddress Z.abs true nodes = Some pushes
    /\ length pushes = Nat.min 2 (length (relay_candidates Z.abs nodes))
    /\ (forall p, p ∈ pushes -> p ∈ nodes /\ 0 < Z.abs (id p))
    /\ (forall p0 n, head pushes = Some p0 -> n ∈ nodes ->
                     Z.abs (id n) <= Z.abs (id p0))
    /\ (forall p0 p1, pushes = [p0; p1] ->
          Z.abs (id p1) <= Z.abs (id p0)
          /\ forall n, n ∈ nodes -> n <> p0 -> Z.abs (id n) <= Z.abs (id p1)).
Proof.
  intros nodes. apply (RelayAddress_picks_best Z.abs).
  intros i. lia.
Defined.

(** Keys 7, 9 and 8: the address goes to peers 9 and 8, in that order; an
    address outside our networks goes to peer 9 alone. *)
Example ex_relay_address :
  let nodes := [ex_peer 7 70015 true 0; ex_peer 9 70015 true 0;
                ex_peer 8 70015 true 0] in
  (map id <$> RelayAddress Z.abs true nodes,
   map id <$> RelayAddress Z.abs false nodes)
  = (Some [9; 8], Some [9]).
Proof. vm_compute. reflexivity. Qed.

Lemma BlockChecked_once_witness :
  mapBlockSource ex_block_checked
  = delete (ex_hash_of "a") (mapBlockSource ex_block_source)
  /\ (nMisbehavior <$> mapNodeState ex_block_checked !! 7) = Some 100
  /\ BlockChecked 100 256 111 (ex_hash_of "a") ex_verdict_invalid ex_block_checked
     = Some (ex_block_checked, None).
Proof.
  destruct (BlockChecked_once 100 256 111 (ex_hash_of "a") ex_verdict_invalid
              ex_verdict_invalid ex_block_source ex_block_checked
              (Some (7, mkCBlockReject 16 "bad-blk" (ex_hash_of "a"))))
    as (Hsrc & _ & _ & _ & _ & _ & Hagain).
  - vm_compute. reflexivity.
  - split; [exact Hsrc |]. split; [vm_compute; reflexivity | exact Hagain].
Defined.

(** * The counters of the registry *)

Lemma count_peers_le_size P m : count_peers P m <= Z.of_nat (size m).
Proof.
  unfold count_peers. apply inj_le. apply map_subseteq_size.
  apply map_filter_subseteq.
Qed.

Section ReachableCounters.
Context `{TxSerializer}.

(** X30: in every reachable state [nPreferredDownload] is the number of
    registered peers with [fPreferredDownload] set and [nSyncStarted] the
    number with [fSyncStarted] set; these two and
    [nPeersWithValidatedDownloads] lie between zero and the number of
    registered peers. *)
Theorem reachable_peer_counters (g : Globals) :
  reachable g ->
  let peers := Z.of_nat (size (mapNodeState g)) in
  nPreferredDownload g = count_peers fPreferredDownload (mapNodeState g)
  /\ nSyncStarted g = count_peers fSyncStarted (mapNodeState g)
  /\ 0 <= nPreferredDownload g <= peers
  /\ 0 <= nSyncStarted g <= peers
  /\ 0 <= nPeersWithValidatedDownloads g <= peers.
Proof.
  intros Hreach peers. subst peers.
  pose proof (reachable_wf g Hreach) as Hwf.
  pose proof (wf_pref g Hwf) as Hp. pose proof (wf_sync g Hwf) as Hs.
  pose proof (wf_validated g Hwf) as Hv. unfold validated_counter_ok in Hv.
  split; [done |]. split; [done |].
  rewrite Hp, Hs, Hv.
  repeat split; try apply count_peers_nonneg; apply count_peers_le_size.
Qed.

End ReachableCounters.

Lemma reachable_peer_counters_witness :
  let peers := Z.of_nat (size (mapNodeState ex_one_in_flight)) in
  nPreferredDownload ex_one_in_flight
  = count_peers fPreferredDownload (mapNodeState ex_one_in_flight)
  /\ nSyncStarted ex_one_in_flight
     = count_peers fSyncStarted (mapNodeState ex_one_in_flight)
  /\ 0 <= nPreferredDownload ex_one_in_flight <= peers
  /\ 0 <= nSyncStarted ex_one_in_flight <= peers
  /\ 0 <= nPeersWithValidatedDownloads ex_one_in_flight <= peers.
Proof.
  apply reachable_peer_counters, one_in_flight_reachable.
Defined.
